(** * Cleverence Edge JS SDK: connection core

    A shallow embedding of [src/core/events.ts] (the notification
    primitive), [src/core/websocket.ts] (the transport / session manager)
    and [src/core/client.ts] (the protocol facade), with the properties
    that the specification states about them, and of the handlers of the
    composables [src/vue/useBarcode.ts] and [src/vue/useRfid.ts], with
    further properties of the code.

    Conventions of the embedding.

    - JavaScript is single threaded: every method call, socket callback and
      timer callback runs to completion.  Each of them is a function from
      the state before to the state after.
    - Objects that live outside the classes (the [WebSocket] instances, the
      promises handed to callers, the timers) are kept in explicit tables
      next to the fields of the class that refers to them.
    - Handlers are application code.  A handler of the notification
      primitive may subscribe and unsubscribe handlers of the emitter
      that is calling it before it returns or throws; the wrappers created
      by [once] are code of the emitter itself and call [off].  The
      subscribers of the transport are those of the facade, which are
      modelled in full; the subscribers of the facade do not call back
      into it.
    - The environment is the browser: it opens, closes and fails sockets,
      starts the closing handshake of an open socket when the peer asks
      for it, delivers frames and fires timers.
    - Numbers are mathematical integers ([Z]); delays are whole
      milliseconds. *)

From stdpp Require Import base list strings gmap.
From Stdlib Require Import ZArith Lia.

Open Scope string_scope.
Open Scope list_scope.

(** ** The notification primitive ([src/core/events.ts]) *)

Module Events.

(** A handler stored in the set of an event: either a function given by the
    application, or the closure [onceHandler] built by [once]. Functions are
    compared by identity; [User f] is the application function number [f],
    [OnceHandler c ev f] is the [c]-th closure made by [once], which has
    captured the event name [ev] and the application function [f]. *)
Inductive handler : Type :=
  | User (f : nat)
  | OnceHandler (c : nat) (ev : string) (f : nat).

#[global] Instance handler_eq_dec : EqDecision handler.
Proof. solve_decision. Defined.

(** The application function that runs when the handler is called. *)
Definition callee (h : handler) : nat :=
  match h with
  | User f => f
  | OnceHandler _ _ f => f
  end.

(** [handlers : Map<keyof Events, Set<EventHandler>>]. A JavaScript [Set]
    iterates in insertion order and holds each element once, so it is a
    duplicate-free list. [closures] counts the closures [once] has made, and
    numbers the next one. *)
Record EventEmitter : Type := mkEmitter {
  handlers : gmap string (list handler);
  closures : nat
}.

Definition empty_emitter : EventEmitter :=
  {| handlers := ∅; closures := 0 |}.

(** [Set.prototype.add] *)
Definition set_add (h : handler) (hs : list handler) : list handler :=
  if decide (h ∈ hs) then hs else hs ++ [h].

(** [Set.prototype.delete] *)
Definition set_delete (h : handler) (hs : list handler) : list handler :=
  filter (λ x, x ≠ h) hs.

(** The handlers of an event, in registration order. *)
Definition registered (ev : string) (e : EventEmitter) : list handler :=
  default [] (handlers e !! ev).

Definition on (ev : string) (h : handler) (e : EventEmitter) : EventEmitter :=
  {| handlers := <[ev := set_add h (registered ev e)]> (handlers e);
     closures := closures e |}.

Definition off (ev : string) (h : handler) (e : EventEmitter) : EventEmitter :=
  match handlers e !! ev with
  | Some hs => {| handlers := <[ev := set_delete h hs]> (handlers e);
                  closures := closures e |}
  | None => e
  end.

Definition once (ev : string) (f : nat) (e : EventEmitter) : EventEmitter :=
  on ev (OnceHandler (closures e) ev f)
     {| handlers := handlers e; closures := S (closures e) |}.

(** [removeAllListeners(event?)] tests [if (event)]: an absent name and the
    empty name both clear every event. *)
Definition removeAllListeners (ev : option string) (e : EventEmitter)
  : EventEmitter :=
  match ev with
  | Some ev =>
      if decide (ev = "")
      then {| handlers := ∅; closures := closures e |}
      else {| handlers := delete ev (handlers e); closures := closures e |}
  | None => {| handlers := ∅; closures := closures e |}
  end.

Definition listenerCount (ev : string) (e : EventEmitter) : nat :=
  length (registered ev e).

Section Emit.

(** The payload type of the events, and the behaviour of the application
    functions. A function that is called may register and remove
    handlers of the emitter that is calling it, and then returns or
    raises: [acts f d e] are the calls that function [f] makes, in order,
    when it is called with [d] by the emitter [e], and [throws f d] holds
    when it then raises. The application has no reference to the closures
    that [once] builds: what it can pass to [on] and [off] are its own
    functions. [emit] is [protected]: a function of the application does
    not publish. *)
Context {payload : Type}.

Inductive action : Type :=
  | CallOn (ev : string) (f : nat)
  | CallOff (ev : string) (f : nat)
  | CallOnce (ev : string) (f : nat)
  | CallRemoveAllListeners (ev : option string).

Variable acts : nat → payload → EventEmitter → list action.
Variable throws : nat → payload → bool.

(** What a publication does that can be seen from outside. *)
Inductive effect : Type :=
  | Invoked (h : handler) (d : payload)
  | ConsoleError (ev : string) (h : handler).

(** [eventHandlers.forEach(...)] walks the [Set] object that [emit] has
    read from the map, in insertion order and as the set is while it is
    walked: an entry deleted before its turn is skipped, an entry added
    is visited. [todo] holds the entries not yet visited. [live] tells
    whether the map still holds that [Set] object under the event:
    [removeAllListeners] takes it out of the map without emptying it, so
    that the walk goes on over the entries it has, and what is registered
    afterwards goes to another set. *)
Record walk : Type := mkWalk {
  emitter : EventEmitter;
  todo : list handler;
  live : bool
}.

(** [on(ev', h)] and [off(ev', h)] called while the set of [ev] is walked. *)
Definition subscribe (ev ev' : string) (h : handler) (now : EventEmitter)
    (w : walk) : walk :=
  {| emitter := now;
     todo := if decide (live w = true ∧ ev' = ev ∧
                        h ∉ registered ev (emitter w))
             then todo w ++ [h] else todo w;
     live := live w |}.

Definition unsubscribe (ev ev' : string) (h : handler) (w : walk) : walk :=
  {| emitter := off ev' h (emitter w);
     todo := if decide (live w = true ∧ ev' = ev)
             then set_delete h (todo w) else todo w;
     live := live w |}.

Definition perform (ev : string) (a : action) (w : walk) : walk :=
  match a with
  | CallOn ev' f =>
      subscribe ev ev' (User f) (on ev' (User f) (emitter w)) w
  | CallOff ev' f => unsubscribe ev ev' (User f) w
  | CallOnce ev' f =>
      subscribe ev ev' (OnceHandler (closures (emitter w)) ev' f)
        (once ev' f (emitter w)) w
  | CallRemoveAllListeners o =>
      {| emitter := removeAllListeners o (emitter w);
         todo := todo w;
         live := if decide (o = None ∨ o = Some "" ∨ o = Some ev)
                 then false else live w |}
  end.

(** Calling one stored handler. The body of [onceHandler] is
    [this.off(event, onceHandler); handler(data)]. The result tells
    whether the call raised. *)
Definition call (ev : string) (h : handler) (d : payload) (w : walk)
  : walk * bool :=
  let w := match h with
           | User _ => w
           | OnceHandler _ ev' _ => unsubscribe ev ev' h w
           end in
  (foldl (λ w a, perform ev a w) w (acts (callee h) d (emitter w)),
   throws (callee h) d).

(** [eventHandlers.forEach(handler => { try { handler(data) } catch ... })].
    A handler can add a handler at each call, so the walk need not end:
    [fuel] bounds the number of calls, and [None] is a walk cut short. *)
Fixpoint forEach (fuel : nat) (ev : string) (d : payload) (w : walk)
  : option (EventEmitter * list effect) :=
  match todo w with
  | [] => Some (emitter w, [])
  | h :: rest =>
      match fuel with
      | 0 => None
      | S fuel' =>
          let '(w1, threw) := call ev h d (mkWalk (emitter w) rest (live w)) in
          let logged := if threw then [ConsoleError ev h] else [] in
          match forEach fuel' ev d w1 with
          | Some (e2, effs) => Some (e2, Invoked h d :: logged ++ effs)
          | None => None
          end
      end
  end.

Definition emit (fuel : nat) (ev : string) (d : payload) (e : EventEmitter)
  : option (EventEmitter * list effect) :=
  match handlers e !! ev with
  | Some hs => forEach fuel ev d (mkWalk e hs true)
  | None => Some (e, [])
  end.

(** The handlers a publication has called, in the order of the calls. *)
Fixpoint invocations (effs : list effect) : list (handler * payload) :=
  match effs with
  | [] => []
  | Invoked h d :: effs' => (h, d) :: invocations effs'
  | ConsoleError _ _ :: effs' => invocations effs'
  end.

(** Whether a call changes the set of the event [ev] or takes it out of
    the map. *)
Definition touches (ev : string) (a : action) : bool :=
  match a with
  | CallOn ev' _ | CallOff ev' _ | CallOnce ev' _ => bool_decide (ev' = ev)
  | CallRemoveAllListeners o =>
      bool_decide (o = None ∨ o = Some "" ∨ o = Some ev)
  end.

(** The handler [h], called with [d], leaves the handlers of [ev] alone. *)
Definition quiet (ev : string) (d : payload) (h : handler) : Prop :=
  ∀ e a, a ∈ acts (callee h) d e → touches ev a = false.

End Emit.

(** The representation invariant of the emitter: each handler set is
    duplicate free, and a [once] closure stored under an event is one that
    [once] has already made for that event. *)
Definition wf (e : EventEmitter) : Prop :=
  ∀ ev hs, handlers e !! ev = Some hs →
    NoDup hs ∧
    ∀ c ev' f, OnceHandler c ev' f ∈ hs → ev' = ev ∧ c < closures e.

(** Whether a stored handler is a closure built by [once]. *)
Definition is_once (h : handler) : bool :=
  match h with
  | User _ => false
  | OnceHandler _ _ _ => true
  end.

(** The invariant of a walk of the set of [ev]: the entries to come are
    distinct, the closures of [once] among them are closures made for
    [ev], and while the map holds the set that is walked they are
    handlers of [ev]. *)
Definition walk_ok (ev : string) (w : walk) : Prop :=
  wf (emitter w) ∧ NoDup (todo w) ∧
  (∀ c ev' f, OnceHandler c ev' f ∈ todo w →
              ev' = ev ∧ c < closures (emitter w)) ∧
  (live w = true → ∀ x, x ∈ todo w → x ∈ registered ev (emitter w)).

(** The handler [h] is in no set and its turn is not to come. *)
Definition gone (h : handler) (w : walk) : Prop :=
  (h ∉ todo w) ∧ ∀ ev, h ∉ registered ev (emitter w).


End Events.

(** ** The transport / session manager ([src/core/websocket.ts]) *)

Module Transport.

(** [ConnectionState] of [src/types/messages.ts]. *)
Inductive ConnectionState : Type :=
  | disconnected | connecting | connected | reconnecting.

#[global] Instance ConnectionState_eq_dec : EqDecision ConnectionState.
Proof. solve_decision. Defined.

(** [WebSocket.readyState]. *)
Inductive ReadyState : Type := CONNECTING | OPEN | CLOSING | CLOSED.

#[global] Instance ReadyState_eq_dec : EqDecision ReadyState.
Proof. solve_decision. Defined.

(** A JSON payload the core routes and never inspects. *)
Definition json : Type := string.

(** What a promise is settled with on success. *)
Inductive value : Type :=
  | Undefined
  | Json (j : json).

#[global] Instance value_eq_dec : EqDecision value.
Proof. solve_decision. Defined.

(** A promise; [Rejected] carries the message of the [Error]. *)
Inductive promise : Type :=
  | Pending
  | Resolved (v : value)
  | Rejected (err : string).

#[global] Instance promise_eq_dec : EqDecision promise.
Proof. solve_decision. Defined.

Inductive query : Type := status | capabilities | config | rfid_tags.

Definition query_name (q : query) : string :=
  match q with
  | status => "status"
  | capabilities => "capabilities"
  | config => "config"
  | rfid_tags => "rfid_tags"
  end.

Inductive CommandBody : Type :=
  | trigger_scan
  | set_symbologies (symbologies : list string)
  | start_rfid_inventory (opts : option json)
  | stop_rfid_inventory.

(** [ClientMessage]. *)
Inductive ClientMessage : Type :=
  | Command (c : CommandBody)
  | Query (id : string) (q : query)
  | Ping.

(** The [timestamp] field of a hardware event: the text that arrived, or
    the [Date] made from that text. *)
Inductive timestamp : Type :=
  | Text (s : string)
  | Instant (s : string).

(** [ScanEvent | RfidEvent]: the [type] discriminator, the timestamp and the
    other fields. *)
Record DeviceEvent : Type := mkDeviceEvent {
  ev_type : string;
  ev_timestamp : timestamp;
  ev_fields : json
}.

(** [ServerMessage]. In a response, [result] is [None] when the frame has no
    [data] object. [Other] is a parsed frame with any other [type]. *)
Inductive ServerMessage : Type :=
  | Event (ev : DeviceEvent)
  | Capabilities (data : json)
  | Response (id : string) (success : bool) (result : option value)
             (err : string)
  | ErrorFrame (message : string)
  | Pong
  | Other (raw : json).

(** [WSManagerEvents]: the events the manager publishes. *)
Inductive WSEvent : Type :=
  | EvMessage (m : ServerMessage)
  | EvOpen
  | EvClose
  | EvError (err : string)
  | EvStatechange (s : ConnectionState).

Record WSManagerOptions : Type := mkOptions {
  reconnect : bool;
  reconnectDelay : Z;
  maxReconnectDelay : Z;
  pingInterval : Z
}.

Definition DEFAULT_WS_OPTIONS : WSManagerOptions :=
  {| reconnect := true; reconnectDelay := 1000;
     maxReconnectDelay := 30000; pingInterval := 30000 |}.

(** An entry of [pendingRequests]: the promise that [resolve] and [reject]
    settle, and the handle of the expiry timer. *)
Record PendingRequest : Type := mkPending {
  pr_promise : nat;
  pr_timeout : nat
}.

(** The fields of [class WebSocketManager]. [ws] is the number of the
    socket in the table of sockets; a timer field holds the delay the timer
    was armed with. [pendingRequests] is a JavaScript [Map]: an association
    list in insertion order, one entry per key. *)
Record WebSocketManager : Type := mkManager {
  ws : option nat;
  options : WSManagerOptions;
  _state : ConnectionState;
  reconnectAttempts : nat;
  reconnectTimer : option Z;
  pingTimer : option Z;
  pendingRequests : list (string * PendingRequest);
  intentionalClose : bool
}.

(** A [WebSocket] made by [connect]: its ready state, the promise of the
    [connect] call that made it, and whether the [once] listeners [onOpen]
    and [onError] of that call are still attached. The listeners
    [handleMessage], [handleClose] and [handleError] stay attached for
    good. *)
Record WebSocket : Type := mkSocket {
  readyState : ReadyState;
  sk_promise : nat;
  onOpen : bool;
  onError : bool
}.

(** The closure of a request's expiry timer. *)
Record Timeout : Type := mkTimeout {
  to_id : string;
  to_query : query;
  to_promise : nat;
  to_ms : Z
}.

(** What lives outside the manager object: every socket constructed so
    far, every promise handed out, the armed request timers by handle, the
    number of timer handles given out, the events published, the frames
    written to sockets, and the console. *)
Record Runtime : Type := mkRuntime {
  sockets : list WebSocket;
  promises : list promise;
  timeouts : list (nat * Timeout);
  timer_count : nat;
  emitted : list WSEvent;
  sent : list (nat * ClientMessage);
  console : list string
}.

Record state : Type := mkState {
  this : WebSocketManager;
  rt : Runtime
}.

(** *** Field updates *)

Definition set_ws (v : option nat) (s : state) : state :=
  let m := this s in
  {| this := {| ws := v; options := options m; _state := _state m;
                reconnectAttempts := reconnectAttempts m;
                reconnectTimer := reconnectTimer m; pingTimer := pingTimer m;
                pendingRequests := pendingRequests m;
                intentionalClose := intentionalClose m |};
     rt := rt s |}.

Definition set__state (v : ConnectionState) (s : state) : state :=
  let m := this s in
  {| this := {| ws := ws m; options := options m; _state := v;
                reconnectAttempts := reconnectAttempts m;
                reconnectTimer := reconnectTimer m; pingTimer := pingTimer m;
                pendingRequests := pendingRequests m;
                intentionalClose := intentionalClose m |};
     rt := rt s |}.

Definition set_reconnectAttempts (v : nat) (s : state) : state :=
  let m := this s in
  {| this := {| ws := ws m; options := options m; _state := _state m;
                reconnectAttempts := v;
                reconnectTimer := reconnectTimer m; pingTimer := pingTimer m;
                pendingRequests := pendingRequests m;
                intentionalClose := intentionalClose m |};
     rt := rt s |}.

Definition set_reconnectTimer (v : option Z) (s : state) : state :=
  let m := this s in
  {| this := {| ws := ws m; options := options m; _state := _state m;
                reconnectAttempts := reconnectAttempts m;
                reconnectTimer := v; pingTimer := pingTimer m;
                pendingRequests := pendingRequests m;
                intentionalClose := intentionalClose m |};
     rt := rt s |}.

Definition set_pingTimer (v : option Z) (s : state) : state :=
  let m := this s in
  {| this := {| ws := ws m; options := options m; _state := _state m;
                reconnectAttempts := reconnectAttempts m;
                reconnectTimer := reconnectTimer m; pingTimer := v;
                pendingRequests := pendingRequests m;
                intentionalClose := intentionalClose m |};
     rt := rt s |}.

Definition set_pendingRequests (v : list (string * PendingRequest))
    (s : state) : state :=
  let m := this s in
  {| this := {| ws := ws m; options := options m; _state := _state m;
                reconnectAttempts := reconnectAttempts m;
                reconnectTimer := reconnectTimer m; pingTimer := pingTimer m;
                pendingRequests := v;
                intentionalClose := intentionalClose m |};
     rt := rt s |}.

Definition set_intentionalClose (v : bool) (s : state) : state :=
  let m := this s in
  {| this := {| ws := ws m; options := options m; _state := _state m;
                reconnectAttempts := reconnectAttempts m;
                reconnectTimer := reconnectTimer m; pingTimer := pingTimer m;
                pendingRequests := pendingRequests m;
                intentionalClose := v |};
     rt := rt s |}.

Definition set_sockets (v : list WebSocket) (s : state) : state :=
  let r := rt s in
  {| this := this s;
     rt := {| sockets := v; promises := promises r; timeouts := timeouts r;
              timer_count := timer_count r; emitted := emitted r;
              sent := sent r; console := console r |} |}.

Definition set_promises (v : list promise) (s : state) : state :=
  let r := rt s in
  {| this := this s;
     rt := {| sockets := sockets r; promises := v; timeouts := timeouts r;
              timer_count := timer_count r; emitted := emitted r;
              sent := sent r; console := console r |} |}.

Definition set_timeouts (v : list (nat * Timeout)) (n : nat) (s : state)
  : state :=
  let r := rt s in
  {| this := this s;
     rt := {| sockets := sockets r; promises := promises r; timeouts := v;
              timer_count := n; emitted := emitted r;
              sent := sent r; console := console r |} |}.

Definition set_emitted (v : list WSEvent) (s : state) : state :=
  let r := rt s in
  {| this := this s;
     rt := {| sockets := sockets r; promises := promises r;
              timeouts := timeouts r; timer_count := timer_count r;
              emitted := v; sent := sent r; console := console r |} |}.

Definition set_sent (v : list (nat * ClientMessage)) (s : state) : state :=
  let r := rt s in
  {| this := this s;
     rt := {| sockets := sockets r; promises := promises r;
              timeouts := timeouts r; timer_count := timer_count r;
              emitted := emitted r; sent := v; console := console r |} |}.

Definition set_console (v : list string) (s : state) : state :=
  let r := rt s in
  {| this := this s;
     rt := {| sockets := sockets r; promises := promises r;
              timeouts := timeouts r; timer_count := timer_count r;
              emitted := emitted r; sent := sent r; console := v |} |}.

(** *** Promises, timers and the [Map] of pending requests *)

(** [new Promise(...)]: the new promise is the last of the table. *)
Definition new_promise (s : state) : nat * state :=
  (length (promises (rt s)), set_promises (promises (rt s) ++ [Pending]) s).

(** Settling a promise has an effect only while it is pending. *)
Definition settle (p : nat) (o : promise) (s : state) : state :=
  match promises (rt s) !! p with
  | Some Pending => set_promises (<[p := o]> (promises (rt s))) s
  | _ => s
  end.

Definition resolve (p : nat) (v : value) : state → state :=
  settle p (Resolved v).

Definition reject (p : nat) (err : string) : state → state :=
  settle p (Rejected err).

Definition setTimeout (c : Timeout) (s : state) : nat * state :=
  let t := timer_count (rt s) in
  (t, set_timeouts (timeouts (rt s) ++ [(t, c)]) (S t) s).

Definition clearTimeout (t : nat) (s : state) : state :=
  set_timeouts (filter (λ x, x.1 ≠ t) (timeouts (rt s))) (timer_count (rt s)) s.

Fixpoint map_get {V : Type} (k : string) (m : list (string * V)) : option V :=
  match m with
  | [] => None
  | (k', v) :: m' => if decide (k' = k) then Some v else map_get k m'
  end.

Fixpoint map_set {V : Type} (k : string) (v : V) (m : list (string * V))
  : list (string * V) :=
  match m with
  | [] => [(k, v)]
  | (k', w) :: m' =>
      if decide (k' = k) then (k', v) :: m' else (k', w) :: map_set k v m'
  end.

Definition map_delete {V : Type} (k : string) (m : list (string * V))
  : list (string * V) :=
  filter (λ x, x.1 ≠ k) m.

(** *** The methods of [WebSocketManager] *)

Definition new_manager (opts : WSManagerOptions) : state :=
  {| this := {| ws := None; options := opts; _state := disconnected;
                reconnectAttempts := 0; reconnectTimer := None;
                pingTimer := None; pendingRequests := [];
                intentionalClose := false |};
     rt := {| sockets := []; promises := []; timeouts := []; timer_count := 0;
              emitted := []; sent := []; console := [] |} |}.

Definition isConnected (s : state) : bool :=
  bool_decide (_state (this s) = connected).

(** [this.emit(event, data)]. Subscribers do not call back into the
    manager, so all that a publication does to it is to be recorded; what
    the subscribers of the facade do with the events is
    [Client.subscriber]. *)
Definition emit (ev : WSEvent) (s : state) : state :=
  set_emitted (emitted (rt s) ++ [ev]) s.

Definition setState (st : ConnectionState) (s : state) : state :=
  if decide (_state (this s) = st) then s
  else emit (EvStatechange st) (set__state st s).

Definition stopPing (s : state) : state :=
  match pingTimer (this s) with
  | Some _ => set_pingTimer None s
  | None => s
  end.

Definition startPing (s : state) : state :=
  let s := stopPing s in
  set_pingTimer (Some (pingInterval (options (this s)))) s.

(** [ws.close()] on the socket [i]: the browser moves it to [CLOSING]; its
    [close] event comes later. *)
Definition socket_close (i : nat) (s : state) : state :=
  match sockets (rt s) !! i with
  | Some sk =>
      set_sockets (<[i := mkSocket CLOSING (sk_promise sk) (onOpen sk)
                                   (onError sk)]> (sockets (rt s))) s
  | None => s
  end.

(** The body of [this.pendingRequests.forEach(...)] in [cleanup]. *)
Fixpoint reject_all (ps : list (string * PendingRequest)) (s : state)
  : state :=
  match ps with
  | [] => s
  | (_, pending) :: ps' =>
      let s := clearTimeout (pr_timeout pending) s in
      let s := reject (pr_promise pending) "WebSocket disconnected" s in
      reject_all ps' s
  end.

Definition cleanup (s : state) : state :=
  let s := stopPing s in
  let s := match reconnectTimer (this s) with
           | Some _ => set_reconnectTimer None s
           | None => s
           end in
  let s := reject_all (pendingRequests (this s)) s in
  let s := set_pendingRequests [] s in
  match ws (this s) with
  | Some i =>
      let s := set_ws None s in
      match sockets (rt s) !! i with
      | Some sk =>
          if decide (readyState sk = OPEN ∨ readyState sk = CONNECTING)
          then socket_close i s else s
      | None => s
      end
  | None => s
  end.

(** The delay [scheduleReconnect] computes with the counter at [n]. The
    options are whole numbers of milliseconds. The source computes in
    doubles: with a positive base the product is exact until it overflows
    to [Infinity], and there [Math.min] gives the ceiling, as [Z.min] does
    here. With the base 0 the source computes [0 * Infinity], which is
    [NaN], from the counter 1024 on, where this definition gives 0; what
    is stated about the size and the order of the delays takes a positive
    base. *)
Definition backoff (o : WSManagerOptions) (n : nat) : Z :=
  Z.min (reconnectDelay o * 2 ^ Z.of_nat n) (maxReconnectDelay o).

Definition scheduleReconnect (s : state) : state :=
  match reconnectTimer (this s) with
  | Some _ => s
  | None =>
      let s := setState reconnecting s in
      let delay := backoff (options (this s)) (reconnectAttempts (this s)) in
      set_reconnectTimer (Some delay) s
  end.

(** [connect()]. [ctor] is what [new WebSocket(this.url)] does: [None] when
    it returns the new socket, [Some msg] when it throws. The result is the
    promise returned to the caller. *)
Definition connect (ctor : option string) (s : state) : nat * state :=
  let '(p, s) := new_promise s in
  if decide (_state (this s) = connected ∨ _state (this s) = connecting) then
    (p, resolve p Undefined s)
  else
    let s := set_intentionalClose false s in
    let s := setState connecting s in
    match ctor with
    | None =>
        let i := length (sockets (rt s)) in
        let s := set_sockets
                   (sockets (rt s) ++ [mkSocket CONNECTING p true true]) s in
        (p, set_ws (Some i) s)
    | Some msg =>
        let s := setState disconnected s in
        (p, reject p msg s)
    end.

Definition disconnect (s : state) : state :=
  let s := set_intentionalClose true s in
  let s := cleanup s in
  let s := setState disconnected s in
  emit EvClose s.

(** [send(message)]: [Some msg] is the error thrown. *)
Definition send (m : ClientMessage) (s : state) : option string * state :=
  match ws (this s) with
  | Some i =>
      match sockets (rt s) !! i with
      | Some sk =>
          if decide (readyState sk = OPEN)
          then (None, set_sent (sent (rt s) ++ [(i, m)]) s)
          else (Some "WebSocket is not connected", s)
      | None => (Some "WebSocket is not connected", s)
      end
  | None => (Some "WebSocket is not connected", s)
  end.

(** [request(query, timeoutMs)]. [id] is what [generateId()] returns. *)
Definition request (q : query) (id : string) (timeoutMs : Z) (s : state)
  : nat * state :=
  let '(p, s) := new_promise s in
  let '(t, s) := setTimeout (mkTimeout id q p timeoutMs) s in
  let s := set_pendingRequests
             (map_set id (mkPending p t) (pendingRequests (this s))) s in
  match send (Query id q) s with
  | (None, s) => (p, s)
  | (Some err, s) =>
      let s := clearTimeout t s in
      let s := set_pendingRequests
                 (map_delete id (pendingRequests (this s))) s in
      (p, reject p err s)
  end.

Definition command (c : CommandBody) (s : state) : option string * state :=
  send (Command c) s.

(** [handleMessage(event)]. [frame] is the result of
    [JSON.parse(event.data)]: [None] when parsing, or reading [type] off the
    parsed value, throws. *)
Definition handleMessage (frame : option ServerMessage) (s : state) : state :=
  match frame with
  | None =>
      set_console (console (rt s) ++ ["Failed to parse WebSocket message:"]) s
  | Some (Response id success result err as m) =>
      match map_get id (pendingRequests (this s)) with
      | Some pending =>
          let s := clearTimeout (pr_timeout pending) s in
          let s := set_pendingRequests
                     (map_delete id (pendingRequests (this s))) s in
          if success then
            match result with
            | Some v => resolve (pr_promise pending) v s
            | None =>
                set_console
                  (console (rt s) ++ ["Failed to parse WebSocket message:"]) s
            end
          else reject (pr_promise pending) err s
      | None => emit (EvMessage m) s
      end
  | Some Pong => s
  | Some m => emit (EvMessage m) s
  end.

Definition handleClose (s : state) : state :=
  let s := cleanup s in
  if intentionalClose (this s) then setState disconnected s
  else
    let s := emit EvClose s in
    if reconnect (options (this s)) then scheduleReconnect s
    else setState disconnected s.

Definition handleError (s : state) : state :=
  emit (EvError "WebSocket error") s.

(** *** The callbacks the manager hands to the socket and to the timers *)

(** [removeEventListener] of a [once] listener of the [connect] call that
    made socket [i]. The call in the source goes through [this.ws]: the
    listener is found, and removed, only when [this.ws] still is socket
    [i]. *)
Definition remove_listener (open_listener : bool) (i : nat) (s : state)
  : state :=
  match sockets (rt s) !! i with
  | Some sk =>
      set_sockets
        (<[i := if open_listener
                then mkSocket (readyState sk) (sk_promise sk) false (onError sk)
                else mkSocket (readyState sk) (sk_promise sk) (onOpen sk) false
          ]> (sockets (rt s))) s
  | None => s
  end.

Definition remove_via_ws (open_listener : bool) (i : nat) (s : state)
  : state :=
  match ws (this s) with
  | Some j => if decide (j = i) then remove_listener open_listener i s else s
  | None => s
  end.

(** The closure [onOpen] of the [connect] call that made socket [i] and
    returned promise [p]. *)
Definition onOpen_body (i p : nat) (s : state) : state :=
  let s := remove_via_ws false i s in
  let s := set_reconnectAttempts 0 s in
  let s := setState connected s in
  let s := startPing s in
  let s := emit EvOpen s in
  resolve p Undefined s.

(** The closure [onError] of the same call. *)
Definition onError_body (i p : nat) (s : state) : state :=
  let s := remove_via_ws true i s in
  reject p "WebSocket connection failed" s.

(** The callback of the timer armed by [scheduleReconnect]; the rejection
    of [connect()] is caught and dropped. *)
Definition reconnect_callback (ctor : option string) (s : state) : state :=
  let s := set_reconnectTimer None s in
  let s := set_reconnectAttempts (S (reconnectAttempts (this s))) s in
  (connect ctor s).2.

(** The callback of the timer armed by [request]. *)
Definition timeout_callback (c : Timeout) (s : state) : state :=
  let s := set_pendingRequests
             (map_delete (to_id c) (pendingRequests (this s))) s in
  reject (to_promise c)
         ("Request timeout: " ++ query_name (to_query c))%string s.

(** The callback of the interval armed by [startPing]. *)
Definition ping_callback (s : state) : state :=
  match ws (this s) with
  | Some i =>
      match sockets (rt s) !! i with
      | Some sk =>
          if decide (readyState sk = OPEN) then (send Ping s).2 else s
      | None => s
      end
  | None => s
  end.

(** *** What the environment can do

    A socket event on socket [i], the firing of a timer, or a call of a
    public method. [step] gives [None] when the event cannot occur in the
    state: the browser opens a socket only while it is connecting, delivers
    frames only while it is open, and closes it once; a timer fires only
    while armed. Listeners run in the order [connect] attached them.
    [SockClosing] is the closing handshake started by the peer: the
    browser moves the open socket to [CLOSING] and calls no listener; the
    [close] event of the socket comes later. *)
Inductive event : Type :=
  | SockOpen (i : nat)
  | SockError (i : nat)
  | SockClose (i : nat)
  | SockMessage (i : nat) (frame : option ServerMessage)
  | ReconnectTimer (ctor : option string)
  | RequestTimer (t : nat)
  | PingTimer
  | CallConnect (ctor : option string)
  | CallDisconnect
  | CallSend (m : ClientMessage)
  | CallRequest (q : query) (id : string) (timeoutMs : Z)
  | SockClosing (i : nat).

Definition set_readyState (i : nat) (r : ReadyState) (s : state) : state :=
  match sockets (rt s) !! i with
  | Some sk =>
      set_sockets (<[i := mkSocket r (sk_promise sk) (onOpen sk) (onError sk)]>
                     (sockets (rt s))) s
  | None => s
  end.

Definition sock_open (i : nat) (s : state) : option state :=
  match sockets (rt s) !! i with
  | Some sk =>
      if decide (readyState sk = CONNECTING) then
        let s := set_readyState i OPEN s in
        Some (if onOpen sk
              then onOpen_body i (sk_promise sk) (remove_listener true i s)
              else s)
      else None
  | None => None
  end.

Definition sock_error (i : nat) (s : state) : option state :=
  match sockets (rt s) !! i with
  | Some sk =>
      if decide (readyState sk = CLOSED) then None
      else
        let s := if onError sk
                 then onError_body i (sk_promise sk) (remove_listener false i s)
                 else s in
        Some (handleError s)
  | None => None
  end.

Definition sock_close (i : nat) (s : state) : option state :=
  match sockets (rt s) !! i with
  | Some sk =>
      if decide (readyState sk = CLOSED) then None
      else Some (handleClose (set_readyState i CLOSED s))
  | None => None
  end.

Definition sock_message (i : nat) (frame : option ServerMessage) (s : state)
  : option state :=
  match sockets (rt s) !! i with
  | Some sk =>
      if decide (readyState sk = OPEN) then Some (handleMessage frame s)
      else None
  | None => None
  end.

(** The peer starts the closing handshake of the open socket [i]: the
    browser sets its [readyState] to [CLOSING] in a task of its own, before
    the task that fires [close]. No listener of the manager runs: its
    state stays [connected] and it holds the socket until the [close]. *)
Definition sock_closing (i : nat) (s : state) : option state :=
  match sockets (rt s) !! i with
  | Some sk =>
      if decide (readyState sk = OPEN) then Some (set_readyState i CLOSING s)
      else None
  | None => None
  end.

Definition fire_reconnect (ctor : option string) (s : state) : option state :=
  match reconnectTimer (this s) with
  | Some _ => Some (reconnect_callback ctor s)
  | None => None
  end.

Definition fire_timeout (t : nat) (s : state) : option state :=
  match list_find (λ x, x.1 = t) (timeouts (rt s)) with
  | Some (_, (_, c)) => Some (timeout_callback c (clearTimeout t s))
  | None => None
  end.

Definition fire_ping (s : state) : option state :=
  match pingTimer (this s) with
  | Some _ => Some (ping_callback s)
  | None => None
  end.

Definition step (ev : event) (s : state) : option state :=
  match ev with
  | SockOpen i => sock_open i s
  | SockError i => sock_error i s
  | SockClose i => sock_close i s
  | SockMessage i frame => sock_message i frame s
  | ReconnectTimer ctor => fire_reconnect ctor s
  | RequestTimer t => fire_timeout t s
  | PingTimer => fire_ping s
  | CallConnect ctor => Some (connect ctor s).2
  | CallDisconnect => Some (disconnect s)
  | CallSend m => Some (send m s).2
  | CallRequest q id ms => Some (request q id ms s).2
  | SockClosing i => sock_closing i s
  end.

Fixpoint run (evs : list event) (s : state) : option state :=
  match evs with
  | [] => Some s
  | ev :: evs' =>
      match step ev s with
      | Some s' => run evs' s'
      | None => None
      end
  end.

(** A retry that fails: the reconnect timer fires, [connect] makes a new
    socket, the socket reports an error and closes. *)
Definition failed_retry (s : state) : option state :=
  run [ReconnectTimer None;
       SockError (length (sockets (rt s)));
       SockClose (length (sockets (rt s)))] s.

(** The delays the reconnect timer is armed with over [n] failed retries in
    a row, starting from a state in which it is armed. *)
Fixpoint retry_delays (n : nat) (s : state) : list (option Z) :=
  match n with
  | 0 => []
  | S n' =>
      reconnectTimer (this s) ::
      match failed_retry s with
      | Some s' => retry_delays n' s'
      | None => []
      end
  end.

(** [n] failed retries in a row. *)
Fixpoint retries (n : nat) (s : state) : option state :=
  match n with
  | 0 => Some s
  | S n' =>
      match failed_retry s with
      | Some s' => retries n' s'
      | None => None
      end
  end.





(** From [s] to [s'] the manager has published no [message] event: what
    [s'] has published is what [s] had, followed by other events. *)
Definition no_message_since (s s' : state) : Prop :=
  ∃ l, emitted (rt s') = emitted (rt s) ++ l ∧ ∀ m, EvMessage m ∉ l.


(** The ready states of the sockets made so far. *)
Definition readyStates (s : state) : list ReadyState :=
  readyState <$> sockets (rt s).

(** A socket is live while it is connecting or open. *)
Definition live (r : ReadyState) : Prop := r = CONNECTING ∨ r = OPEN.

(** What holds of the manager between two callbacks: a socket the manager
    no longer holds is closing or closed; the manager holds no socket in
    the states [disconnected] and [reconnecting]; in the state [connected]
    it holds a socket that is open, or closing because the peer has
    started the closing handshake; and the keepalive timer is armed in the
    state [connected] and in no other. *)
Definition consistent (s : state) : Prop :=
  (∀ i r, readyStates s !! i = Some r → ws (this s) ≠ Some i → ¬ live r) ∧
  (_state (this s) = disconnected ∨ _state (this s) = reconnecting →
   ws (this s) = None) ∧
  (_state (this s) = connected →
   ∃ i, ws (this s) = Some i ∧
        (readyStates s !! i = Some OPEN ∨
         readyStates s !! i = Some CLOSING)) ∧
  (pingTimer (this s) ≠ None ↔ _state (this s) = connected).


(** Two states with the same connection: the same socket held, the same
    state of the state machine, the same keepalive timer and the same
    ready states. *)
Definition same_connection (s s' : state) : Prop :=
  ws (this s') = ws (this s) ∧ _state (this s') = _state (this s) ∧
  pingTimer (this s') = pingTimer (this s) ∧
  readyStates s' = readyStates s.

(** The manager as [disconnect] leaves it and as it stays until [connect]
    is called: the close was asked for, the state is [disconnected], no
    socket is held and none of the sockets made is connecting or open, no
    timer of the manager is armed and no request is pending. *)
Definition idle (s : state) : Prop :=
  intentionalClose (this s) = true ∧ _state (this s) = disconnected ∧
  ws (this s) = None ∧ reconnectTimer (this s) = None ∧
  pingTimer (this s) = None ∧ pendingRequests (this s) = [] ∧
  ∀ i r, readyStates s !! i = Some r → ¬ live r.


End Transport.

(** ** The protocol facade ([src/core/client.ts]) *)

Module Client.

(** [EdgeOptions] and [DEFAULT_OPTIONS] of [src/types/messages.ts]. *)
Record EdgeOptions : Type := mkEdgeOptions {
  url : string;
  autoConnect : bool;
  reconnectDelay : Z;
  maxReconnectDelay : Z;
  pingInterval : Z
}.

Definition DEFAULT_OPTIONS : EdgeOptions :=
  {| url := "ws://localhost:8585"; autoConnect := true;
     reconnectDelay := 1000; maxReconnectDelay := 30000;
     pingInterval := 30000 |}.

(** [CleverenceEdgeEvents]: the events the facade publishes. *)
Inductive EdgeEvent : Type :=
  | EvScan (e : Transport.DeviceEvent)
  | EvRfid (e : Transport.DeviceEvent)
  | EvConnect
  | EvDisconnect
  | EvReconnecting
  | EvError (err : string)
  | EvCapabilities (caps : Transport.value).

(** The fields of [class CleverenceEdge], and next to them what the
    constructor leaves behind: whether the timer of the deferred first
    [connect()] is still armed, the promises of the [getCapabilities()]
    calls of the [open] subscriber whose [then] / [catch] have not run yet,
    and the events published. *)
Record CleverenceEdge : Type := mkEdge {
  ws : Transport.state;
  options : EdgeOptions;
  _capabilities : option Transport.value;
  autoConnectTimer : bool;
  fetching : list nat;
  published : list EdgeEvent
}.

Definition set_ws (s : Transport.state) (e : CleverenceEdge) : CleverenceEdge :=
  {| ws := s; options := options e; _capabilities := _capabilities e;
     autoConnectTimer := autoConnectTimer e; fetching := fetching e;
     published := published e |}.

Definition set__capabilities (c : option Transport.value) (e : CleverenceEdge)
  : CleverenceEdge :=
  {| ws := ws e; options := options e; _capabilities := c;
     autoConnectTimer := autoConnectTimer e; fetching := fetching e;
     published := published e |}.

Definition set_fetching (l : list nat) (e : CleverenceEdge) : CleverenceEdge :=
  {| ws := ws e; options := options e; _capabilities := _capabilities e;
     autoConnectTimer := autoConnectTimer e; fetching := l;
     published := published e |}.

Definition set_autoConnectTimer (b : bool) (e : CleverenceEdge)
  : CleverenceEdge :=
  {| ws := ws e; options := options e; _capabilities := _capabilities e;
     autoConnectTimer := b; fetching := fetching e;
     published := published e |}.

Definition emit (ev : EdgeEvent) (e : CleverenceEdge) : CleverenceEdge :=
  {| ws := ws e; options := options e; _capabilities := _capabilities e;
     autoConnectTimer := autoConnectTimer e; fetching := fetching e;
     published := published e ++ [ev] |}.

(** The constructor. *)
Definition new_edge (o : EdgeOptions) : CleverenceEdge :=
  {| ws := Transport.new_manager
             {| Transport.reconnect := true;
                Transport.reconnectDelay := reconnectDelay o;
                Transport.maxReconnectDelay := maxReconnectDelay o;
                Transport.pingInterval := pingInterval o |};
     options := o;
     _capabilities := None;
     autoConnectTimer := autoConnect o;
     fetching := [];
     published := [] |}.

Definition connectionState (e : CleverenceEdge) : Transport.ConnectionState :=
  Transport._state (Transport.this (ws e)).

Definition isConnected (e : CleverenceEdge) : bool :=
  Transport.isConnected (ws e).

Definition capabilities (e : CleverenceEdge) : option Transport.value :=
  _capabilities e.

(** How the promise of an [async] method ends up: rejected at once by a
    [throw] in its body, fulfilled at once, or settled as the promise [p]
    of the transport that the body returns. *)
Inductive outcome : Type :=
  | Throws (err : string)
  | Returns
  | Awaits (p : nat).

Definition ensureConnected (e : CleverenceEdge) : option string :=
  if isConnected e then None
  else Some "Not connected to Edge service. Call connect() first.".

(** [this.ws.command(...)] inside an [async] method. *)
Definition ws_command (c : Transport.CommandBody) (e : CleverenceEdge)
  : outcome * CleverenceEdge :=
  match Transport.command c (ws e) with
  | (Some err, s) => (Throws err, set_ws s e)
  | (None, s) => (Returns, set_ws s e)
  end.

(** [return this.ws.request(...)]; the default [timeoutMs] is 10000. *)
Definition ws_request (q : Transport.query) (id : string) (e : CleverenceEdge)
  : outcome * CleverenceEdge :=
  let '(p, s) := Transport.request q id 10000 (ws e) in
  (Awaits p, set_ws s e).

Definition triggerScan (e : CleverenceEdge) : outcome * CleverenceEdge :=
  match ensureConnected e with
  | Some err => (Throws err, e)
  | None => ws_command Transport.trigger_scan e
  end.

Definition setSymbologies (symbologies : list string) (e : CleverenceEdge)
  : outcome * CleverenceEdge :=
  match ensureConnected e with
  | Some err => (Throws err, e)
  | None => ws_command (Transport.set_symbologies symbologies) e
  end.

Definition startRfidInventory (opts : option Transport.json)
    (e : CleverenceEdge) : outcome * CleverenceEdge :=
  match ensureConnected e with
  | Some err => (Throws err, e)
  | None => ws_command (Transport.start_rfid_inventory opts) e
  end.

Definition stopRfidInventory (e : CleverenceEdge) : outcome * CleverenceEdge :=
  match ensureConnected e with
  | Some err => (Throws err, e)
  | None => ws_command Transport.stop_rfid_inventory e
  end.

Definition getStatus (id : string) (e : CleverenceEdge)
  : outcome * CleverenceEdge :=
  match ensureConnected e with
  | Some err => (Throws err, e)
  | None => ws_request Transport.status id e
  end.

Definition getCapabilities (id : string) (e : CleverenceEdge)
  : outcome * CleverenceEdge :=
  match ensureConnected e with
  | Some err => (Throws err, e)
  | None => ws_request Transport.capabilities id e
  end.

Definition getConfig (id : string) (e : CleverenceEdge)
  : outcome * CleverenceEdge :=
  match ensureConnected e with
  | Some err => (Throws err, e)
  | None => ws_request Transport.config id e
  end.

Definition getRfidTags (id : string) (e : CleverenceEdge)
  : outcome * CleverenceEdge :=
  match ensureConnected e with
  | Some err => (Throws err, e)
  | None => ws_request Transport.rfid_tags id e
  end.

Definition handleEvent (ev : Transport.DeviceEvent) (e : CleverenceEdge)
  : CleverenceEdge :=
  let parsedEvent :=
    {| Transport.ev_type := Transport.ev_type ev;
       Transport.ev_timestamp :=
         match Transport.ev_timestamp ev with
         | Transport.Text s => Transport.Instant s
         | t => t
         end;
       Transport.ev_fields := Transport.ev_fields ev |} in
  if decide (Transport.ev_type ev = "scan") then emit (EvScan parsedEvent) e
  else if decide (Transport.ev_type ev = "rfid") then emit (EvRfid parsedEvent) e
  else e.

Definition handleServerMessage (m : Transport.ServerMessage)
    (e : CleverenceEdge) : CleverenceEdge :=
  match m with
  | Transport.Event ev => handleEvent ev e
  | Transport.Capabilities data =>
      let e := set__capabilities (Some (Transport.Json data)) e in
      emit (EvCapabilities (Transport.Json data)) e
  | Transport.ErrorFrame message => emit (EvError message) e
  | _ => e
  end.

(** The subscribers that [setupWebSocketHandlers] attaches to the
    transport, applied to one published event. [id] is the identifier
    [generateId()] gives to the query of the [open] subscriber. *)
Definition subscriber (id : string) (ev : Transport.WSEvent)
    (e : CleverenceEdge) : CleverenceEdge :=
  match ev with
  | Transport.EvOpen =>
      let e := emit EvConnect e in
      match getCapabilities id e with
      | (Awaits p, e) => set_fetching (fetching e ++ [p]) e
      | (_, e) => e
      end
  | Transport.EvClose => emit EvDisconnect e
  | Transport.EvError err => emit (EvError err) e
  | Transport.EvStatechange st =>
      if decide (st = Transport.reconnecting) then emit EvReconnecting e else e
  | Transport.EvMessage m => handleServerMessage m e
  end.

(** The [then] and [catch] callbacks of the capability fetches: they run
    once the promise is settled, after the callback that settled it has
    returned. *)
Fixpoint continuations (ps : list nat) (e : CleverenceEdge) : CleverenceEdge :=
  match ps with
  | [] => set_fetching [] e
  | p :: ps' =>
      match Transport.promises (Transport.rt (ws e)) !! p with
      | Some (Transport.Resolved caps) =>
          let e := set__capabilities (Some caps) e in
          let e := emit (EvCapabilities caps) e in
          continuations ps' e
      | Some Transport.Pending =>
          let e := continuations ps' e in
          set_fetching (p :: fetching e) e
      | _ => continuations ps' e
      end
  end.

(** One turn of the facade: the transport has moved from a state that had
    published [before] events to the state [s]; the subscribers get the
    events published since, then the settled continuations run. *)
Definition turn (before : nat) (id : string) (s : Transport.state)
    (e : CleverenceEdge) : CleverenceEdge :=
  let e := set_ws s e in
  let news := drop before (Transport.emitted (Transport.rt s)) in
  let e := foldl (λ e ev, subscriber id ev e) e news in
  continuations (fetching e) e.

Definition published_before (e : CleverenceEdge) : nat :=
  length (Transport.emitted (Transport.rt (ws e))).

Definition connect (ctor : option string) (id : string) (e : CleverenceEdge)
  : outcome * CleverenceEdge :=
  let '(p, s) := Transport.connect ctor (ws e) in
  (Awaits p, turn (published_before e) id s e).

Definition disconnect (id : string) (e : CleverenceEdge) : CleverenceEdge :=
  turn (published_before e) id (Transport.disconnect (ws e)) e.

(** The timer of the constructor: [this.connect().catch(() => {})]. *)
Definition fire_autoConnect (ctor : option string) (id : string)
    (e : CleverenceEdge) : option CleverenceEdge :=
  if autoConnectTimer e
  then Some (connect ctor id (set_autoConnectTimer false e)).2
  else None.

(** The manager is a private field: of the events of the transport, only
    those of its sockets and timers occur under the facade. *)
Definition from_environment (ev : Transport.event) : bool :=
  match ev with
  | Transport.CallConnect _ | Transport.CallDisconnect
  | Transport.CallSend _ | Transport.CallRequest _ _ _ => false
  | _ => true
  end.

Definition occurs (ev : Transport.event) (id : string) (e : CleverenceEdge)
  : option CleverenceEdge :=
  if from_environment ev then
    match Transport.step ev (ws e) with
    | Some s => Some (turn (published_before e) id s e)
    | None => None
    end
  else None.

(** The public methods, as one type of calls. *)
Inductive call : Type :=
  | Connect (ctor : option string)
  | Disconnect
  | TriggerScan
  | SetSymbologies (symbologies : list string)
  | StartRfidInventory (opts : option Transport.json)
  | StopRfidInventory
  | GetStatus
  | GetCapabilities
  | GetConfig
  | GetRfidTags.

Definition invoke (c : call) (id : string) (e : CleverenceEdge)
  : CleverenceEdge :=
  match c with
  | Connect ctor => (connect ctor id e).2
  | Disconnect => disconnect id e
  | TriggerScan => (triggerScan e).2
  | SetSymbologies l => (setSymbologies l e).2
  | StartRfidInventory o => (startRfidInventory o e).2
  | StopRfidInventory => (stopRfidInventory e).2
  | GetStatus => (getStatus id e).2
  | GetCapabilities => (getCapabilities id e).2
  | GetConfig => (getConfig id e).2
  | GetRfidTags => (getRfidTags id e).2
  end.

(** The capability fetches the facade is waiting for are pending: a
    settled one has had its continuation run. *)
Definition waiting (e : CleverenceEdge) : Prop :=
  ∀ p, p ∈ fetching e →
    Transport.promises (Transport.rt (ws e)) !! p = Some Transport.Pending.

(** What happens to a facade: a call of a public method, an event of a
    socket or a timer of its transport, or the timer of the constructor.
    [id] is the identifier the next [generateId()] returns. *)
Inductive action : Type :=
  | Calls (c : call) (id : string)
  | Occurs (ev : Transport.event) (id : string)
  | AutoConnects (ctor : option string) (id : string).

Definition perform (a : action) (e : CleverenceEdge) : option CleverenceEdge :=
  match a with
  | Calls c id => Some (invoke c id e)
  | Occurs ev id => occurs ev id e
  | AutoConnects ctor id => fire_autoConnect ctor id e
  end.

Fixpoint run (acts : list action) (e : CleverenceEdge)
  : option CleverenceEdge :=
  match acts with
  | [] => Some e
  | a :: acts' =>
      match perform a e with
      | Some e' => run acts' e'
      | None => None
      end
  end.

(** An action that is neither a [connect()], made by the caller or by the
    timer of the constructor, nor a [disconnect()]. *)
Definition passive (a : action) : bool :=
  match a with
  | Calls (Connect _) _ | Calls Disconnect _ | AutoConnects _ _ => false
  | _ => true
  end.


End Client.

(** ** The composables ([src/vue/useBarcode.ts], [src/vue/useRfid.ts])

    The handlers that the composables subscribe to [scan] and [rfid], as
    functions on the values of their refs. The hooks of
    [src/react/useBarcode.ts] and [src/react/useRfid.ts] apply the same
    updates to their state. The optional callbacks [onScan] and [onRead]
    are application code: what is kept of them is the list of the events
    they were called with. *)

Module Bindings.

(** [array.slice(0, end)] for an integer [end]: a negative [end] counts
    from the end of the array. *)
Definition slice0 {A : Type} (end_ : Z) (l : list A) : list A :=
  let len := Z.of_nat (length l) in
  let final := if decide (end_ < 0)%Z then Z.max (len + end_) 0
               else Z.min end_ len in
  take (Z.to_nat final) l.

Section Barcode.

Context {ScanEvent : Type}.

(** The refs [lastScan] and [scanHistory] of [useBarcode]. *)
Record Barcode : Type := mkBarcode {
  lastScan : option ScanEvent;
  scanHistory : list ScanEvent;
  onScan_calls : list ScanEvent
}.

(** [maxHistory], and whether [onScan] was given. *)
Context (maxHistory : Z) (onScan : bool).

Definition handleScan (event : ScanEvent) (st : Barcode) : Barcode :=
  {| lastScan := Some event;
     scanHistory := slice0 maxHistory (event :: scanHistory st);
     onScan_calls := if onScan then onScan_calls st ++ [event]
                     else onScan_calls st |}.

Definition clearHistory (st : Barcode) : Barcode :=
  {| lastScan := None; scanHistory := []; onScan_calls := onScan_calls st |}.

End Barcode.

Arguments Barcode : clear implicits.

(** The fields of an [RfidEvent] that [handleRfid] reads. *)
Record RfidEvent : Type := mkRfidEvent {
  epc : string;
  rssi : Z;
  antenna : Z
}.

(** [RfidTag]; the dates are instants in milliseconds. *)
Record RfidTag : Type := mkRfidTag {
  tag_epc : string;
  tag_rssi : Z;
  tag_antenna : Z;
  readCount : Z;
  firstSeen : Z;
  lastSeen : Z
}.

(** The refs [lastRead] and [tags] of [useRfid]; [tags] is a [Map], kept
    in insertion order. *)
Record Rfid : Type := mkRfid {
  lastRead : option RfidEvent;
  tags : list (string * RfidTag);
  onRead_calls : list RfidEvent
}.

(** [handleRfid(event)]; [now] is what [new Date()] returns. *)
Definition handleRfid (onRead : bool) (now : Z) (event : RfidEvent)
    (st : Rfid) : Rfid :=
  let newTags :=
    match Transport.map_get (epc event) (tags st) with
    | Some existing =>
        Transport.map_set (epc event)
          {| tag_epc := tag_epc existing; tag_rssi := rssi event;
             tag_antenna := antenna event;
             readCount := readCount existing + 1;
             firstSeen := firstSeen existing; lastSeen := now |}
          (tags st)
    | None =>
        Transport.map_set (epc event)
          {| tag_epc := epc event; tag_rssi := rssi event;
             tag_antenna := antenna event; readCount := 1;
             firstSeen := now; lastSeen := now |}
          (tags st)
    end in
  {| lastRead := Some event; tags := newTags;
     onRead_calls := if onRead then onRead_calls st ++ [event]
                     else onRead_calls st |}.

Definition clearTags (st : Rfid) : Rfid :=
  {| lastRead := None; tags := []; onRead_calls := onRead_calls st |}.

(** The reads of a sequence, each with the instant it is handled at. *)
Definition handleReads (onRead : bool) (reads : list (Z * RfidEvent))
    (st : Rfid) : Rfid :=
  foldl (λ st x, handleRfid onRead x.1 x.2 st) st reads.

(** What the reads of a sequence that carry the EPC [e] make of its tag. *)
Definition tag_of (e : string) (reads : list (Z * RfidEvent))
  : option RfidTag :=
  match filter (λ x, epc x.2 = e) reads with
  | [] => None
  | first :: rest =>
      let latest := List.last rest first in
      Some {| tag_epc := e; tag_rssi := rssi latest.2;
              tag_antenna := antenna latest.2;
              readCount := Z.of_nat (length (first :: rest));
              firstSeen := first.1; lastSeen := latest.1 |}
  end.

End Bindings.

(** ** Sample states *)

(** A manager with the default options, before and after a first
    [connect()], and after the socket of that call has opened. *)
Definition fresh_manager : Transport.state :=
  Transport.new_manager Transport.DEFAULT_WS_OPTIONS.

Definition connecting_manager : Transport.state :=
  (Transport.connect None fresh_manager).2.

Definition connected_manager : Transport.state :=
  default connecting_manager (Transport.sock_open 0 connecting_manager).

(** A response that arrives after its request has gone. *)
Definition late_response : Transport.ServerMessage :=
  Transport.Response "late" true (Some Transport.Undefined) "".

(** An emitter with two subscribers and a [once] subscriber on [message];
    the application function 1 throws. *)
Definition sample_emitter : Events.EventEmitter :=
  Events.once "message" 3
    (Events.on "message" (Events.User 2)
       (Events.on "message" (Events.User 1) Events.empty_emitter)).

Definition sample_throws (f : nat) (d : string) : bool := Nat.eqb f 1.

(** Application functions that call no method of the emitter while they
    run. *)
Definition sample_acts (f : nat) (d : string) (e : Events.EventEmitter)
  : list Events.action := [].

(** Application functions of which function 1, while it runs, unsubscribes
    function 2 from [message] and subscribes function 4 to it; and an
    emitter with the functions 1, 2 and 3 subscribed to [message]. *)
Definition meddling_acts (f : nat) (d : string) (e : Events.EventEmitter)
  : list Events.action :=
  if Nat.eqb f 1
  then [Events.CallOff "message" 2; Events.CallOn "message" 4]
  else [].

Definition three_subscribers : Events.EventEmitter :=
  Events.on "message" (Events.User 3)
    (Events.on "message" (Events.User 2)
       (Events.on "message" (Events.User 1) Events.empty_emitter)).

Definition no_throws (f : nat) (d : string) : bool := false.

(** A connected manager with three requests outstanding. *)
Definition busy_manager : Transport.state :=
  default connected_manager
    (Transport.run
       [Transport.CallRequest Transport.status "a" 10000;
        Transport.CallRequest Transport.config "b" 10000;
        Transport.CallRequest Transport.rfid_tags "c" 10000]
       connected_manager).


(** A facade built without auto-connect; the same after [connect()] and
    the open of its socket, when it has asked for the capabilities; and
    the same after the answer has come. *)
Definition fresh_edge : Client.CleverenceEdge :=
  Client.new_edge
    {| Client.url := "ws://localhost:8585"; Client.autoConnect := false;
       Client.reconnectDelay := 1000; Client.maxReconnectDelay := 30000;
       Client.pingInterval := 30000 |}.

Definition open_edge : Client.CleverenceEdge :=
  let e := (Client.connect None "" fresh_edge).2 in
  default e (Client.occurs (Transport.SockOpen 0) "q0" e).

Definition informed_edge : Client.CleverenceEdge :=
  default open_edge
    (Client.occurs
       (Transport.SockMessage 0
          (Some (Transport.Response "q0" true
                   (Some (Transport.Json "zebra")) "")))
       "" open_edge).


(** A manager that has lost its first connection, and one that has
    called [disconnect()] and then [connect()] while the socket of the
    first connection is still closing. *)
Definition lost_manager : Transport.state :=
  default connected_manager (Transport.sock_close 0 connected_manager).

Definition redialled_manager : Transport.state :=
  default fresh_manager
    (Transport.run
       [Transport.CallConnect None; Transport.SockOpen 0;
        Transport.CallDisconnect; Transport.CallConnect None]
       fresh_manager).

(** The first connection is lost and a retry is scheduled; the
    application calls [connect()] itself and the new socket opens while
    the retry timer is still armed. Then the timer fires and the new
    socket closes. *)
Definition overtaken_manager : Transport.state :=
  default fresh_manager
    (Transport.run
       [Transport.CallConnect None; Transport.SockOpen 0;
        Transport.SockClose 0; Transport.CallConnect None;
        Transport.SockOpen 1]
       fresh_manager).

Definition skewed_manager : Transport.state :=
  default overtaken_manager
    (Transport.run [Transport.ReconnectTimer None; Transport.SockClose 1]
       overtaken_manager).

(** What can follow a [disconnect()] of the facade before the next
    [connect()]: the closing socket reports an error and closes, and the
    application asks in vain. *)
Definition facade_aftermath : list Client.action :=
  [Client.Occurs (Transport.SockError 0) "";
   Client.Occurs (Transport.SockClose 0) "";
   Client.Calls Client.GetStatus "q2"].

(** The facade after [connect()], before its socket opens, and what
    happens to a facade up to the open of that socket. *)
Definition connecting_edge : Client.CleverenceEdge :=
  (Client.connect None "" fresh_edge).2.

Definition first_session : list Client.action :=
  [Client.Calls (Client.Connect None) "";
   Client.Occurs (Transport.SockOpen 0) "q0"].

(** A connected manager, and a connected facade, whose peer has started
    the closing handshake: the socket is closing and its [close] event is
    still to come. *)
Definition closing_manager : Transport.state :=
  default connected_manager (Transport.sock_closing 0 connected_manager).

Definition closing_session : list Client.action :=
  first_session ++ [Client.Occurs (Transport.SockClosing 0) ""].

Definition closing_edge : Client.CleverenceEdge :=
  default open_edge (Client.occurs (Transport.SockClosing 0) "" open_edge).

(** A scan that arrives from the service, and two reads of one tag
    followed by a read of another. *)
Definition sample_scan : Transport.DeviceEvent :=
  {| Transport.ev_type := "scan";
     Transport.ev_timestamp := Transport.Text "2024-05-01T10:00:00Z";
     Transport.ev_fields := "012345678905" |}.

Definition sample_reads : list (Z * Bindings.RfidEvent) :=
  [(100%Z, Bindings.mkRfidEvent "E1" (-40) 1);
   (200%Z, Bindings.mkRfidEvent "E2" (-52) 2);
   (300%Z, Bindings.mkRfidEvent "E1" (-45) 2)].


(** * Properties *)

(** ** The notification primitive *)

Section EmitterProperties.

Import Events.

Context {payload : Type}.
Variable acts : nat → payload → EventEmitter → list action.
Variable throws : nat → payload → bool.

Lemma filter_all {A : Type} (P : A → Prop) `{∀ x, Decision (P x)}
    (l : list A) :
  (∀ x, x ∈ l → P x) → filter P l = l.
Proof.
  induction l as [|x l IH]; intros Hall; [done|].
  rewrite filter_cons_True by (apply Hall; left).
  rewrite IH; [done|]. intros y Hy. apply Hall. by right.
Qed.

Lemma filter_ext_elem {A : Type} (P Q : A → Prop)
    `{∀ x, Decision (P x)} `{∀ x, Decision (Q x)} (l : list A) :
  (∀ x, x ∈ l → P x ↔ Q x) → filter P l = filter Q l.
Proof.
  induction l as [|x l IH]; intros Hall; [done|].
  assert (Hl : filter P l = filter Q l).
  { apply IH. intros y Hy. apply Hall. by right. }
  assert (Hx : x ∈ x :: l) by by left.
  destruct (Hall x Hx) as [HPQ HQP].
  destruct (decide (P x)) as [HP|HP].
  - rewrite (filter_cons_True P), (filter_cons_True Q) by auto.
    by rewrite Hl.
  - by rewrite (filter_cons_False P), (filter_cons_False Q) by auto.
Qed.

Lemma filter_none {A : Type} (P : A → Prop) `{∀ x, Decision (P x)}
    (l : list A) :
  (∀ x, x ∈ l → ¬ P x) → filter P l = [].
Proof.
  induction l as [|x l IH]; intros Hall; [done|].
  rewrite filter_cons_False by (apply Hall; left).
  apply IH. intros y Hy. apply Hall. by right.
Qed.

Lemma registered_off (ev ev' : string) (h : handler) (e : EventEmitter) :
  registered ev' (off ev h e) =
  if decide (ev' = ev) then set_delete h (registered ev' e)
  else registered ev' e.
Proof.
  unfold off, registered.
  destruct (handlers e !! ev) as [hs|] eqn:Hev; simpl.
  - destruct (decide (ev' = ev)) as [->|Hne].
    + by rewrite lookup_insert_eq, Hev.
    + by rewrite lookup_insert_ne.
  - destruct (decide (ev' = ev)) as [->|Hne]; [|done].
    by rewrite Hev.
Qed.

Lemma registered_on (ev ev' : string) (h : handler) (e : EventEmitter) :
  registered ev' (on ev h e) =
  if decide (ev' = ev) then set_add h (registered ev' e)
  else registered ev' e.
Proof.
  unfold on, registered at 1; simpl.
  destruct (decide (ev' = ev)) as [->|Hne].
  - by rewrite lookup_insert_eq.
  - by rewrite lookup_insert_ne.
Qed.

Lemma registered_once (ev ev' : string) (f : nat) (e : EventEmitter) :
  registered ev' (once ev f e) =
  if decide (ev' = ev)
  then set_add (OnceHandler (closures e) ev f) (registered ev' e)
  else registered ev' e.
Proof. unfold once. by rewrite registered_on. Qed.

Lemma registered_removeAllListeners (o : option string) (ev' : string)
    (e : EventEmitter) :
  registered ev' (removeAllListeners o e) =
  if decide (o = None ∨ o = Some "" ∨ o = Some ev') then []
  else registered ev' e.
Proof.
  destruct (decide (o = None ∨ o = Some "" ∨ o = Some ev')) as [Hd|Hd];
    unfold removeAllListeners, registered.
  - destruct o as [x|]; [|simpl; by rewrite lookup_empty].
    case_decide; simpl; [by rewrite lookup_empty|].
    destruct Hd as [?|[[=]|[= ->]]]; try done.
    by rewrite lookup_delete_eq.
  - destruct o as [x|]; [|exfalso; apply Hd; by left].
    rewrite decide_False by (intros ->; apply Hd; right; by left). simpl.
    rewrite lookup_delete_ne; [done|].
    intros ->. apply Hd. right. by right.
Qed.

Lemma elem_of_set_delete (h x : handler) (hs : list handler) :
  x ∈ set_delete h hs ↔ x ∈ hs ∧ x ≠ h.
Proof. unfold set_delete. rewrite list_elem_of_filter. tauto. Qed.

Lemma elem_of_set_add (h x : handler) (hs : list handler) :
  x ∈ set_add h hs ↔ x = h ∨ x ∈ hs.
Proof.
  unfold set_add. case_decide as Hin.
  - split; [by right|]. by intros [->|?].
  - rewrite elem_of_app, list_elem_of_singleton. tauto.
Qed.

Lemma set_delete_absent (h : handler) (hs : list handler) :
  h ∉ hs → set_delete h hs = hs.
Proof.
  intros Hh. unfold set_delete. induction hs as [|x hs IH]; [done|].
  rewrite filter_cons_True by (intros ->; apply Hh; by left).
  rewrite IH; [done|]. intros Hin. apply Hh. by right.
Qed.

(** [on], [off], [once] and [removeAllListeners] keep the representation
    invariant. *)
Lemma wf_empty : wf empty_emitter.
Proof. intros ev hs H. simpl in H. by rewrite lookup_empty in H. Qed.

Lemma wf_registered (e : EventEmitter) (ev : string) :
  wf e →
  NoDup (registered ev e) ∧
  ∀ c ev' f, OnceHandler c ev' f ∈ registered ev e →
             ev' = ev ∧ c < closures e.
Proof.
  intros Hwf. unfold registered.
  destruct (handlers e !! ev) as [hs|] eqn:Hev; simpl.
  - by apply Hwf.
  - split; [constructor|]. by intros c ev' f ?%elem_of_nil.
Qed.

Lemma wf_off (ev : string) (h : handler) (e : EventEmitter) :
  wf e → wf (off ev h e).
Proof.
  intros Hwf. unfold off.
  destruct (handlers e !! ev) as [hs|] eqn:Hev; [|done].
  intros ev' hs'. simpl. destruct (Hwf ev hs Hev) as [Hnd Hc].
  destruct (decide (ev' = ev)) as [->|Hne].
  - rewrite lookup_insert_eq. intros [= <-]. split.
    + by apply NoDup_filter.
    + intros c ev' f [Hin _]%elem_of_set_delete. by apply (Hc c ev' f).
  - rewrite lookup_insert_ne by done. apply Hwf.
Qed.

Lemma wf_once (ev : string) (f : nat) (e : EventEmitter) :
  wf e → wf (once ev f e).
Proof.
  intros Hwf ev' hs'. unfold once, on, registered. simpl.
  destruct (decide (ev' = ev)) as [->|Hne].
  - rewrite lookup_insert_eq. intros [= <-].
    destruct (wf_registered e ev Hwf) as [Hnd Hc].
    fold (registered ev e). unfold set_add.
    case_decide as Hin.
    + split; [done|]. intros c ev' f' Hx.
      destruct (Hc c ev' f' Hx). split; [done|lia].
    + split.
      * apply NoDup_app. split_and!; [done| |apply NoDup_singleton].
        intros x Hx ->%list_elem_of_singleton. done.
      * intros c ev' f' [Hx|Hx]%elem_of_app.
        -- destruct (Hc c ev' f' Hx). split; [done|lia].
        -- apply list_elem_of_singleton in Hx. inversion Hx; subst.
           split; [done|lia].
  - rewrite lookup_insert_ne by done. intros Hev'.
    destruct (Hwf ev' hs' Hev') as [Hnd Hc]. split; [done|].
    intros c ev'' f' Hx. destruct (Hc c ev'' f' Hx). split; [done|lia].
Qed.

Lemma wf_on_user (ev : string) (f : nat) (e : EventEmitter) :
  wf e → wf (on ev (User f) e).
Proof.
  intros Hwf ev' hs'. unfold on. simpl.
  destruct (decide (ev' = ev)) as [->|Hne].
  - rewrite lookup_insert_eq. intros [= <-].
    destruct (wf_registered e ev Hwf) as [Hnd Hc]. unfold set_add.
    case_decide as Hin; [done|]. split.
    + apply NoDup_app. split_and!; [done| |apply NoDup_singleton].
      intros x Hx ->%list_elem_of_singleton. done.
    + intros c ev' f' [Hx|Hx]%elem_of_app; [by apply (Hc c ev' f')|].
      by apply list_elem_of_singleton in Hx.
  - rewrite lookup_insert_ne by done. apply Hwf.
Qed.

Lemma wf_removeAllListeners (ev : option string) (e : EventEmitter) :
  wf e → wf (removeAllListeners ev e).
Proof.
  intros Hwf ev' hs. unfold removeAllListeners.
  destruct ev as [ev|]; [case_decide|]; simpl.
  - by rewrite lookup_empty.
  - intros [_ Hhs]%lookup_delete_Some. by apply Hwf.
  - by rewrite lookup_empty.
Qed.

Lemma once_registered (ev : string) (f : nat) (e : EventEmitter) :
  wf e →
  registered ev (once ev f e) =
  registered ev e ++ [OnceHandler (closures e) ev f].
Proof.
  intros Hwf. rewrite registered_once, decide_True by done.
  unfold set_add. rewrite decide_False; [done|]. intros Hin.
  apply (wf_registered e ev Hwf) in Hin as [_ Hlt]. lia.
Qed.

Lemma closures_off (ev : string) (h : handler) (e : EventEmitter) :
  closures (off ev h e) = closures e.
Proof. unfold off. by case_match. Qed.

Lemma closures_removeAllListeners (o : option string) (e : EventEmitter) :
  closures (removeAllListeners o e) = closures e.
Proof. unfold removeAllListeners. by repeat case_match. Qed.

(** *** The walk of a publication *)

Lemma unsubscribe_ok (ev ev' : string) (h : handler) (w : walk) :
  walk_ok ev w → walk_ok ev (unsubscribe ev ev' h w).
Proof.
  intros (Hwf & Hnd & Hc & Hsub). unfold walk_ok, unsubscribe. simpl.
  split_and!.
  - by apply wf_off.
  - case_decide; [by apply NoDup_filter|done].
  - intros c ev0 f Hin. rewrite closures_off. apply (Hc c ev0 f).
    case_decide; [|done]. by apply elem_of_set_delete in Hin as [? _].
  - intros Hlive x Hx. rewrite registered_off.
    destruct (decide (ev = ev')) as [<-|Hne].
    + rewrite decide_True in Hx by done.
      apply elem_of_set_delete in Hx as [Hx Hxh].
      apply elem_of_set_delete. split; [by apply Hsub|done].
    + rewrite decide_False in Hx by (intros [_ ->]; done).
      by apply Hsub.
Qed.

Lemma subscribe_todo (ev ev' : string) (h : handler) (now : EventEmitter)
    (w : walk) (x : handler) :
  x ∈ todo (subscribe ev ev' h now w) →
  x ∈ todo w ∨
  (x = h ∧ live w = true ∧ ev' = ev ∧ h ∉ registered ev (emitter w)).
Proof.
  unfold subscribe. simpl. case_decide as Hc; [|by left].
  intros [?| ->%list_elem_of_singleton]%elem_of_app; [by left|].
  right. tauto.
Qed.

Lemma subscribe_NoDup (ev ev' : string) (h : handler) (now : EventEmitter)
    (w : walk) :
  walk_ok ev w → NoDup (todo (subscribe ev ev' h now w)).
Proof.
  intros (_ & Hnd & _ & Hsub). unfold subscribe. simpl.
  case_decide as Hc; [|done]. destruct Hc as (Hlive & _ & Hh).
  apply NoDup_app. split_and!; [done| |apply NoDup_singleton].
  intros x Hx ->%list_elem_of_singleton. apply Hh. by apply Hsub.
Qed.

Lemma perform_ok (ev : string) (a : action) (w : walk) :
  walk_ok ev w → walk_ok ev (perform ev a w).
Proof.
  intros Hok. pose proof Hok as (Hwf & Hnd & Hc & Hsub).
  destruct a as [ev' f|ev' f|ev' f|o]; simpl.
  - split_and!; simpl.
    + by apply wf_on_user.
    + by apply (subscribe_NoDup ev ev' (User f) (on ev' (User f) (emitter w))).
    + intros c ev0 f0
        [Hin|(Heq & _)]%(subscribe_todo ev ev' (User f)
                           (on ev' (User f) (emitter w)) w);
        [by apply (Hc c ev0 f0)|done].
    + intros Hlive x
        [Hin|(-> & _ & -> & _)]%(subscribe_todo ev ev' (User f)
                                   (on ev' (User f) (emitter w)) w);
        rewrite registered_on.
      * case_decide; [|by apply Hsub].
        apply elem_of_set_add. right. by apply Hsub.
      * rewrite decide_True by done. apply elem_of_set_add. by left.
  - by apply unsubscribe_ok.
  - split_and!; simpl.
    + by apply wf_once.
    + by apply (subscribe_NoDup ev ev'
                  (OnceHandler (closures (emitter w)) ev' f)
                  (once ev' f (emitter w))).
    + intros c ev0 f0
        [Hin|(Heq & _ & -> & _)]%(subscribe_todo ev ev'
                           (OnceHandler (closures (emitter w)) ev' f)
                           (once ev' f (emitter w)) w).
      * destruct (Hc c ev0 f0 Hin). split; [done|]. unfold once. simpl. lia.
      * injection Heq as -> -> ->. split; [done|]. unfold once. simpl. lia.
    + intros Hlive x
        [Hin|(-> & _ & -> & _)]%(subscribe_todo ev ev'
                           (OnceHandler (closures (emitter w)) ev' f)
                           (once ev' f (emitter w)) w);
        rewrite registered_once.
      * case_decide; [|by apply Hsub].
        apply elem_of_set_add. right. by apply Hsub.
      * rewrite decide_True by done. apply elem_of_set_add. by left.
  - split_and!; simpl.
    + by apply wf_removeAllListeners.
    + done.
    + intros c ev0 f0 Hin. rewrite closures_removeAllListeners.
      by apply (Hc c ev0 f0).
    + case_decide as Hd; [done|]. intros Hlive x Hx.
      rewrite registered_removeAllListeners, decide_False by done.
      by apply Hsub.
Qed.

Lemma performs_ok (ev : string) (l : list action) (w : walk) :
  walk_ok ev w → walk_ok ev (foldl (λ w a, perform ev a w) w l).
Proof.
  revert w. induction l as [|a l IH]; intros w Hok; simpl; [done|].
  by apply IH, perform_ok.
Qed.

Lemma call_ok (ev : string) (h : handler) (d : payload) (w : walk) :
  walk_ok ev w → walk_ok ev (call acts throws ev h d w).1.
Proof.
  intros Hok. unfold call. simpl. apply performs_ok.
  destruct h as [f|c ev' f]; [done|]. by apply unsubscribe_ok.
Qed.

Lemma pop_ok (ev : string) (e : EventEmitter) (h : handler)
    (rest : list handler) (l : bool) :
  walk_ok ev (mkWalk e (h :: rest) l) → walk_ok ev (mkWalk e rest l).
Proof.
  intros (Hwf & Hnd & Hc & Hsub). unfold walk_ok. simpl in *.
  apply NoDup_cons in Hnd as [_ Hnd]. split_and!; [done|done| |].
  - intros c ev' f Hin. apply (Hc c ev' f). by right.
  - intros Hl x Hx. apply Hsub; [done|by right].
Qed.

Lemma emit_walk_ok (ev : string) (e : EventEmitter) :
  wf e → walk_ok ev (mkWalk e (registered ev e) true).
Proof.
  intros Hwf. destruct (wf_registered e ev Hwf) as [Hnd Hc].
  by split_and!.
Qed.

Lemma forEach_nil (fuel : nat) (ev : string) (d : payload)
    (e : EventEmitter) (b : bool) :
  forEach acts throws fuel ev d (mkWalk e [] b) = Some (e, []).
Proof. by destruct fuel. Qed.

Lemma forEach_out_of_fuel (ev : string) (d : payload) (e : EventEmitter)
    (h : handler) (rest : list handler) (b : bool) :
  forEach acts throws 0 ev d (mkWalk e (h :: rest) b) = None.
Proof. done. Qed.

Lemma forEach_cons (fuel : nat) (ev : string) (d : payload)
    (e : EventEmitter) (h : handler) (rest : list handler) (b : bool) :
  forEach acts throws (S fuel) ev d (mkWalk e (h :: rest) b) =
  match forEach acts throws fuel ev d
          (call acts throws ev h d (mkWalk e rest b)).1 with
  | Some (e2, effs) =>
      Some (e2,
            Invoked h d ::
            (if throws (callee h) d then [ConsoleError ev h] else []) ++ effs)
  | None => None
  end.
Proof. done. Qed.

Lemma emit_forEach (fuel : nat) (ev : string) (d : payload)
    (e : EventEmitter) :
  emit acts throws fuel ev d e =
  forEach acts throws fuel ev d (mkWalk e (registered ev e) true).
Proof.
  unfold emit, registered. destruct (handlers e !! ev); simpl; [done|].
  by rewrite forEach_nil.
Qed.

Lemma forEach_wf (fuel : nat) (ev : string) (d : payload) (w : walk)
    (e' : EventEmitter) (effs : list effect) :
  walk_ok ev w → forEach acts throws fuel ev d w = Some (e', effs) → wf e'.
Proof.
  revert w e' effs.
  induction fuel as [|fuel IH]; intros [e [|h rest] b] e' effs Hok;
    rewrite ?forEach_nil, ?forEach_out_of_fuel, ?forEach_cons;
    try done; try (intros [= <- _]; apply Hok).
  pose proof (call_ok ev h d _ (pop_ok ev e h rest b Hok)) as Hok1.
  destruct (forEach acts throws fuel ev d
              (call acts throws ev h d (mkWalk e rest b)).1)
    as [[e2 effs2]|] eqn:Hf; [|done].
  intros [= <- _]. by apply (IH _ e2 effs2 Hok1).
Qed.

Lemma invocations_app (l1 l2 : list (@effect payload)) :
  invocations (l1 ++ l2) = invocations l1 ++ invocations l2.
Proof.
  induction l1 as [|[h d|ev h] l1 IH]; simpl; [done| |done].
  by rewrite IH.
Qed.

Lemma invocations_call (ev : string) (h : handler) (d : payload)
    (threw : bool) (effs : list (@effect payload)) :
  invocations
    (Invoked h d :: (if threw then [ConsoleError ev h] else []) ++ effs) =
  (h, d) :: invocations effs.
Proof. by destruct threw. Qed.

(** *** The closures of [once] during a walk *)

(** The application cannot name a closure of [once]: its calls leave a
    closure that waits for its turn waiting. *)
Lemma perform_keeps_once (ev : string) (a : action) (w : walk)
    (h : handler) :
  is_once h = true → h ∈ todo w → h ∈ todo (perform ev a w).
Proof.
  intros Ho Hin. destruct a as [ev' f|ev' f|ev' f|o]; simpl; try done.
  - case_decide; [|done]. apply elem_of_app. by left.
  - case_decide; [|done]. apply elem_of_set_delete. split; [done|].
    by intros ->.
  - case_decide; [|done]. apply elem_of_app. by left.
Qed.

Lemma call_keeps_once (ev : string) (h0 h : handler) (d : payload)
    (w : walk) :
  is_once h = true → h ≠ h0 → h ∈ todo w →
  h ∈ todo (call acts throws ev h0 d w).1.
Proof.
  intros Ho Hne Hin. unfold call. simpl.
  set (w0 := match h0 with
             | User _ => w
             | OnceHandler _ ev' _ => unsubscribe ev ev' h0 w
             end).
  assert (H0 : h ∈ todo w0).
  { unfold w0. destruct h0 as [f|c ev' f]; [done|]. simpl.
    case_decide; [|done]. by apply elem_of_set_delete. }
  generalize (acts (callee h0) d (emitter w0)). intros l.
  revert H0. generalize w0. clear w0 Hin.
  induction l as [|a l IH]; intros w0 H0; simpl; [done|].
  by apply IH, perform_keeps_once.
Qed.

(** A closure that is in no set and whose turn is not to come stays so:
    the closures [once] makes later are others. *)
Lemma perform_gone (ev : string) (a : action) (w : walk)
    (c : nat) (ev0 : string) (f : nat) :
  c < closures (emitter w) → gone (OnceHandler c ev0 f) w →
  c < closures (emitter (perform ev a w)) ∧
  gone (OnceHandler c ev0 f) (perform ev a w).
Proof.
  intros Hc [Htodo Hreg].
  destruct a as [ev' f'|ev' f'|ev' f'|o]; simpl.
  - split; [done|]. split; simpl.
    + case_decide; [|done].
      intros [?|?%list_elem_of_singleton]%elem_of_app; done.
    + intros ev1. rewrite registered_on. case_decide; [|apply Hreg].
      intros [?|?]%elem_of_set_add; [done|]. by apply (Hreg ev1).
  - rewrite closures_off. split; [done|]. split; simpl.
    + case_decide; [|done]. by intros [? _]%elem_of_set_delete.
    + intros ev1. rewrite registered_off. case_decide; [|apply Hreg].
      intros [? _]%elem_of_set_delete. by apply (Hreg ev1).
  - split; [unfold once; simpl; lia|]. split; simpl.
    + case_decide; [|done].
      intros [?|Heq%list_elem_of_singleton]%elem_of_app; [done|].
      injection Heq as -> _ _. lia.
    + intros ev1. rewrite registered_once. case_decide; [|apply Hreg].
      intros [Heq|?]%elem_of_set_add; [|by apply (Hreg ev1)].
      injection Heq as -> _ _. lia.
  - rewrite closures_removeAllListeners. split; [done|]. split; simpl.
    + done.
    + intros ev1. rewrite registered_removeAllListeners.
      case_decide; [by intros ?%elem_of_nil|apply Hreg].
Qed.

Lemma performs_gone (ev : string) (l : list action) (w : walk)
    (c : nat) (ev0 : string) (f : nat) :
  c < closures (emitter w) → gone (OnceHandler c ev0 f) w →
  c < closures (emitter (foldl (λ w a, perform ev a w) w l)) ∧
  gone (OnceHandler c ev0 f) (foldl (λ w a, perform ev a w) w l).
Proof.
  revert w. induction l as [|a l IH]; intros w Hc Hg; simpl; [done|].
  destruct (perform_gone ev a w c ev0 f Hc Hg) as [Hc' Hg'].
  by apply IH.
Qed.

Lemma unsubscribe_gone (ev ev' : string) (h0 : handler) (w : walk)
    (h : handler) :
  gone h w → gone h (unsubscribe ev ev' h0 w).
Proof.
  intros [Htodo Hreg]. split; simpl.
  - case_decide; [|done]. by intros [? _]%elem_of_set_delete.
  - intros ev1. rewrite registered_off. case_decide; [|apply Hreg].
    intros [? _]%elem_of_set_delete. by apply (Hreg ev1).
Qed.

Lemma call_gone (ev : string) (h0 : handler) (d : payload) (w : walk)
    (c : nat) (ev0 : string) (f : nat) :
  c < closures (emitter w) → gone (OnceHandler c ev0 f) w →
  c < closures (emitter (call acts throws ev h0 d w).1) ∧
  gone (OnceHandler c ev0 f) (call acts throws ev h0 d w).1.
Proof.
  intros Hc Hg. unfold call. simpl. apply performs_gone.
  - destruct h0 as [f0|c0 ev' f0]; [done|]. simpl. by rewrite closures_off.
  - destruct h0 as [f0|c0 ev' f0]; [done|]. by apply unsubscribe_gone.
Qed.

Lemma forEach_gone (fuel : nat) (ev : string) (d : payload) (w : walk)
    (c : nat) (ev0 : string) (f : nat) (e' : EventEmitter)
    (effs : list effect) :
  c < closures (emitter w) → gone (OnceHandler c ev0 f) w →
  forEach acts throws fuel ev d w = Some (e', effs) →
  (∀ x, (OnceHandler c ev0 f, x) ∉ invocations effs) ∧
  (∀ ev', OnceHandler c ev0 f ∉ registered ev' e') ∧
  c < closures e'.
Proof.
  revert w e' effs.
  induction fuel as [|fuel IH]; intros [e [|h rest] b] e' effs Hc Hg;
    rewrite ?forEach_nil, ?forEach_out_of_fuel, ?forEach_cons;
    try done;
    try (intros [= <- <-]; split_and!;
         [by intros x ?%elem_of_nil|apply Hg|done]).
  assert (Hne : h ≠ OnceHandler c ev0 f).
  { intros ->. apply (proj1 Hg). by left. }
  assert (Hg0 : gone (OnceHandler c ev0 f) (mkWalk e rest b)).
  { split; [|apply Hg]. intros Hin. apply (proj1 Hg). by right. }
  destruct (call_gone ev h d (mkWalk e rest b) c ev0 f Hc Hg0) as [Hc1 Hg1].
  destruct (forEach acts throws fuel ev d
              (call acts throws ev h d (mkWalk e rest b)).1)
    as [[e2 effs2]|] eqn:Hf; [|done].
  intros [= <- <-].
  destruct (IH _ e2 effs2 Hc1 Hg1 Hf) as (Hinv & Hreg & Hcl).
  split_and!; [|done|done].
  intros x. rewrite invocations_call. intros [Heq|Hin]%elem_of_cons.
  - by injection Heq as <- _.
  - by apply (Hinv x).
Qed.

(** A closure of [once] that waits for its turn is called, once, and is
    in no set when the walk is over. *)
Lemma forEach_once (fuel : nat) (ev : string) (d : payload) (w : walk)
    (c : nat) (ev0 : string) (f : nat) (e' : EventEmitter)
    (effs : list effect) :
  walk_ok ev w → OnceHandler c ev0 f ∈ todo w →
  forEach acts throws fuel ev d w = Some (e', effs) →
  filter (λ x, x.1 = OnceHandler c ev0 f) (invocations effs) =
    [(OnceHandler c ev0 f, d)] ∧
  (∀ ev', OnceHandler c ev0 f ∉ registered ev' e') ∧
  c < closures e'.
Proof.
  revert w e' effs.
  induction fuel as [|fuel IH]; intros [e [|h rest] b] e' effs Hok Hin;
    rewrite ?forEach_nil, ?forEach_out_of_fuel, ?forEach_cons;
    try done; try (by apply elem_of_nil in Hin).
  pose proof Hok as (Hwf & Hnd & Hc & Hsub). simpl in Hwf, Hnd, Hc, Hsub.
  apply NoDup_cons in Hnd as [Hh Hnd].
  pose proof (pop_ok ev e h rest b Hok) as Hok0.
  pose proof (call_ok ev h d _ Hok0) as Hok1.
  destruct (decide (h = OnceHandler c ev0 f)) as [->|Hne].
  - destruct (Hc c ev0 f) as [-> Hlt]; [by left|].
    assert (Hg : gone (OnceHandler c ev f)
                   (unsubscribe ev ev (OnceHandler c ev f)
                      (mkWalk e rest b))).
    { split; simpl.
      - case_decide; [|done]. by intros [? _]%elem_of_set_delete.
      - intros ev1. rewrite registered_off.
        destruct (decide (ev1 = ev)) as [->|Hev1].
        + by intros [_ ?]%elem_of_set_delete.
        + intros Hx. by apply (wf_registered e ev1 Hwf) in Hx as [? _]. }
    assert (Hg1 : c < closures
                        (emitter (call acts throws ev (OnceHandler c ev f) d
                                    (mkWalk e rest b)).1) ∧
                  gone (OnceHandler c ev f)
                    (call acts throws ev (OnceHandler c ev f) d
                       (mkWalk e rest b)).1).
    { unfold call. simpl. apply performs_gone; [|done].
      simpl. by rewrite closures_off. }
    destruct Hg1 as [Hc1 Hg1].
    destruct (forEach acts throws fuel ev d
                (call acts throws ev (OnceHandler c ev f) d
                   (mkWalk e rest b)).1)
      as [[e2 effs2]|] eqn:Hf; [|done].
    intros [= <- <-].
    destruct (forEach_gone fuel ev d _ c ev f e2 effs2 Hc1 Hg1 Hf)
      as (Hinv & Hreg & Hcl).
    split_and!; [|done|done].
    rewrite invocations_call, filter_cons_True by done. f_equal.
    apply filter_none. intros [h' x] Hx Heq. simpl in Heq. subst h'.
    by apply (Hinv x).
  - assert (Hin' : OnceHandler c ev0 f ∈ rest).
    { apply elem_of_cons in Hin as [Heq|?]; [by subst|done]. }
    pose proof (call_keeps_once ev h (OnceHandler c ev0 f) d
                  (mkWalk e rest b) eq_refl) as Hkeep.
    assert (Hin1 : OnceHandler c ev0 f ∈
                   todo (call acts throws ev h d (mkWalk e rest b)).1)
      by (apply Hkeep; [by intros <-|done]).
    destruct (forEach acts throws fuel ev d
                (call acts throws ev h d (mkWalk e rest b)).1)
      as [[e2 effs2]|] eqn:Hf; [|done].
    intros [= <- <-].
    destruct (IH _ e2 effs2 Hok1 Hin1 Hf) as (Hinv & Hreg & Hcl).
    split_and!; [|done|done].
    rewrite invocations_call, filter_cons_False; [done|].
    simpl. intros Heq. by apply Hne.
Qed.

(** *** Handlers that leave the handlers of the event alone *)

Lemma perform_untouched (ev : string) (a : action) (w : walk) :
  touches ev a = false →
  todo (perform ev a w) = todo w ∧ live (perform ev a w) = live w ∧
  registered ev (emitter (perform ev a w)) = registered ev (emitter w).
Proof.
  intros Ht. destruct a as [ev' f|ev' f|ev' f|o]; simpl in *;
    apply bool_decide_eq_false in Ht.
  - rewrite decide_False by (intros (_ & ? & _); done).
    by rewrite registered_on, decide_False by done.
  - rewrite decide_False by (intros (_ & ?); done).
    by rewrite registered_off, decide_False by done.
  - rewrite decide_False by (intros (_ & ? & _); done).
    by rewrite registered_once, decide_False by done.
  - rewrite decide_False by done.
    by rewrite registered_removeAllListeners, decide_False by done.
Qed.

Lemma performs_untouched (ev : string) (l : list action) (w : walk) :
  (∀ a, a ∈ l → touches ev a = false) →
  let w' := foldl (λ w a, perform ev a w) w l in
  todo w' = todo w ∧ live w' = live w ∧
  registered ev (emitter w') = registered ev (emitter w).
Proof.
  revert w. induction l as [|a l IH]; intros w Hall; simpl; [done|].
  destruct (perform_untouched ev a w) as (Ht & Hl & Hr);
    [apply Hall; by left|].
  destruct (IH (perform ev a w)) as (Ht' & Hl' & Hr');
    [intros x Hx; apply Hall; by right|].
  simpl in *. by rewrite Ht', Hl', Hr'.
Qed.

Lemma call_quiet (ev : string) (h : handler) (d : payload)
    (e : EventEmitter) (rest : list handler) :
  quiet acts ev d h → h ∉ rest →
  (∀ c ev' f, h = OnceHandler c ev' f → ev' = ev) →
  let w1 := (call acts throws ev h d (mkWalk e rest true)).1 in
  todo w1 = rest ∧ live w1 = true ∧
  registered ev (emitter w1) =
    (if is_once h then set_delete h (registered ev e)
     else registered ev e).
Proof.
  intros Hq Hh Hev. unfold call. simpl.
  set (w0 := match h with
             | User _ => mkWalk e rest true
             | OnceHandler _ ev' _ => unsubscribe ev ev' h (mkWalk e rest true)
             end).
  destruct (performs_untouched ev (acts (callee h) d (emitter w0)) w0)
    as (Ht & Hl & Hr); [intros a Ha; by apply (Hq (emitter w0))|].
  rewrite Ht, Hl, Hr. unfold w0.
  destruct h as [f|c ev' f]; simpl; [done|].
  assert (ev' = ev) as -> by by apply (Hev c ev' f).
  rewrite decide_True by done.
  rewrite set_delete_absent by done.
  by rewrite registered_off, decide_True.
Qed.

(** What one publication does for the handler [h]. *)
Definition effects_of (ev : string) (d : payload) (h : handler)
  : list effect :=
  Invoked h d ::
  (if throws (callee h) d then [ConsoleError ev h] else []).

Lemma invocations_effects (ev : string) (d : payload) (hs : list handler) :
  invocations (flat_map (effects_of ev d) hs) = (λ h, (h, d)) <$> hs.
Proof.
  induction hs as [|h hs IH]; simpl; [done|].
  rewrite invocations_app, IH. by destruct (throws (callee h) d).
Qed.

(** With such handlers the walk visits the handlers there were when it
    began, each once and in order, and takes as many calls as there are
    handlers; the closures of [once] among them are gone afterwards. *)
Lemma forEach_quiet (l : list handler) (fuel : nat) (ev : string)
    (d : payload) (e : EventEmitter) :
  walk_ok ev (mkWalk e l true) →
  (∀ h, h ∈ l → quiet acts ev d h) → (length l ≤ fuel)%nat →
  ∃ e', forEach acts throws fuel ev d (mkWalk e l true) =
          Some (e', flat_map (effects_of ev d) l) ∧
        registered ev e' =
          filter (λ x, ¬ (is_once x = true ∧ x ∈ l)) (registered ev e).
Proof.
  revert fuel e. induction l as [|h rest IH]; intros fuel e Hok Hq Hlen.
  { exists e. rewrite forEach_nil. split; [done|].
    symmetry. apply filter_all. intros x _ [_ Hx]. by apply elem_of_nil in Hx. }
  destruct fuel as [|fuel]; [simpl in Hlen; lia|].
  pose proof Hok as (Hwf & Hnd & Hc & Hsub). simpl in Hwf, Hnd, Hc, Hsub.
  apply NoDup_cons in Hnd as [Hh Hnd].
  pose proof (call_ok ev h d _ (pop_ok ev e h rest true Hok)) as Hok1.
  destruct (call_quiet ev h d e rest) as (Ht & Hl & Hr).
  { apply Hq. by left. }
  { done. }
  { intros c ev' f ->. apply (Hc c ev' f). by left. }
  rewrite forEach_cons.
  destruct (call acts throws ev h d (mkWalk e rest true)).1
    as [e1 l1 b1].
  simpl in Ht, Hl, Hr. subst l1 b1.
  destruct (IH fuel e1 Hok1) as (e' & Hf & Hreg).
  { intros x Hx. apply Hq. by right. }
  { simpl in Hlen. lia. }
  exists e'. rewrite Hf. split; [done|].
  rewrite Hreg, Hr. destruct (is_once h) eqn:Ho.
  - unfold set_delete. rewrite list_filter_filter.
    apply filter_ext_elem. intros x _. split.
    + intros [Hx Hne] [Ho' [->|Hin]%elem_of_cons]; [done|]. by apply Hx.
    + intros Hx. split.
      * intros [Ho' Hin]. apply Hx. split; [done|by right].
      * intros ->. apply Hx. split; [done|by left].
  - apply filter_ext_elem. intros x _. split.
    + intros Hx [Ho' [->|Hin]%elem_of_cons]; [congruence|]. by apply Hx.
    + intros Hx [Ho' Hin]. apply Hx. split; [done|by right].
Qed.

Lemma emit_quiet (fuel : nat) (ev : string) (d : payload)
    (e : EventEmitter) :
  wf e → (∀ h, h ∈ registered ev e → quiet acts ev d h) →
  (length (registered ev e) ≤ fuel)%nat →
  ∃ e', emit acts throws fuel ev d e =
          Some (e', flat_map (effects_of ev d) (registered ev e)) ∧
        registered ev e' =
          filter (λ h, is_once h = false) (registered ev e) ∧
        wf e'.
Proof.
  intros Hwf Hq Hlen. rewrite emit_forEach.
  destruct (forEach_quiet (registered ev e) fuel ev d e
              (emit_walk_ok ev e Hwf) Hq Hlen) as (e' & Hf & Hreg).
  exists e'. split_and!; [done| |].
  - rewrite Hreg. apply filter_ext_elem. intros x Hx. split.
    + intros Hn. destruct (is_once x) eqn:Ho; [|done]. by destruct Hn.
    + intros Ho [Ho' _]. congruence.
  - by apply (forEach_wf fuel ev d _ e'
                (flat_map (effects_of ev d) (registered ev e))
                (emit_walk_ok ev e Hwf)).
Qed.

Lemma emit_once (fuel : nat) (ev : string) (d : payload) (e e' : EventEmitter)
    (effs : list effect) (c : nat) (ev0 : string) (f : nat) :
  wf e → OnceHandler c ev0 f ∈ registered ev e →
  emit acts throws fuel ev d e = Some (e', effs) →
  filter (λ x, x.1 = OnceHandler c ev0 f) (invocations effs) =
    [(OnceHandler c ev0 f, d)] ∧
  (∀ ev', OnceHandler c ev0 f ∉ registered ev' e') ∧
  c < closures e' ∧ wf e'.
Proof.
  intros Hwf Hin. rewrite emit_forEach. intros Hf.
  destruct (forEach_once fuel ev d _ c ev0 f e' effs
              (emit_walk_ok ev e Hwf) Hin Hf) as (H1 & H2 & H3).
  split_and!; try done.
  by apply (forEach_wf fuel ev d _ e' effs (emit_walk_ok ev e Hwf)).
Qed.

Lemma emit_gone (fuel : nat) (ev : string) (d : payload) (e e' : EventEmitter)
    (effs : list effect) (c : nat) (ev0 : string) (f : nat) :
  c < closures e → (∀ ev', OnceHandler c ev0 f ∉ registered ev' e) →
  emit acts throws fuel ev d e = Some (e', effs) →
  ∀ x, (OnceHandler c ev0 f, x) ∉ invocations effs.
Proof.
  intros Hc Hreg. rewrite emit_forEach. intros Hf.
  apply (forEach_gone fuel ev d (mkWalk e (registered ev e) true)
           c ev0 f e' effs Hc); [|done].
  split; [apply Hreg|apply Hreg].
Qed.

(** C6. For every event name, every set of registered handlers that
    leave the handlers of that event alone while they are called, and
    every payload, [emit] returns after as many calls as there are
    handlers, and has called every registered handler exactly once, in
    registration order and with that payload; when a handler throws, the
    exception is caught and logged on the console, and the handlers
    registered after it are still called. *)
Theorem emit_calls_every_handler_in_order
    (e : EventEmitter) (ev : string) (d : payload) (fuel : nat) :
  wf e → (∀ h, h ∈ registered ev e → quiet acts ev d h) →
  (length (registered ev e) ≤ fuel)%nat →
  ∃ e' effs,
    emit acts throws fuel ev d e = Some (e', effs) ∧
    effs = flat_map (effects_of ev d) (registered ev e) ∧
    invocations effs = (λ h, (h, d)) <$> registered ev e ∧
    NoDup (invocations effs) ∧
    (∀ h, h ∈ registered ev e → throws (callee h) d = true →
          ConsoleError ev h ∈ effs).
Proof.
  intros Hwf Hq Hlen.
  destruct (wf_registered e ev Hwf) as [Hnd _].
  destruct (emit_quiet fuel ev d e Hwf Hq Hlen) as (e' & Hemit & _).
  exists e', (flat_map (effects_of ev d) (registered ev e)).
  split_and!; [done|done| | |].
  - apply invocations_effects.
  - rewrite invocations_effects.
    apply NoDup_fmap_2; [|done].
    by intros h1 h2 [= ->].
  - intros h Hin Hthrows.
    apply list_elem_of_In, in_flat_map. exists h. split.
    + by apply list_elem_of_In.
    + unfold effects_of. rewrite Hthrows. right. by left.
Qed.

(** C8. A closure made by [once] and registered for an event, wherever
    it stands among the handlers of the event and whatever the handlers
    do while they are called, is called once by the first publication of
    the event that returns and is in no set afterwards, so that no later
    publication calls it; whether the handler throws in its call makes
    no difference. [once] registers such a closure, and the publication
    returns when the handlers leave the handlers of the event alone. *)
Theorem once_unsubscribes_after_first_emit
    (e : EventEmitter) (ev : string) (c f : nat) (d : payload) :
  wf e → OnceHandler c ev f ∈ registered ev e →
  let h := OnceHandler c ev f in
  (∀ fuel e1 effs1,
     emit acts throws fuel ev d e = Some (e1, effs1) →
     filter (λ x, x.1 = h) (invocations effs1) = [(h, d)] ∧
     (h ∉ registered ev e1) ∧
     ∀ fuel' ev' d' e2 effs2,
       emit acts throws fuel' ev' d' e1 = Some (e2, effs2) →
       (∀ x, (h, x) ∉ invocations effs2) ∧ (h ∉ registered ev e2)) ∧
  ((∀ h', h' ∈ registered ev e → quiet acts ev d h') →
   ∀ fuel, (length (registered ev e) ≤ fuel)%nat →
           is_Some (emit acts throws fuel ev d e)) ∧
  (∀ e0 f0, wf e0 →
     OnceHandler (closures e0) ev f0 ∈ registered ev (once ev f0 e0)).
Proof.
  intros Hwf Hin h. split_and!.
  - intros fuel e1 effs1 Hemit.
    destruct (emit_once fuel ev d e e1 effs1 c ev f Hwf Hin Hemit)
      as (Hcalled & Hreg & Hc & Hwf1).
    split_and!; [done|apply Hreg|].
    intros fuel' ev' d' e2 effs2 Hemit2. split.
    + by apply (emit_gone fuel' ev' d' e1 e2 effs2 c ev f Hc Hreg).
    + rewrite emit_forEach in Hemit2.
      apply (forEach_gone fuel' ev' d' (mkWalk e1 (registered ev' e1) true)
               c ev f e2 effs2 Hc); [|done].
      split; apply Hreg.
  - intros Hq fuel Hlen.
    destruct (emit_quiet fuel ev d e Hwf Hq Hlen) as (e' & -> & _).
    by eexists.
  - intros e0 f0 Hwf0. rewrite once_registered by done.
    apply elem_of_app. right. by apply list_elem_of_singleton.
Qed.

End EmitterProperties.

Lemma sample_emitter_wf : Events.wf sample_emitter.
Proof.
  apply wf_once, wf_on_user, wf_on_user, wf_empty.
Qed.

Lemma sample_acts_quiet (ev d : string) (h : Events.handler) :
  Events.quiet sample_acts ev d h.
Proof. intros e a Ha. by apply elem_of_nil in Ha. Qed.

Lemma emit_calls_every_handler_in_order_witness :
  Events.wf sample_emitter ∧
  (∀ h, h ∈ Events.registered "message" sample_emitter →
        Events.quiet sample_acts "message" "hello" h) ∧
  (length (Events.registered "message" sample_emitter) ≤ 3)%nat ∧
  ∃ e' effs,
    Events.emit sample_acts sample_throws 3 "message" "hello" sample_emitter
      = Some (e', effs) ∧
    Events.invocations effs =
      (λ h, (h, "hello")) <$> Events.registered "message" sample_emitter.
Proof.
  assert (Hq : ∀ h, h ∈ Events.registered "message" sample_emitter →
                    Events.quiet sample_acts "message" "hello" h).
  { intros h _. apply sample_acts_quiet. }
  assert (Hlen : (length (Events.registered "message" sample_emitter) ≤ 3)%nat)
    by (by vm_compute).
  split_and!; [exact sample_emitter_wf|exact Hq|exact Hlen|].
  destruct (emit_calls_every_handler_in_order sample_acts sample_throws
              sample_emitter "message" "hello" 3 sample_emitter_wf Hq Hlen)
    as (e' & effs & Hemit & _ & Hinv & _).
  exists e', effs. split; [exact Hemit|exact Hinv].
Defined.

(** With handlers that subscribe and unsubscribe while they are called,
    the handlers called are not the handlers registered: function 2 is
    registered when the publication starts and is not called, function 4
    is not registered and is called. *)
Lemma handler_unsubscribed_during_emit_is_skipped :
  Events.wf three_subscribers ∧
  Events.registered "message" three_subscribers =
    [Events.User 1; Events.User 2; Events.User 3] ∧
  (prod_map id Events.invocations <$>
     Events.emit meddling_acts no_throws 3 "message" "hello"
       three_subscribers) =
  Some (Events.on "message" (Events.User 4)
          (Events.off "message" (Events.User 2) three_subscribers),
        [(Events.User 1, "hello"); (Events.User 3, "hello");
         (Events.User 4, "hello")]).
Proof.
  split; [apply wf_on_user, wf_on_user, wf_on_user, wf_empty|].
  by vm_compute.
Qed.

Lemma once_unsubscribes_after_first_emit_witness :
  Events.wf (Events.once "message" 4 three_subscribers) ∧
  Events.OnceHandler 0 "message" 4 ∈
    Events.registered "message" (Events.once "message" 4 three_subscribers) ∧
  ∃ e1 effs1,
    Events.emit meddling_acts no_throws 4 "message" "hello"
      (Events.once "message" 4 three_subscribers) = Some (e1, effs1) ∧
    filter (λ x, x.1 = Events.OnceHandler 0 "message" 4)
      (Events.invocations effs1) =
      [(Events.OnceHandler 0 "message" 4, "hello")] ∧
    Events.OnceHandler 0 "message" 4 ∉ Events.registered "message" e1.
Proof.
  assert (Hwf : Events.wf (Events.once "message" 4 three_subscribers)).
  { apply wf_once, wf_on_user, wf_on_user, wf_on_user, wf_empty. }
  assert (Hin : Events.OnceHandler 0 "message" 4 ∈
    Events.registered "message" (Events.once "message" 4 three_subscribers)).
  { apply (bool_decide_unpack _). by vm_compute. }
  assert (Hrun : ∃ e1 effs1,
    Events.emit meddling_acts no_throws 4 "message" "hello"
      (Events.once "message" 4 three_subscribers) = Some (e1, effs1))
    by (vm_compute; by eexists _, _).
  split_and!; [exact Hwf|exact Hin|].
  destruct Hrun as (e1 & effs1 & Hemit). exists e1, effs1.
  destruct (once_unsubscribes_after_first_emit meddling_acts no_throws
              (Events.once "message" 4 three_subscribers) "message" 0 4
              "hello" Hwf Hin) as (Hfirst & _).
  destruct (Hfirst 4 e1 effs1 Hemit) as (Hcalled & Hout & _).
  split_and!; [exact Hemit|exact Hcalled|exact Hout].
Defined.

(** ** The transport *)

Section TransportProperties.

Import Transport.

(** *** Tables *)

Lemma lookup_snoc_eq {A : Type} (l : list A) (x : A) :
  (l ++ [x]) !! length l = Some x.
Proof. by apply list_lookup_middle. Qed.

Lemma insert_snoc_eq {A : Type} (l : list A) (x y : A) :
  <[length l := y]> (l ++ [x]) = l ++ [y].
Proof.
  rewrite insert_app_r_alt by lia. by rewrite Nat.sub_diag.
Qed.

Lemma map_get_set_fresh {V : Type} (k : string) (v : V)
    (m : list (string * V)) :
  map_get k m = None → map_set k v m = m ++ [(k, v)].
Proof.
  induction m as [|[k' w] m IH]; simpl; [done|].
  case_decide; [done|]. intros Hm. by rewrite IH.
Qed.

Lemma map_delete_fresh {V : Type} (k : string) (m : list (string * V)) :
  map_get k m = None → map_delete k m = m.
Proof.
  unfold map_delete.
  induction m as [|[k' w] m IH]; simpl; [done|].
  case_decide; [done|]. intros Hm.
  rewrite filter_cons_True by done. by rewrite IH.
Qed.

(** Registering a fresh key and deleting it again restores the [Map]. *)
Lemma map_delete_set_fresh {V : Type} (k : string) (v : V)
    (m : list (string * V)) :
  map_get k m = None → map_delete k (map_set k v m) = m.
Proof.
  intros Hm. rewrite map_get_set_fresh by done. unfold map_delete.
  rewrite filter_app, filter_cons_False, filter_nil, app_nil_r.
  - by apply map_delete_fresh.
  - simpl. by intros H.
Qed.

Lemma map_get_delete {V : Type} (k : string) (m : list (string * V)) :
  map_get k (map_delete k m) = None.
Proof.
  unfold map_delete.
  induction m as [|[k' w] m IH]; simpl; [done|].
  destruct (decide (k' = k)) as [->|Hne].
  - by rewrite filter_cons_False by (simpl; by intros H).
  - rewrite filter_cons_True by done. simpl. by rewrite decide_False.
Qed.

(** *** Promises *)

Lemma settle_this (p : nat) (o : promise) (s : state) :
  this (settle p o s) = this s.
Proof. unfold settle. by repeat case_match. Qed.

Lemma settle_promises (p q : nat) (o : promise) (s : state) :
  promises (rt (settle p o s)) !! q =
  if decide (q = p ∧ promises (rt s) !! p = Some Pending)
  then Some o else promises (rt s) !! q.
Proof.
  unfold settle.
  destruct (promises (rt s) !! p) as [[| |]|] eqn:Hp; simpl;
    try (by rewrite decide_False by (intros [_ [=]])).
  destruct (decide (q = p)) as [->|Hne].
  - rewrite decide_True by done.
    apply list_lookup_insert_eq. by apply lookup_lt_Some in Hp.
  - rewrite decide_False by tauto. by apply list_lookup_insert_ne.
Qed.

Lemma settle_sockets (p : nat) (o : promise) (s : state) :
  sockets (rt (settle p o s)) = sockets (rt s).
Proof. unfold settle. by repeat case_match. Qed.

Lemma settle_timeouts (p : nat) (o : promise) (s : state) :
  timeouts (rt (settle p o s)) = timeouts (rt s).
Proof. unfold settle. by repeat case_match. Qed.

Lemma settle_timer_count (p : nat) (o : promise) (s : state) :
  timer_count (rt (settle p o s)) = timer_count (rt s).
Proof. unfold settle. by repeat case_match. Qed.

Lemma settle_emitted (p : nat) (o : promise) (s : state) :
  emitted (rt (settle p o s)) = emitted (rt s).
Proof. unfold settle. by repeat case_match. Qed.

Lemma settle_sent (p : nat) (o : promise) (s : state) :
  sent (rt (settle p o s)) = sent (rt s).
Proof. unfold settle. by repeat case_match. Qed.

Lemma settle_console (p : nat) (o : promise) (s : state) :
  console (rt (settle p o s)) = console (rt s).
Proof. unfold settle. by repeat case_match. Qed.

Lemma settle_length (p : nat) (o : promise) (s : state) :
  length (promises (rt (settle p o s))) = length (promises (rt s)).
Proof.
  unfold settle. repeat case_match; simpl; try done.
  by rewrite length_insert.
Qed.

(** A promise that is settled stays as it is. *)
Lemma settle_settled (p q : nat) (o o' : promise) (s : state) :
  promises (rt s) !! q = Some o' → o' ≠ Pending →
  promises (rt (settle p o s)) !! q = Some o'.
Proof.
  intros Hq Hne. rewrite settle_promises. case_decide as H; [|done].
  destruct H as [-> Hp]. congruence.
Qed.

(** *** [send] *)

(** A [send] that throws leaves the state alone, and whether it throws
    depends on the socket only. *)
Lemma send_throws_unchanged (m : ClientMessage) (s : state) (err : string) :
  (send m s).1 = Some err → (send m s).2 = s.
Proof. unfold send. by repeat case_match. Qed.

Lemma send_error (m : ClientMessage) (s : state) (err : string) :
  (send m s).1 = Some err → err = "WebSocket is not connected".
Proof. unfold send. repeat case_match; simpl; congruence. Qed.

Lemma send_depends_on_socket (m : ClientMessage) (s s' : state) :
  ws (this s') = ws (this s) → sockets (rt s') = sockets (rt s) →
  (send m s').1 = (send m s).1.
Proof.
  intros Hws Hsk. unfold send. rewrite Hws, Hsk. by repeat case_match.
Qed.

(** *** [request] *)

(** C9. When the [send] of the query frame throws inside [request], the
    returned promise is rejected with the error of [send], the entry
    registered under the fresh identifier is removed again, so that
    [pendingRequests] is as it was before the call, and the expiry timer
    of the entry is cancelled. *)
Theorem request_send_failure_restores_pending
    (q : query) (id : string) (timeoutMs : Z) (s : state) (err : string) :
  (send (Query id q) s).1 = Some err →
  map_get id (pendingRequests (this s)) = None →
  let p := (request q id timeoutMs s).1 in
  let s' := (request q id timeoutMs s).2 in
  p = length (promises (rt s)) ∧
  promises (rt s') !! p = Some (Rejected err) ∧
  pendingRequests (this s') = pendingRequests (this s) ∧
  this s' = this s ∧
  (∀ c, (timer_count (rt s), c) ∉ timeouts (rt s')) ∧
  (∀ t c, t ≠ timer_count (rt s) →
          (t, c) ∈ timeouts (rt s') ↔ (t, c) ∈ timeouts (rt s)) ∧
  sent (rt s') = sent (rt s).
Proof.
  intros Hsend Hfresh p s'. subst p s'. unfold request.
  destruct s as [m r]. unfold new_promise, setTimeout. simpl in *.
  set (s1 := set_pendingRequests _ _).
  assert (Hs1 : (send (Query id q) s1).1 = Some err).
  { rewrite <- Hsend. by apply send_depends_on_socket. }
  pose proof (send_throws_unchanged _ _ _ Hs1) as Hs2.
  destruct (send (Query id q) s1) as [[e|] s2]; simpl in *; [|done].
  injection Hs1 as ->. subst s2. unfold s1. clear s1.
  unfold reject. split_and!.
  - done.
  - rewrite settle_promises. simpl.
    rewrite decide_True; [done|]. split; [done|]. apply lookup_snoc_eq.
  - rewrite settle_this. simpl. by apply map_delete_set_fresh.
  - rewrite settle_this. destruct m. simpl in *. f_equal.
    by apply map_delete_set_fresh.
  - intros c. rewrite settle_timeouts. simpl.
    rewrite list_elem_of_filter. simpl. tauto.
  - intros t c Hne. rewrite settle_timeouts. simpl.
    rewrite list_elem_of_filter, elem_of_app, list_elem_of_singleton.
    simpl. split; [|tauto]. intros [_ [H|[= -> _]]]; done.
  - by rewrite settle_sent.
Qed.

(** *** [handleMessage] *)

(** C3, as the code has it. A response frame whose identifier matches no
    entry of [pendingRequests] settles no promise, leaves the table, the
    timers and the console alone, and is published to the subscribers as
    a [message] event, as a frame of any other kind is; the subscriber of
    the facade does nothing with it. *)
Theorem unmatched_response_is_forwarded
    (id : string) (success : bool) (result : option value) (err : string)
    (s : state) :
  map_get id (pendingRequests (this s)) = None →
  let m := Response id success result err in
  let s' := handleMessage (Some m) s in
  this s' = this s ∧
  promises (rt s') = promises (rt s) ∧
  timeouts (rt s') = timeouts (rt s) ∧
  console (rt s') = console (rt s) ∧
  emitted (rt s') = emitted (rt s) ++ [EvMessage m] ∧
  (∀ e, Client.handleServerMessage m e = e).
Proof.
  intros Hnone m s'. subst m s'. unfold handleMessage.
  rewrite Hnone. by split_and!.
Qed.

(** *** [connect] *)

Ltac tables :=
  repeat first
    [ rewrite lookup_snoc_eq
    | rewrite insert_snoc_eq
    | rewrite lookup_app_l by (rewrite ?length_app; simpl; lia)
    | rewrite insert_app_l by (rewrite ?length_app; simpl; lia) ].

Lemma connect_when_connected (ctor : option string) (s : state) :
  _state (this s) = connected ∨ _state (this s) = connecting →
  connect ctor s =
  (length (promises (rt s)),
   set_promises (promises (rt s) ++ [Resolved Undefined]) s).
Proof.
  intros Hst. unfold connect, new_promise. simpl.
  rewrite decide_True by done. unfold resolve, settle. simpl.
  by tables.
Qed.

Lemma connect_opens_socket (s : state) :
  _state (this s) ≠ connected → _state (this s) ≠ connecting →
  connect None s =
  (length (promises (rt s)),
   set_ws (Some (length (sockets (rt s))))
     (set_sockets
        (sockets (rt s) ++
         [mkSocket CONNECTING (length (promises (rt s))) true true])
        (emit (EvStatechange connecting)
           (set__state connecting
              (set_intentionalClose false
                 (set_promises (promises (rt s) ++ [Pending]) s)))))).
Proof.
  intros H1 H2. unfold connect, new_promise. simpl.
  rewrite decide_False by tauto. unfold setState. simpl.
  by rewrite decide_False by done.
Qed.


(** *** What the methods do to the fields of the manager *)

Lemma setState_this (st : ConnectionState) (s : state) :
  this (setState st s) = this (set__state st s).
Proof.
  unfold setState. case_decide as Heq; [|done].
  destruct s as [[] r]. simpl in *. by subst.
Qed.

Lemma setState_emitted (st : ConnectionState) (s : state) :
  emitted (rt (setState st s)) =
  emitted (rt s) ++
  (if decide (_state (this s) = st) then [] else [EvStatechange st]).
Proof.
  unfold setState. case_decide; simpl; [|done]. by rewrite app_nil_r.
Qed.

Lemma setState_rt (st : ConnectionState) (s : state) :
  sockets (rt (setState st s)) = sockets (rt s) ∧
  promises (rt (setState st s)) = promises (rt s) ∧
  timeouts (rt (setState st s)) = timeouts (rt s) ∧
  sent (rt (setState st s)) = sent (rt s).
Proof. unfold setState. by case_decide. Qed.

Lemma clearTimeout_this (t : nat) (s : state) :
  this (clearTimeout t s) = this s.
Proof. done. Qed.

Lemma reject_all_this (ps : list (string * PendingRequest)) (s : state) :
  this (reject_all ps s) = this s.
Proof.
  revert s. induction ps as [|[id pending] ps IH]; intros s; simpl; [done|].
  rewrite IH. unfold reject. by rewrite settle_this.
Qed.

Lemma reject_all_sockets (ps : list (string * PendingRequest)) (s : state) :
  sockets (rt (reject_all ps s)) = sockets (rt s).
Proof.
  revert s. induction ps as [|[id pending] ps IH]; intros s; simpl; [done|].
  rewrite IH. unfold reject. by rewrite settle_sockets.
Qed.

Lemma reject_all_emitted (ps : list (string * PendingRequest)) (s : state) :
  emitted (rt (reject_all ps s)) = emitted (rt s).
Proof.
  revert s. induction ps as [|[id pending] ps IH]; intros s; simpl; [done|].
  rewrite IH. unfold reject. by rewrite settle_emitted.
Qed.

Lemma reject_all_sent (ps : list (string * PendingRequest)) (s : state) :
  sent (rt (reject_all ps s)) = sent (rt s).
Proof.
  revert s. induction ps as [|[id pending] ps IH]; intros s; simpl; [done|].
  rewrite IH. unfold reject. by rewrite settle_sent.
Qed.

Lemma socket_close_this (i : nat) (s : state) :
  this (socket_close i s) = this s.
Proof. unfold socket_close. by case_match. Qed.

Lemma socket_close_emitted (i : nat) (s : state) :
  emitted (rt (socket_close i s)) = emitted (rt s).
Proof. unfold socket_close. by case_match. Qed.

(** [cleanup] leaves no timer, no pending request and no socket behind,
    and touches no other field. *)
Lemma cleanup_this (s : state) :
  this (cleanup s) =
  {| ws := None; options := options (this s); _state := _state (this s);
     reconnectAttempts := reconnectAttempts (this s);
     reconnectTimer := None; pingTimer := None; pendingRequests := [];
     intentionalClose := intentionalClose (this s) |}.
Proof.
  unfold cleanup, stopPing. destruct s as [[w o st n t pt pr ic] r].
  destruct pt, t, w; simpl; rewrite ?reject_all_this; simpl;
    repeat case_match; rewrite ?socket_close_this; simpl;
    rewrite ?reject_all_this; done.
Qed.

Lemma cleanup_emitted (s : state) :
  emitted (rt (cleanup s)) = emitted (rt s).
Proof.
  unfold cleanup, stopPing. destruct s as [[w o st n t pt pr ic] r].
  destruct pt, t, w; simpl; rewrite ?reject_all_this; simpl;
    repeat case_match; rewrite ?socket_close_emitted; simpl;
    rewrite ?reject_all_emitted; done.
Qed.

Lemma scheduleReconnect_this (s : state) :
  reconnectTimer (this s) = None →
  this (scheduleReconnect s) =
  {| ws := ws (this s); options := options (this s);
     _state := reconnecting;
     reconnectAttempts := reconnectAttempts (this s);
     reconnectTimer :=
       Some (backoff (options (this s)) (reconnectAttempts (this s)));
     pingTimer := pingTimer (this s);
     pendingRequests := pendingRequests (this s);
     intentionalClose := intentionalClose (this s) |}.
Proof.
  intros Ht. unfold scheduleReconnect. rewrite Ht. simpl.
  by rewrite !setState_this.
Qed.

(** The close of a socket that [disconnect] did not ask for. *)
Lemma handleClose_unintended (s : state) :
  intentionalClose (this s) = false →
  this (handleClose s) =
  {| ws := None; options := options (this s);
     _state := if reconnect (options (this s))
               then reconnecting else disconnected;
     reconnectAttempts := reconnectAttempts (this s);
     reconnectTimer :=
       if reconnect (options (this s))
       then Some (backoff (options (this s)) (reconnectAttempts (this s)))
       else None;
     pingTimer := None; pendingRequests := [];
     intentionalClose := false |}.
Proof.
  intros Hic. unfold handleClose.
  pose proof (cleanup_this s) as Hc. rewrite Hic in Hc.
  rewrite Hc. simpl. rewrite Hc. simpl.
  destruct (reconnect (options (this s))).
  - rewrite scheduleReconnect_this; simpl; by rewrite Hc.
  - rewrite setState_this. simpl. by rewrite Hc.
Qed.

Lemma handleClose_intended (s : state) :
  intentionalClose (this s) = true →
  this (handleClose s) =
  {| ws := None; options := options (this s); _state := disconnected;
     reconnectAttempts := reconnectAttempts (this s);
     reconnectTimer := None; pingTimer := None; pendingRequests := [];
     intentionalClose := true |}.
Proof.
  intros Hic. unfold handleClose.
  pose proof (cleanup_this s) as Hc. rewrite Hic in Hc.
  rewrite Hc. simpl. rewrite setState_this. simpl. by rewrite Hc.
Qed.

Lemma set_readyState_this (i : nat) (r : ReadyState) (s : state) :
  this (set_readyState i r s) = this s.
Proof. unfold set_readyState. by case_match. Qed.

Lemma sock_closing_spec (i : nat) (s s' : state) :
  sock_closing i s = Some s' →
  s' = set_readyState i CLOSING s ∧
  ∃ sk, sockets (rt s) !! i = Some sk ∧ readyState sk = OPEN.
Proof.
  unfold sock_closing.
  destruct (sockets (rt s) !! i) as [sk|] eqn:Hsk; [|done].
  case_decide as Hr; [|done]. intros [= <-]. split; [done|by exists sk].
Qed.

Lemma sock_closing_this (i : nat) (s s' : state) :
  sock_closing i s = Some s' → this s' = this s.
Proof. intros [-> _]%sock_closing_spec. apply set_readyState_this. Qed.

Lemma remove_listener_this (b : bool) (i : nat) (s : state) :
  this (remove_listener b i s) = this s.
Proof. unfold remove_listener. by case_match. Qed.

Lemma remove_via_ws_this (b : bool) (i : nat) (s : state) :
  this (remove_via_ws b i s) = this s.
Proof.
  unfold remove_via_ws. repeat case_match; try done.
  apply remove_listener_this.
Qed.

(** An [error] event changes no field of the manager. *)
Lemma sock_error_this (i : nat) (s s' : state) :
  sock_error i s = Some s' → this s' = this s.
Proof.
  unfold sock_error. repeat case_match; try done; intros [= <-]; simpl.
  - unfold onError_body, reject.
    by rewrite settle_this, remove_via_ws_this, remove_listener_this.
  - done.
Qed.


(** *** Socket events *)

Lemma remove_listener_lookup (b : bool) (i : nat) (s : state)
    (sk : WebSocket) :
  sockets (rt s) !! i = Some sk →
  sockets (rt (remove_listener b i s)) !! i =
  Some (if b
        then mkSocket (readyState sk) (sk_promise sk) false (onError sk)
        else mkSocket (readyState sk) (sk_promise sk) (onOpen sk) false).
Proof.
  intros Hsk. unfold remove_listener. rewrite Hsk. simpl.
  apply list_lookup_insert_eq. by apply lookup_lt_Some in Hsk.
Qed.

Lemma remove_listener_promises (b : bool) (i : nat) (s : state) :
  promises (rt (remove_listener b i s)) = promises (rt s).
Proof. unfold remove_listener. by case_match. Qed.

Lemma remove_listener_length (b : bool) (i : nat) (s : state) :
  length (sockets (rt (remove_listener b i s))) = length (sockets (rt s)).
Proof.
  unfold remove_listener. case_match; [|done]. simpl.
  by rewrite length_insert.
Qed.

Lemma remove_via_ws_promises (b : bool) (i : nat) (s : state) :
  promises (rt (remove_via_ws b i s)) = promises (rt s).
Proof.
  unfold remove_via_ws. repeat case_match; try done.
  apply remove_listener_promises.
Qed.

Lemma remove_via_ws_length (b : bool) (i : nat) (s : state) :
  length (sockets (rt (remove_via_ws b i s))) = length (sockets (rt s)).
Proof.
  unfold remove_via_ws. repeat case_match; try done.
  apply remove_listener_length.
Qed.

(** Removing a listener keeps the ready state of every socket. *)
Lemma remove_via_ws_readyState (b : bool) (i j : nat) (s : state)
    (sk : WebSocket) :
  sockets (rt s) !! j = Some sk →
  ∃ sk', sockets (rt (remove_via_ws b i s)) !! j = Some sk' ∧
         readyState sk' = readyState sk.
Proof.
  intros Hsk. unfold remove_via_ws.
  destruct (ws (this s)) as [k|]; [|by exists sk].
  case_decide as Hk; [subst k|by exists sk].
  destruct (decide (j = i)) as [->|Hne].
  - erewrite remove_listener_lookup by done. eexists. split; [done|].
    by destruct b.
  - exists sk. split; [|done]. unfold remove_listener.
    case_match; [|done]. simpl. by rewrite list_lookup_insert_ne.
Qed.

(** An [error] event is possible on every socket that has not closed;
    it changes no field of the manager and no ready state, and it
    rejects the promise of the [connect] call that made the socket when
    the [onError] listener of that call is still attached. *)
Lemma sock_error_spec (i : nat) (s : state) (sk : WebSocket) :
  sockets (rt s) !! i = Some sk → readyState sk ≠ CLOSED →
  ∃ s', sock_error i s = Some s' ∧ this s' = this s ∧
        (∃ sk', sockets (rt s') !! i = Some sk' ∧
                readyState sk' = readyState sk) ∧
        (onError sk = true →
         promises (rt s) !! sk_promise sk = Some Pending →
         promises (rt s') !! sk_promise sk =
         Some (Rejected "WebSocket connection failed")).
Proof.
  intros Hsk Hrs. unfold sock_error. rewrite Hsk.
  rewrite decide_False by done. eexists. split; [done|].
  destruct (onError sk) eqn:Herr; simpl.
  - unfold onError_body, reject. split_and!.
    + by rewrite settle_this, remove_via_ws_this, remove_listener_this.
    + rewrite settle_sockets.
      pose proof (remove_listener_lookup false i s sk Hsk) as Hl.
      destruct (remove_via_ws_readyState true i i _ _ Hl)
        as (sk' & Hsk' & Hr).
      exists sk'. split; [done|]. by rewrite Hr.
    + intros _ Hp. rewrite settle_promises, decide_True; [done|].
      split; [done|].
      by rewrite remove_via_ws_promises, remove_listener_promises.
  - split_and!; [done|by exists sk|done].
Qed.

Lemma startPing_this (s : state) :
  this (startPing s) =
  this (set_pingTimer (Some (pingInterval (options (this s)))) s).
Proof. unfold startPing, stopPing. by destruct s as [[? ? ? ? ? [] ? ?] ?]. Qed.

Lemma startPing_rt (s : state) : rt (startPing s) = rt s.
Proof. unfold startPing, stopPing. by destruct s as [[? ? ? ? ? [] ? ?] ?]. Qed.

Lemma setState_rt_promises (st : ConnectionState) (s : state) :
  promises (rt (setState st s)) = promises (rt s).
Proof. unfold setState. by case_decide. Qed.

Lemma setState_rt_sockets (st : ConnectionState) (s : state) :
  sockets (rt (setState st s)) = sockets (rt s).
Proof. unfold setState. by case_decide. Qed.

Lemma set_readyState_lookup (i : nat) (r : ReadyState) (s : state)
    (sk : WebSocket) :
  sockets (rt s) !! i = Some sk →
  sockets (rt (set_readyState i r s)) !! i =
  Some (mkSocket r (sk_promise sk) (onOpen sk) (onError sk)).
Proof.
  intros Hsk. unfold set_readyState. rewrite Hsk. simpl.
  apply list_lookup_insert_eq. by apply lookup_lt_Some in Hsk.
Qed.

Lemma set_readyState_promises (i : nat) (r : ReadyState) (s : state) :
  promises (rt (set_readyState i r s)) = promises (rt s).
Proof. unfold set_readyState. by case_match. Qed.

Lemma set_readyState_length (i : nat) (r : ReadyState) (s : state) :
  length (sockets (rt (set_readyState i r s))) = length (sockets (rt s)).
Proof.
  unfold set_readyState. case_match; [|done]. simpl.
  by rewrite length_insert.
Qed.

(** The [open] event of a socket whose [onOpen] listener is attached:
    the counter of reconnects goes back to zero, the state is
    [connected], the keepalive timer is armed, and the promise of the
    [connect] call that made the socket is resolved. *)
Lemma sock_open_spec (i : nat) (s : state) (sk : WebSocket) :
  sockets (rt s) !! i = Some sk → readyState sk = CONNECTING →
  onOpen sk = true →
  ∃ s', sock_open i s = Some s' ∧
        this s' =
        {| ws := ws (this s); options := options (this s);
           _state := connected; reconnectAttempts := 0;
           reconnectTimer := reconnectTimer (this s);
           pingTimer := Some (pingInterval (options (this s)));
           pendingRequests := pendingRequests (this s);
           intentionalClose := intentionalClose (this s) |} ∧
        length (sockets (rt s')) = length (sockets (rt s)) ∧
        (∀ q, promises (rt s') !! q =
              if decide (q = sk_promise sk ∧
                         promises (rt s) !! sk_promise sk = Some Pending)
              then Some (Resolved Undefined) else promises (rt s) !! q).
Proof.
  intros Hsk Hrs Hopen. unfold sock_open. rewrite Hsk, Hopen.
  rewrite decide_True by done. eexists. split; [done|].
  unfold onOpen_body, resolve. split_and!.
  - rewrite settle_this. cbn -[startPing]. rewrite startPing_this.
    cbn -[setState]. rewrite !setState_this. cbn.
    by rewrite remove_via_ws_this, remove_listener_this,
      set_readyState_this.
  - rewrite settle_sockets. cbn -[startPing]. rewrite startPing_rt.
    rewrite setState_rt_sockets. cbn.
    by rewrite remove_via_ws_length, remove_listener_length,
      set_readyState_length.
  - intros q. rewrite settle_promises. cbn -[startPing].
    rewrite startPing_rt, setState_rt_promises. cbn.
    by rewrite remove_via_ws_promises, remove_listener_promises,
      set_readyState_promises.
Qed.

(** The [close] event of a socket when [disconnect] has not been
    called since the last [connect]. *)
Lemma sock_close_unintended (i : nat) (s : state) (sk : WebSocket) :
  sockets (rt s) !! i = Some sk → readyState sk ≠ CLOSED →
  intentionalClose (this s) = false →
  ∃ s', sock_close i s = Some s' ∧
        this s' =
        {| ws := None; options := options (this s);
           _state := if reconnect (options (this s))
                     then reconnecting else disconnected;
           reconnectAttempts := reconnectAttempts (this s);
           reconnectTimer :=
             if reconnect (options (this s))
             then Some (backoff (options (this s))
                          (reconnectAttempts (this s)))
             else None;
           pingTimer := None; pendingRequests := [];
           intentionalClose := false |}.
Proof.
  intros Hsk Hrs Hic. unfold sock_close. rewrite Hsk.
  rewrite decide_False by done. eexists. split; [done|].
  rewrite handleClose_unintended; by rewrite set_readyState_this.
Qed.


(** *** A [connect] that builds a socket *)

Lemma connect_fresh_spec (s : state) :
  _state (this s) ≠ connected → _state (this s) ≠ connecting →
  (connect None s).1 = length (promises (rt s)) ∧
  this (connect None s).2 =
  {| ws := Some (length (sockets (rt s))); options := options (this s);
     _state := connecting;
     reconnectAttempts := reconnectAttempts (this s);
     reconnectTimer := reconnectTimer (this s);
     pingTimer := pingTimer (this s);
     pendingRequests := pendingRequests (this s);
     intentionalClose := false |} ∧
  sockets (rt (connect None s).2) =
  sockets (rt s) ++
  [mkSocket CONNECTING (length (promises (rt s))) true true] ∧
  promises (rt (connect None s).2) = promises (rt s) ++ [Pending].
Proof.
  intros H1 H2. by rewrite connect_opens_socket.
Qed.

(** *** Reconnection *)

(** One failed retry: the counter goes up by one and the next timer is
    armed with the delay of the new counter. *)
Lemma failed_retry_spec (s : state) (d : Z) :
  reconnect (options (this s)) = true →
  reconnectTimer (this s) = Some d →
  _state (this s) ≠ connected → _state (this s) ≠ connecting →
  ∃ s', failed_retry s = Some s' ∧
        this s' =
        {| ws := None; options := options (this s);
           _state := reconnecting;
           reconnectAttempts := S (reconnectAttempts (this s));
           reconnectTimer :=
             Some (backoff (options (this s))
                     (S (reconnectAttempts (this s))));
           pingTimer := None; pendingRequests := [];
           intentionalClose := false |}.
Proof.
  intros Hrec Htimer Hst1 Hst2. unfold failed_retry. cbn [run step].
  unfold fire_reconnect. rewrite Htimer. unfold reconnect_callback.
  set (s0 := set_reconnectAttempts _ (set_reconnectTimer None s)).
  destruct (connect_fresh_spec s0) as (_ & Hthis1 & Hsk1 & _); [done..|].
  set (s1 := (connect None s0).2) in *.
  assert (Hi : sockets (rt s1) !! length (sockets (rt s)) =
               Some (mkSocket CONNECTING (length (promises (rt s0)))
                       true true)).
  { rewrite Hsk1. apply lookup_snoc_eq. }
  destruct (sock_error_spec _ _ _ Hi) as (s2 & -> & Hthis2 & Hsk2 & _);
    [done|].
  destruct Hsk2 as (sk2 & Hsk2 & Hrs2). simpl in Hrs2.
  destruct (sock_close_unintended _ s2 _ Hsk2) as (s3 & -> & Hthis3).
  { by rewrite Hrs2. }
  { by rewrite Hthis2, Hthis1. }
  exists s3. split; [done|].
  rewrite Hthis3, Hthis2, Hthis1. simpl. by rewrite Hrec.
Qed.

Lemma retries_spec (n : nat) (s : state) (d : Z) :
  reconnect (options (this s)) = true →
  reconnectTimer (this s) = Some d →
  _state (this s) = reconnecting →
  ∃ s', retries n s = Some s' ∧
        options (this s') = options (this s) ∧
        _state (this s') = reconnecting ∧
        reconnectAttempts (this s') = n + reconnectAttempts (this s) ∧
        reconnectTimer (this s') =
        (if n is 0 then Some d
         else Some (backoff (options (this s))
                      (n + reconnectAttempts (this s)))).
Proof.
  revert s d. induction n as [|n IH]; intros s d Hrec Htimer Hst.
  - exists s. by split_and!.
  - destruct (failed_retry_spec s d) as (s1 & Hretry & Hthis1);
      [done|done|by rewrite Hst..|].
    destruct (IH s1 (backoff (options (this s))
                       (S (reconnectAttempts (this s)))))
      as (s' & Hrun & Hopts & Hst' & Hn & Ht);
      [by rewrite Hthis1..|].
    exists s'. simpl. rewrite Hretry. split; [done|].
    rewrite Hopts, Hn, Ht, Hthis1. simpl.
    replace (n + S (reconnectAttempts (this s)))
      with (S (n + reconnectAttempts (this s))) by lia.
    split_and!; try done. by destruct n.
Qed.


(** *** [connect] and reconnection against the specification *)

(** C1, as the code has it. In the state [connected] or [connecting],
    [connect()] returns a promise that is resolved at once and changes
    nothing else: no socket is constructed. Of two [connect()] calls made
    while the first is still connecting, the second is resolved at once,
    before the socket has opened, and there is one socket; when that
    socket opens the promise of the first call is resolved too. *)
Theorem connect_is_single_flight (s : state) (ctor : option string) :
  (_state (this s) = connected ∨ _state (this s) = connecting →
   connect ctor s =
   (length (promises (rt s)),
    set_promises (promises (rt s) ++ [Resolved Undefined]) s)) ∧
  (_state (this s) ≠ connected → _state (this s) ≠ connecting →
   let first := connect None s in
   let second := connect ctor first.2 in
   let i := length (sockets (rt s)) in
   sockets (rt second.2) =
     sockets (rt s) ++ [mkSocket CONNECTING first.1 true true] ∧
   ws (this second.2) = Some i ∧
   _state (this second.2) = connecting ∧
   promises (rt second.2) !! first.1 = Some Pending ∧
   promises (rt second.2) !! second.1 = Some (Resolved Undefined) ∧
   ∃ s', sock_open i second.2 = Some s' ∧
         _state (this s') = connected ∧
         length (sockets (rt s')) = S (length (sockets (rt s))) ∧
         promises (rt s') !! first.1 = Some (Resolved Undefined) ∧
         promises (rt s') !! second.1 = Some (Resolved Undefined)).
Proof.
  split; [apply connect_when_connected|].
  intros Hst1 Hst2. cbv zeta.
  rewrite (connect_opens_socket s) by done. cbn [fst snd].
  set (s1 := set_ws _ _).
  rewrite (connect_when_connected ctor s1) by (by right). cbn [fst snd].
  set (s2 := set_promises _ s1).
  assert (Hi : sockets (rt s2) !! length (sockets (rt s)) =
               Some (mkSocket CONNECTING (length (promises (rt s)))
                       true true)).
  { simpl. apply lookup_snoc_eq. }
  destruct (sock_open_spec _ s2 _ Hi) as (s' & Hopen & Hthis' & Hlen & Hpm);
    [done..|].
  assert (Hp1 : promises (rt s2) !! length (promises (rt s)) = Some Pending).
  { simpl. by tables. }
  assert (Hp2 : promises (rt s2) !! length (promises (rt s1)) =
                Some (Resolved Undefined)).
  { simpl. by tables. }
  split_and!; try done.
  exists s'. split; [done|]. rewrite Hthis', Hlen, !Hpm. simpl.
  rewrite length_app. simpl. split_and!; [done|lia| |].
  + by rewrite decide_True.
  + rewrite decide_False by (rewrite length_app; simpl; intros [H _]; lia).
    by tables.
Qed.

(** C2, where the code departs from it. The retry timer armed by the
    loss of a connection stays armed when the application calls
    [connect()] itself: neither [connect] nor the [open] of its socket
    clears it. When it fires after that socket has opened, its callback
    increments the counter, and the [connect()] it makes returns at once
    as the manager is connected. No attempt has failed since the last
    open, and the counter is 1: the delay before the first retry after
    the next loss is 2000 with the default options, not 1000. *)
Theorem stale_retry_timer_skews_backoff :
  run [CallConnect None; SockOpen 0; SockClose 0; CallConnect None;
       SockOpen 1] (new_manager DEFAULT_WS_OPTIONS) =
    Some overtaken_manager ∧
  (_state (this overtaken_manager), reconnectAttempts (this overtaken_manager),
   reconnectTimer (this overtaken_manager)) =
    (connected, 0, Some 1000%Z) ∧
  (s ← step (ReconnectTimer None) overtaken_manager;
   Some (_state (this s), reconnectAttempts (this s),
         reconnectTimer (this s), length (sockets (rt s)))) =
    Some (connected, 1, None, 2) ∧
  run [ReconnectTimer None; SockClose 1] overtaken_manager =
    Some skewed_manager ∧
  (_state (this skewed_manager), reconnectAttempts (this skewed_manager),
   reconnectTimer (this skewed_manager)) =
    (reconnecting, 1, Some 2000%Z) ∧
  backoff DEFAULT_WS_OPTIONS 0 = 1000%Z.
Proof. by vm_compute. Qed.

(** X27. With auto-reconnect enabled and a positive base delay: after a
    [connect()], the open of its socket and the unintended close of that
    socket, followed by [n] failed retries in a row (the timer fires, the
    new socket reports an error and closes) and by nothing else, the
    state is [reconnecting], the counter is [n] and the timer is armed
    with [min(reconnectDelay * 2^n, maxReconnectDelay)]; the callback of
    the timer increments the counter right before it calls [connect];
    the open had put the counter back to zero. With the default base
    1000 and ceiling 30000 the delays are 1000, 2000, 4000, 8000, 16000,
    30000, 30000. *)
Theorem reconnect_backoff (s : state) (n : nat) :
  (0 < reconnectDelay (options (this s)))%Z →
  reconnect (options (this s)) = true →
  _state (this s) ≠ connected → _state (this s) ≠ connecting →
  let i := length (sockets (rt s)) in
  let o := options (this s) in
  (∃ s0 s1 sn,
     sock_open i (connect None s).2 = Some s0 ∧
     _state (this s0) = connected ∧ reconnectAttempts (this s0) = 0 ∧
     sock_close i s0 = Some s1 ∧ retries n s1 = Some sn ∧
     _state (this sn) = reconnecting ∧
     reconnectAttempts (this sn) = n ∧
     reconnectTimer (this sn) =
       Some (Z.min (reconnectDelay o * 2 ^ Z.of_nat n)
               (maxReconnectDelay o)) ∧
     ∀ ctor,
       fire_reconnect ctor sn =
       Some (connect ctor
               (set_reconnectAttempts (S n)
                  (set_reconnectTimer None sn))).2) ∧
  (s1 ← sock_close 0 connected_manager; Some (retry_delays 7 s1)) =
  Some (Some <$> [1000; 2000; 4000; 8000; 16000; 30000; 30000])%Z.
Proof.
  intros _ Hrec Hst1 Hst2 i o. split; [|by vm_compute].
  destruct (connect_fresh_spec s Hst1 Hst2) as (Hp1 & Hthis1 & Hsk1 & Hpm1).
  set (sc := (connect None s).2) in *.
  assert (Hi : sockets (rt sc) !! i =
               Some (mkSocket CONNECTING (length (promises (rt s)))
                       true true)).
  { rewrite Hsk1. apply lookup_snoc_eq. }
  destruct (sock_open_spec i sc _ Hi) as (s0 & Hopen & Hthis0 & Hlen0 & _);
    [done..|].
  assert (Hi0 : ∃ sk0, sockets (rt s0) !! i = Some sk0 ∧
                       readyState sk0 = OPEN).
  { revert Hopen. unfold sock_open. rewrite Hi. simpl.
    intros [= <-]. unfold onOpen_body, resolve.
    rewrite settle_sockets. cbn -[startPing].
    rewrite startPing_rt, setState_rt_sockets. cbn.
    pose proof (set_readyState_lookup i OPEN sc _ Hi) as H1.
    pose proof (remove_listener_lookup true i _ _ H1) as H2.
    destruct (remove_via_ws_readyState false i i _ _ H2) as (sk' & ? & Hr).
    exists sk'. split; [done|]. by rewrite Hr. }
  destruct Hi0 as (sk0 & Hsk0 & Hrs0).
  destruct (sock_close_unintended i s0 sk0 Hsk0) as (s1 & Hclose & Hthis1');
    [by rewrite Hrs0|by rewrite Hthis0, Hthis1|].
  rewrite Hthis0 in Hthis1'. simpl in Hthis1'.
  rewrite Hthis1 in Hthis1'. simpl in Hthis1'. rewrite Hrec in Hthis1'.
  destruct (retries_spec n s1 (backoff (options (this s)) 0))
    as (sn & Hrun & Hopts & Hstn & Hn & Htn); [by rewrite Hthis1'..|].
  rewrite Hthis1' in Hopts, Hn, Htn. simpl in Hopts, Hn, Htn.
  rewrite Nat.add_0_r in Hn, Htn.
  assert (Htimer : reconnectTimer (this sn) = Some (backoff o n)).
  { rewrite Htn. by destruct n. }
  exists s0, s1, sn. rewrite Hthis0. split_and!; try done.
  intros ctor. unfold fire_reconnect. rewrite Htimer.
  unfold reconnect_callback. cbn -[connect]. by rewrite Hn.
Qed.

(** C4, as the code has it. When the socket of a [connect()] made by
    the caller reports an error before it has opened, the promise of the
    call is rejected and the state stays [connecting]; when the socket
    then closes, the manager goes to [reconnecting] and arms the retry
    timer if auto-reconnect is enabled, and goes to [disconnected] with
    no timer if it is disabled. When the constructor of the socket
    throws, the promise is rejected, the state is [disconnected] and no
    timer is armed. *)
Theorem failed_open_follows_reconnect_option (s : state) :
  _state (this s) ≠ connected → _state (this s) ≠ connecting →
  let i := length (sockets (rt s)) in
  let p := (connect None s).1 in
  let s1 := (connect None s).2 in
  _state (this s1) = connecting ∧
  (∃ s2 s3,
     sock_error i s1 = Some s2 ∧
     promises (rt s2) !! p = Some (Rejected "WebSocket connection failed") ∧
     _state (this s2) = connecting ∧
     reconnectTimer (this s2) = reconnectTimer (this s) ∧
     sock_close i s2 = Some s3 ∧
     if reconnect (options (this s))
     then _state (this s3) = reconnecting ∧
          reconnectTimer (this s3) =
          Some (backoff (options (this s)) (reconnectAttempts (this s)))
     else _state (this s3) = disconnected ∧
          reconnectTimer (this s3) = None) ∧
  (∀ msg,
     let s1' := (connect (Some msg) s).2 in
     _state (this s1') = disconnected ∧
     promises (rt s1') !! p = Some (Rejected msg) ∧
     reconnectTimer (this s1') = reconnectTimer (this s)).
Proof.
  intros Hst1 Hst2 i p s1. subst p s1.
  destruct (connect_fresh_spec s Hst1 Hst2) as (Hp1 & Hthis1 & Hsk1 & Hpm1).
  rewrite Hp1. set (s1 := (connect None s).2) in *.
  split_and!.
  - by rewrite Hthis1.
  - assert (Hi : sockets (rt s1) !! i =
                 Some (mkSocket CONNECTING (length (promises (rt s)))
                         true true)).
    { rewrite Hsk1. apply lookup_snoc_eq. }
    destruct (sock_error_spec i s1 _ Hi)
      as (s2 & Herr & Hthis2 & (sk2 & Hsk2 & Hrs2) & Hrej); [done|].
    simpl in Hrs2, Hrej.
    destruct (sock_close_unintended i s2 sk2 Hsk2) as (s3 & Hclose & Hthis3);
      [by rewrite Hrs2|by rewrite Hthis2, Hthis1|].
    exists s2, s3. rewrite Hthis3, Hthis2, Hthis1. simpl.
    split_and!; try done.
    + apply Hrej; [done|]. rewrite Hpm1. apply lookup_snoc_eq.
    + by destruct (reconnect (options (this s))).
  - intros msg s1'. subst s1'. unfold connect, new_promise.
    cbn -[setState reject]. rewrite decide_False by tauto.
    cbn -[setState reject]. unfold reject.
    rewrite settle_this, settle_promises, !setState_this.
    rewrite !setState_rt_promises. cbn.
    split_and!; rewrite ?setState_this; try done.
    rewrite decide_True; [done|]. split; [done|]. apply lookup_snoc_eq.
Qed.


(** *** [cleanup] and [disconnect] *)

Lemma reject_all_keeps_settled (ps : list (string * PendingRequest))
    (s : state) (q : nat) (o : promise) :
  promises (rt s) !! q = Some o → o ≠ Pending →
  promises (rt (reject_all ps s)) !! q = Some o.
Proof.
  revert s. induction ps as [|[id pending] ps IH]; intros s Hq Ho; simpl;
    [done|].
  apply IH; [|done]. unfold reject. by apply settle_settled.
Qed.

(** [cleanup] rejects the promise of every pending request. *)
Lemma reject_all_rejects (ps : list (string * PendingRequest)) (s : state)
    (id : string) (pending : PendingRequest) :
  (id, pending) ∈ ps →
  promises (rt s) !! pr_promise pending = Some Pending →
  promises (rt (reject_all ps s)) !! pr_promise pending =
  Some (Rejected "WebSocket disconnected").
Proof.
  revert s. induction ps as [|[id0 pr0] ps IH]; intros s Hin Hp; simpl.
  - by apply elem_of_nil in Hin.
  - set (s1 := reject _ _ _).
    destruct (decide (pr_promise pr0 = pr_promise pending)) as [Heq|Hne].
    + apply reject_all_keeps_settled; [|done]. unfold s1, reject.
      rewrite settle_promises, Heq, decide_True; done.
    + apply elem_of_cons in Hin as [[= <- <-]|Hin]; [done|].
      apply IH; [done|]. unfold s1, reject.
      rewrite settle_promises, decide_False; [done|].
      intros [? _]. congruence.
Qed.

(** [cleanup] cancels the expiry timer of every pending request, and
    arms none. *)
Lemma reject_all_timeouts (ps : list (string * PendingRequest)) (s : state)
    (t : nat) (c : Timeout) :
  (t, c) ∈ timeouts (rt (reject_all ps s)) →
  (t, c) ∈ timeouts (rt s) ∧
  ∀ id pending, (id, pending) ∈ ps → pr_timeout pending ≠ t.
Proof.
  revert s. induction ps as [|[id0 pr0] ps IH]; intros s; simpl.
  - intros Hin. split; [done|]. by intros id pending ?%elem_of_nil.
  - intros Hin. apply IH in Hin as [Hin Hps]. unfold reject in Hin.
    rewrite settle_timeouts in Hin. simpl in Hin.
    apply list_elem_of_filter in Hin as [Hne Hin]. simpl in Hne.
    split; [done|]. intros id pending [[= -> ->]|Hx]%elem_of_cons; eauto.
Qed.

(** What [reject_all] does to the tables depends on the tables only. *)
Lemma reject_all_rt (ps : list (string * PendingRequest)) (s s' : state) :
  rt s = rt s' → rt (reject_all ps s) = rt (reject_all ps s').
Proof.
  revert s s'. induction ps as [|[id0 pr0] ps IH]; intros s s' Hrt; simpl;
    [done|].
  apply IH. unfold reject, settle, clearTimeout. simpl. rewrite Hrt.
  repeat case_match; simpl; by rewrite Hrt.
Qed.

Lemma socket_close_rt (i : nat) (s : state) :
  promises (rt (socket_close i s)) = promises (rt s) ∧
  timeouts (rt (socket_close i s)) = timeouts (rt s) ∧
  sent (rt (socket_close i s)) = sent (rt s).
Proof. unfold socket_close. by case_match. Qed.

(** The tables after [cleanup]: those after [reject_all], with the
    socket of the manager closing if it was open or connecting. *)
Lemma cleanup_rt (s : state) :
  promises (rt (cleanup s)) =
    promises (rt (reject_all (pendingRequests (this s)) s)) ∧
  timeouts (rt (cleanup s)) =
    timeouts (rt (reject_all (pendingRequests (this s)) s)) ∧
  sent (rt (cleanup s)) = sent (rt s).
Proof.
  unfold cleanup, stopPing.
  set (s1 := match pingTimer (this s) with
             | Some _ => set_pingTimer None s | None => s end).
  set (s2 := match reconnectTimer (this s1) with
             | Some _ => set_reconnectTimer None s1 | None => s1 end).
  assert (Hps : pendingRequests (this s2) = pendingRequests (this s)).
  { unfold s2, s1. by destruct s as [[? ? ? ? [] [] ? ?] ?]. }
  assert (Hrt : rt s2 = rt s).
  { unfold s2, s1. by destruct s as [[? ? ? ? [] [] ? ?] ?]. }
  rewrite Hps. rewrite <- (reject_all_rt _ s2 s Hrt).
  set (s3 := set_pendingRequests [] _).
  assert (H3 : rt s3 = rt (reject_all (pendingRequests (this s)) s2))
    by done.
  assert (Hsent : sent (rt s3) = sent (rt s)).
  { rewrite H3, reject_all_sent. by rewrite Hrt. }
  destruct (ws (this s3)); [|by rewrite <- H3].
  cbn -[socket_close reject_all]. fold s3.
  repeat case_match; rewrite <- ?H3; try done.
  destruct (socket_close_rt n (set_ws None s3)) as (-> & -> & ->).
  done.
Qed.

(** [cleanup] closes the socket of the manager when it is open or
    connecting. *)
Lemma cleanup_closes_socket (s : state) (i : nat) (sk : WebSocket) :
  ws (this s) = Some i → sockets (rt s) !! i = Some sk →
  readyState sk = OPEN ∨ readyState sk = CONNECTING →
  ∃ sk', sockets (rt (cleanup s)) !! i = Some sk' ∧
         readyState sk' = CLOSING.
Proof.
  intros Hws Hsk Hrs. unfold cleanup, stopPing.
  set (s1 := match pingTimer (this s) with
             | Some _ => set_pingTimer None s | None => s end).
  set (s2 := match reconnectTimer (this s1) with
             | Some _ => set_reconnectTimer None s1 | None => s1 end).
  assert (Hws2 : ws (this s2) = Some i).
  { unfold s2, s1. by destruct s as [[? ? ? ? [] [] ? ?] ?]. }
  assert (Hrt : sockets (rt s2) = sockets (rt s)).
  { unfold s2, s1. by destruct s as [[? ? ? ? [] [] ? ?] ?]. }
  set (s3 := set_pendingRequests [] _).
  assert (Hws3 : ws (this s3) = Some i).
  { unfold s3. simpl. by rewrite reject_all_this. }
  assert (Hsk3 : sockets (rt s3) !! i = Some sk).
  { unfold s3. simpl. by rewrite reject_all_sockets, Hrt. }
  rewrite Hws3. cbn -[socket_close reject_all]. fold s3.
  change (sockets (rt (reject_all (pendingRequests (this s2)) s2)))
    with (sockets (rt s3)).
  rewrite Hsk3, decide_True by done. unfold socket_close.
  change (sockets (rt (set_ws None s3))) with (sockets (rt s3)).
  rewrite Hsk3. simpl. eexists. split.
  - apply list_lookup_insert_eq. by apply lookup_lt_Some in Hsk3.
  - done.
Qed.

Lemma disconnect_this (s : state) :
  this (disconnect s) =
  {| ws := None; options := options (this s); _state := disconnected;
     reconnectAttempts := reconnectAttempts (this s);
     reconnectTimer := None; pingTimer := None; pendingRequests := [];
     intentionalClose := true |}.
Proof.
  unfold disconnect. cbn -[setState cleanup].
  by rewrite setState_this; cbn -[cleanup]; rewrite cleanup_this.
Qed.


(** *** Nothing but [connect] wakes a manager at rest *)

Lemma send_this (m : ClientMessage) (s : state) :
  this (send m s).2 = this s.
Proof. unfold send. by repeat case_match. Qed.








(** *** What a step publishes *)

Lemma no_message_refl (s s' : state) :
  emitted (rt s') = emitted (rt s) → no_message_since s s'.
Proof.
  intros H. exists []. rewrite app_nil_r. split; [done|].
  by intros m ?%elem_of_nil.
Qed.

Lemma no_message_trans (s1 s2 s3 : state) :
  no_message_since s1 s2 → no_message_since s2 s3 → no_message_since s1 s3.
Proof.
  intros (l1 & H1 & Hl1) (l2 & H2 & Hl2). exists (l1 ++ l2). split.
  - by rewrite H2, H1, app_assoc.
  - intros m [?|?]%elem_of_app; [by eapply Hl1|by eapply Hl2].
Qed.

Lemma no_message_emit (ev : WSEvent) (s : state) :
  (∀ m, ev ≠ EvMessage m) → no_message_since s (emit ev s).
Proof.
  intros Hev. exists [ev]. split; [done|].
  intros m Hm%list_elem_of_singleton. by apply (Hev m).
Qed.

Lemma no_message_setState (st : ConnectionState) (s : state) :
  no_message_since s (setState st s).
Proof.
  eexists. split; [apply setState_emitted|].
  intros m. case_decide; [by intros ?%elem_of_nil|].
  by intros ?%list_elem_of_singleton.
Qed.

Lemma no_message_cleanup (s : state) : no_message_since s (cleanup s).
Proof. apply no_message_refl, cleanup_emitted. Qed.

Lemma no_message_scheduleReconnect (s : state) :
  no_message_since s (scheduleReconnect s).
Proof.
  unfold scheduleReconnect. case_match; [by apply no_message_refl|].
  eapply no_message_trans; [apply no_message_setState|].
  by apply no_message_refl.
Qed.

Lemma no_message_handleClose (s : state) :
  no_message_since s (handleClose s).
Proof.
  unfold handleClose.
  eapply no_message_trans; [apply no_message_cleanup|].
  repeat case_match.
  - apply no_message_setState.
  - eapply no_message_trans; [by apply (no_message_emit EvClose)|].
    apply no_message_scheduleReconnect.
  - eapply no_message_trans; [by apply (no_message_emit EvClose)|].
    apply no_message_setState.
Qed.

Lemma no_message_disconnect (s : state) :
  no_message_since s (disconnect s).
Proof.
  unfold disconnect.
  eapply no_message_trans;
    [apply (no_message_refl s (set_intentionalClose true s)); done|].
  eapply no_message_trans; [apply no_message_cleanup|].
  eapply no_message_trans; [apply no_message_setState|].
  by apply no_message_emit.
Qed.

Lemma no_message_connect (ctor : option string) (s : state) :
  no_message_since s (connect ctor s).2.
Proof.
  unfold connect, new_promise. cbn -[setState resolve reject].
  case_decide; cbn -[setState resolve reject].
  - apply no_message_refl. unfold resolve. by rewrite settle_emitted.
  - set (s1 := set_intentionalClose _ _).
    eapply no_message_trans; [apply (no_message_refl s s1); done|].
    eapply no_message_trans; [apply (no_message_setState connecting)|].
    destruct ctor as [msg|]; cbn -[setState reject].
    + eapply no_message_trans; [apply (no_message_setState disconnected)|].
      apply no_message_refl. unfold reject. by rewrite settle_emitted.
    + by apply no_message_refl.
Qed.

Lemma send_emitted (m : ClientMessage) (s : state) :
  emitted (rt (send m s).2) = emitted (rt s).
Proof. unfold send. by repeat case_match. Qed.

Lemma remove_listener_emitted (b : bool) (i : nat) (s : state) :
  emitted (rt (remove_listener b i s)) = emitted (rt s).
Proof. unfold remove_listener. by case_match. Qed.

Lemma remove_via_ws_emitted (b : bool) (i : nat) (s : state) :
  emitted (rt (remove_via_ws b i s)) = emitted (rt s).
Proof.
  unfold remove_via_ws. repeat case_match; try done.
  apply remove_listener_emitted.
Qed.

Lemma set_readyState_emitted (i : nat) (r : ReadyState) (s : state) :
  emitted (rt (set_readyState i r s)) = emitted (rt s).
Proof. unfold set_readyState. by case_match. Qed.

Lemma no_message_sock_open (i : nat) (s s' : state) :
  sock_open i s = Some s' → no_message_since s s'.
Proof.
  unfold sock_open. repeat case_match; try done; intros [= <-].
  - unfold onOpen_body, resolve.
    set (s1 := set_reconnectAttempts _ _).
    eapply (no_message_trans _ s1).
    { apply no_message_refl. unfold s1. simpl.
      by rewrite remove_via_ws_emitted, remove_listener_emitted,
        set_readyState_emitted. }
    eapply no_message_trans; [apply (no_message_setState connected)|].
    eapply no_message_trans.
    { apply (no_message_refl _ (startPing (setState connected s1))).
      by rewrite startPing_rt. }
    eapply no_message_trans; [by apply (no_message_emit EvOpen)|].
    apply no_message_refl. by rewrite settle_emitted.
  - apply no_message_refl, set_readyState_emitted.
Qed.

Lemma no_message_sock_error (i : nat) (s s' : state) :
  sock_error i s = Some s' → no_message_since s s'.
Proof.
  unfold sock_error. repeat case_match; try done; intros [= <-].
  - eapply no_message_trans; [|by apply no_message_emit].
    apply no_message_refl. unfold onError_body, reject.
    by rewrite settle_emitted, remove_via_ws_emitted,
      remove_listener_emitted.
  - by apply no_message_emit.
Qed.

Lemma no_message_sock_close (i : nat) (s s' : state) :
  sock_close i s = Some s' → no_message_since s s'.
Proof.
  unfold sock_close. repeat case_match; try done; intros [= <-].
  eapply no_message_trans; [|apply no_message_handleClose].
  apply no_message_refl, set_readyState_emitted.
Qed.

(** Of the events of the sockets and the timers, only a frame
    publishes a [message] event, and the event carries that frame. *)
Lemma handleMessage_emitted (frame : option ServerMessage) (s : state) :
  ∃ l, emitted (rt (handleMessage frame s)) = emitted (rt s) ++ l ∧
       ∀ m, EvMessage m ∈ l → frame = Some m.
Proof.
  unfold handleMessage, resolve, reject.
  repeat case_match; subst; rewrite ?settle_emitted; simpl;
    first [ by (exists []; rewrite app_nil_r; split;
                [done|by intros ? ?%elem_of_nil])
          | (eexists [_]; split;
             [done|by intros ? [= ->]%list_elem_of_singleton]) ].
Qed.

Lemma step_publishes (ev : event) (s s' : state) :
  step ev s = Some s' → Client.from_environment ev = true →
  ∃ l, emitted (rt s') = emitted (rt s) ++ l ∧
       ∀ m, EvMessage m ∈ l → ∃ i, ev = SockMessage i (Some m).
Proof.
  intros Hstep Henv.
  assert (Hquiet : no_message_since s s' →
    ∃ l, emitted (rt s') = emitted (rt s) ++ l ∧
         ∀ m, EvMessage m ∈ l → ∃ i, ev = SockMessage i (Some m)).
  { intros (l & Hl & Hno). exists l. split; [done|].
    intros m Hm. by apply Hno in Hm. }
  destruct ev as [i|i|i|i frame|ctor|t| |ctor| |m|q id ms|i]; simpl in *;
    try done.
  - by apply Hquiet, (no_message_sock_open i).
  - by apply Hquiet, (no_message_sock_error i).
  - by apply Hquiet, (no_message_sock_close i).
  - unfold sock_message in Hstep. repeat case_match; try done.
    injection Hstep as <-.
    destruct (handleMessage_emitted frame s) as (l & Hl & Hm).
    exists l. split; [done|]. intros m Hin. exists i. by rewrite (Hm m).
  - unfold fire_reconnect in Hstep. case_match; [|done].
    injection Hstep as <-. apply Hquiet. unfold reconnect_callback.
    eapply no_message_trans; [|apply no_message_connect].
    by apply no_message_refl.
  - unfold fire_timeout in Hstep. repeat case_match; try done.
    injection Hstep as <-. apply Hquiet, no_message_refl.
    unfold timeout_callback, reject. by rewrite settle_emitted.
  - unfold fire_ping, ping_callback in Hstep.
    repeat case_match; try done; injection Hstep as <-;
      apply Hquiet, no_message_refl; try done.
    apply send_emitted.
  - apply sock_closing_spec in Hstep as [-> _].
    apply Hquiet, no_message_refl, set_readyState_emitted.
Qed.


(** *** Which promises a call can resolve *)

Lemma reject_all_no_resolve (ps : list (string * PendingRequest))
    (s : state) (q : nat) (v : value) :
  promises (rt (reject_all ps s)) !! q = Some (Resolved v) →
  promises (rt s) !! q = Some (Resolved v).
Proof.
  revert s. induction ps as [|[id0 pr0] ps IH]; intros s; simpl; [done|].
  intros Hq%IH. unfold reject in Hq. rewrite settle_promises in Hq.
  by case_decide.
Qed.

Lemma disconnect_no_resolve (s : state) (q : nat) (v : value) :
  promises (rt (disconnect s)) !! q = Some (Resolved v) →
  promises (rt s) !! q = Some (Resolved v).
Proof.
  unfold disconnect. cbn -[setState cleanup].
  rewrite setState_rt_promises.
  destruct (cleanup_rt (set_intentionalClose true s)) as (-> & _).
  intros H. by apply reject_all_no_resolve in H.
Qed.

(** [connect] settles no promise but the one it returns. *)
Lemma connect_old_promises (ctor : option string) (s : state) (q : nat) :
  q < length (promises (rt s)) →
  promises (rt (connect ctor s).2) !! q = promises (rt s) !! q.
Proof.
  intros Hq. unfold connect, new_promise. cbn -[setState resolve reject].
  case_decide; cbn -[setState resolve reject].
  - unfold resolve. rewrite settle_promises, decide_False by lia.
    simpl. by rewrite lookup_app_l.
  - destruct ctor as [msg|]; cbn -[setState reject].
    + unfold reject. rewrite settle_promises, decide_False by lia.
      rewrite !setState_rt_promises. simpl. by rewrite lookup_app_l.
    + rewrite setState_rt_promises. simpl. by rewrite lookup_app_l.
Qed.

Lemma send_promises (m : ClientMessage) (s : state) :
  promises (rt (send m s).2) = promises (rt s).
Proof. unfold send. by repeat case_match. Qed.

(** [request] adds the promise it returns to the table, pending or
    rejected, and settles no other. *)
Lemma request_promises (q : query) (id : string) (ms : Z) (s : state) :
  (request q id ms s).1 = length (promises (rt s)) ∧
  ∃ x, promises (rt (request q id ms s).2) = promises (rt s) ++ [x] ∧
       ∀ v, x ≠ Resolved v.
Proof.
  unfold request, new_promise, setTimeout. cbn -[send].
  set (s1 := set_pendingRequests _ _).
  pose proof (send_promises (Query id q) s1) as Hsend.
  destruct (send (Query id q) s1) as [[err|] s2]; simpl in *.
  - split; [done|]. exists (Rejected err). split; [|done].
    unfold reject, settle. simpl. rewrite Hsend.
    rewrite lookup_snoc_eq. simpl. by rewrite insert_snoc_eq.
  - split; [done|]. exists Pending. by rewrite Hsend.
Qed.

Lemma request_emitted (q : query) (id : string) (ms : Z) (s : state) :
  emitted (rt (request q id ms s).2) = emitted (rt s).
Proof.
  unfold request, new_promise, setTimeout. cbn -[send].
  set (s1 := set_pendingRequests _ _).
  pose proof (send_emitted (Query id q) s1) as Hsend.
  destruct (send (Query id q) s1) as [[err|] s2]; simpl in *.
  - unfold reject. by rewrite settle_emitted.
  - done.
Qed.

End TransportProperties.

(** ** The facade *)

Section FacadeProperties.

Import Transport.

Lemma handleEvent_capabilities (ev : DeviceEvent) (e : Client.CleverenceEdge) :
  Client._capabilities (Client.handleEvent ev e) = Client._capabilities e ∧
  Client.ws (Client.handleEvent ev e) = Client.ws e ∧
  Client.fetching (Client.handleEvent ev e) = Client.fetching e.
Proof. unfold Client.handleEvent. by repeat case_decide. Qed.

Lemma getCapabilities_capabilities (id : string) (e : Client.CleverenceEdge) :
  Client._capabilities (Client.getCapabilities id e).2 =
  Client._capabilities e ∧
  Client.fetching (Client.getCapabilities id e).2 = Client.fetching e.
Proof.
  unfold Client.getCapabilities, Client.ws_request.
  destruct (Client.ensureConnected e); [done|].
  by destruct (request capabilities id 10000 (Client.ws e)).
Qed.

(** The cache changes under a subscriber only when the event is a
    capabilities push. *)
Lemma subscriber_capabilities (id : string) (ev : WSEvent)
    (e : Client.CleverenceEdge) :
  Client._capabilities (Client.subscriber id ev e) = Client._capabilities e ∨
  ∃ d, ev = EvMessage (Capabilities d).
Proof.
  destruct ev as [m| | |err|st]; simpl.
  - destruct m; simpl; eauto.
    left. apply handleEvent_capabilities.
  - left.
    pose proof (getCapabilities_capabilities id (Client.emit Client.EvConnect e))
      as [Hc _].
    destruct (Client.getCapabilities id (Client.emit Client.EvConnect e))
      as [[err| |p] e1]; simpl in *; done.
  - by left.
  - by left.
  - left. by case_decide.
Qed.

(** A promise the facade waits for and finds resolved after a
    subscriber has run was waited for, and resolved, before. *)
Lemma subscriber_fetching (id : string) (ev : WSEvent)
    (e : Client.CleverenceEdge) (p : nat) (v : value) :
  p ∈ Client.fetching (Client.subscriber id ev e) →
  promises (rt (Client.ws (Client.subscriber id ev e))) !! p =
    Some (Resolved v) →
  p ∈ Client.fetching e ∧
  promises (rt (Client.ws e)) !! p = Some (Resolved v).
Proof.
  destruct ev as [m| | |err|st]; simpl; try done.
  - destruct m; simpl; try done.
    by destruct (handleEvent_capabilities ev e) as (_ & -> & ->).
  - unfold Client.getCapabilities, Client.ws_request.
    destruct (Client.ensureConnected _); [done|]. simpl.
    destruct (request_promises capabilities id 10000 (Client.ws e))
      as (Hp & x & Hx & Hres).
    destruct (request capabilities id 10000 (Client.ws e)) as [p' s'].
    simpl in *. subst p'. rewrite Hx.
    intros [Hin|Hin]%elem_of_app Hlook.
    + split; [done|].
      destruct (decide (p < length (promises (rt (Client.ws e)))))
        as [Hlt|Hge].
      * by rewrite lookup_app_l in Hlook.
      * rewrite lookup_app_r in Hlook by lia.
        destruct (p - length (promises (rt (Client.ws e)))) as [|k];
          simpl in Hlook; [|done].
        injection Hlook as ->. by destruct (Hres v).
    + apply list_elem_of_singleton in Hin as ->.
      rewrite lookup_snoc_eq in Hlook. injection Hlook as ->.
      by destruct (Hres v).
  - by case_decide.
Qed.

Lemma subscribers_capabilities (id : string) (news : list WSEvent)
    (e : Client.CleverenceEdge) :
  let e' := foldl (λ e ev, Client.subscriber id ev e) e news in
  (Client._capabilities e' = Client._capabilities e ∨
   ∃ d, EvMessage (Capabilities d) ∈ news) ∧
  ∀ p v, p ∈ Client.fetching e' →
         promises (rt (Client.ws e')) !! p = Some (Resolved v) →
         p ∈ Client.fetching e ∧
         promises (rt (Client.ws e)) !! p = Some (Resolved v).
Proof.
  revert e. induction news as [|ev news IH]; intros e; simpl.
  - split; [by left|done].
  - destruct (IH (Client.subscriber id ev e)) as [Hc Hf]. split.
    + destruct Hc as [Hc|(d & Hd)].
      * destruct (subscriber_capabilities id ev e) as [Hs|(d & ->)].
        -- left. by rewrite Hc.
        -- right. exists d. by left.
      * right. exists d. by right.
    + intros p v Hin Hlook. destruct (Hf p v Hin Hlook) as [Hin' Hlook'].
      by apply (subscriber_fetching id ev).
Qed.

Lemma continuations_ws (ps : list nat) (e : Client.CleverenceEdge) :
  Client.ws (Client.continuations ps e) = Client.ws e.
Proof.
  revert e. induction ps as [|p ps IH]; intros e; simpl; [done|].
  repeat case_match; simpl; by rewrite ?IH.
Qed.

(** The cache changes under the continuations only when a promise the
    facade waits for is resolved. *)
Lemma continuations_capabilities (ps : list nat) (e : Client.CleverenceEdge) :
  Client._capabilities (Client.continuations ps e) = Client._capabilities e ∨
  ∃ p v, p ∈ ps ∧
         promises (rt (Client.ws e)) !! p = Some (Resolved v).
Proof.
  revert e. induction ps as [|p ps IH]; intros e; simpl; [by left|].
  destruct (promises (rt (Client.ws e)) !! p) as [[|v|err]|] eqn:Hp.
  - simpl. destruct (IH e) as [Hc|(q & v & Hq & Hv)]; [by left|].
    right. exists q, v. split; [by right|done].
  - right. exists p, v. split; [by left|done].
  - destruct (IH e) as [Hc|(q & v & Hq & Hv)]; [by left|].
    right. exists q, v. split; [by right|done].
  - destruct (IH e) as [Hc|(q & v & Hq & Hv)]; [by left|].
    right. exists q, v. split; [by right|done].
Qed.

(** After the continuations, what the facade waits for is pending. *)
Lemma continuations_waiting (ps : list nat) (e : Client.CleverenceEdge) :
  Client.waiting (Client.continuations ps e).
Proof.
  unfold Client.waiting. revert e.
  induction ps as [|p ps IH]; intros e q; simpl.
  - by intros ?%elem_of_nil.
  - destruct (promises (rt (Client.ws e)) !! p) as [[|v|err]|] eqn:Hp;
      simpl; try apply IH.
    rewrite continuations_ws.
    intros [->|Hq]%elem_of_cons; [done|].
    rewrite <- (continuations_ws ps e). by apply IH.
Qed.

(** One turn of the facade changes the cache only for a capabilities
    push among the events published, or for a capability fetch that the
    transport has resolved. *)
Lemma turn_capabilities (before : nat) (id : string) (s : state)
    (e : Client.CleverenceEdge) :
  Client._capabilities (Client.turn before id s e) = Client._capabilities e ∨
  (∃ d, EvMessage (Capabilities d) ∈ drop before (emitted (rt s))) ∨
  (∃ p v, p ∈ Client.fetching e ∧
          promises (rt s) !! p = Some (Resolved v)).
Proof.
  unfold Client.turn.
  destruct (subscribers_capabilities id (drop before (emitted (rt s)))
              (Client.set_ws s e)) as [Hc Hf].
  set (e1 := foldl _ _ _) in *.
  destruct (continuations_capabilities (Client.fetching e1) e1)
    as [Hk|(p & v & Hin & Hlook)].
  - destruct Hc as [Hc|Hd]; [|by right; left].
    left. by rewrite Hk, Hc.
  - right. right. exists p, v. by apply Hf.
Qed.

Lemma turn_waiting (before : nat) (id : string) (s : state)
    (e : Client.CleverenceEdge) :
  Client.waiting (Client.turn before id s e).
Proof. apply continuations_waiting. Qed.

Lemma new_edge_waiting (o : Client.EdgeOptions) :
  Client.waiting (Client.new_edge o).
Proof. by intros p ?%elem_of_nil. Qed.

(** The commands and the queries keep what the facade waits for pending:
    [send] settles nothing and [request] settles its own promise only. *)
Lemma ws_command_waiting (c : CommandBody) (e : Client.CleverenceEdge) :
  Client.waiting e → Client.waiting (Client.ws_command c e).2.
Proof.
  intros Hwait p. unfold Client.ws_command, command.
  pose proof (send_promises (Command c) (Client.ws e)) as Hs.
  destruct (send (Command c) (Client.ws e)) as [[err|] s]; simpl in *;
    rewrite Hs; apply Hwait.
Qed.

Lemma ws_request_waiting (q : query) (id : string)
    (e : Client.CleverenceEdge) :
  Client.waiting e → Client.waiting (Client.ws_request q id e).2.
Proof.
  intros Hwait p. unfold Client.ws_request.
  destruct (request_promises q id 10000 (Client.ws e)) as (_ & x & Hx & _).
  destruct (request q id 10000 (Client.ws e)) as [p' s]. simpl in *.
  intros Hp. specialize (Hwait p Hp). rewrite Hx.
  rewrite lookup_app_l; [done|]. by eapply lookup_lt_Some.
Qed.

Lemma invoke_waiting (c : Client.call) (id : string)
    (e : Client.CleverenceEdge) :
  Client.waiting e → Client.waiting (Client.invoke c id e).
Proof.
  intros Hwait. destruct c; simpl.
  - unfold Client.connect. destruct (connect ctor (Client.ws e)).
    apply turn_waiting.
  - apply turn_waiting.
  - unfold Client.triggerScan. case_match; [done|].
    by apply ws_command_waiting.
  - unfold Client.setSymbologies. case_match; [done|].
    by apply ws_command_waiting.
  - unfold Client.startRfidInventory. case_match; [done|].
    by apply ws_command_waiting.
  - unfold Client.stopRfidInventory. case_match; [done|].
    by apply ws_command_waiting.
  - unfold Client.getStatus. case_match; [done|].
    by apply ws_request_waiting.
  - unfold Client.getCapabilities. case_match; [done|].
    by apply ws_request_waiting.
  - unfold Client.getConfig. case_match; [done|].
    by apply ws_request_waiting.
  - unfold Client.getRfidTags. case_match; [done|].
    by apply ws_request_waiting.
Qed.

Lemma occurs_waiting (ev : event) (id : string)
    (e e' : Client.CleverenceEdge) :
  Client.occurs ev id e = Some e' → Client.waiting e'.
Proof.
  unfold Client.occurs. repeat case_match; try done.
  intros [= <-]. apply turn_waiting.
Qed.


Lemma no_message_drop (s s' : state) (d : json) :
  no_message_since s s' →
  EvMessage (Capabilities d) ∉
    drop (length (emitted (rt s))) (emitted (rt s')).
Proof.
  intros (l & -> & Hl). rewrite drop_app_length. apply Hl.
Qed.

Lemma connect_capabilities (ctor : option string) (id : string)
    (e : Client.CleverenceEdge) :
  Client.waiting e →
  Client._capabilities (Client.connect ctor id e).2 = Client._capabilities e.
Proof.
  intros Hwait. unfold Client.connect.
  pose proof (no_message_connect ctor (Client.ws e)) as Hquiet.
  pose proof (connect_old_promises ctor (Client.ws e)) as Hold.
  destruct (connect ctor (Client.ws e)) as [p s]. simpl in *.
  destruct (turn_capabilities (Client.published_before e) id s e)
    as [Hc|[(d & Hd)|(q & v & Hq & Hv)]]; [done| |].
  - by apply no_message_drop in Hd.
  - specialize (Hwait q Hq). rewrite Hold in Hv by by eapply lookup_lt_Some.
    congruence.
Qed.

Lemma ws_command_capabilities (c : CommandBody) (e : Client.CleverenceEdge) :
  Client._capabilities (Client.ws_command c e).2 = Client._capabilities e.
Proof.
  unfold Client.ws_command.
  by destruct (command c (Client.ws e)) as [[err|] s].
Qed.

Lemma ws_request_capabilities (q : query) (id : string)
    (e : Client.CleverenceEdge) :
  Client._capabilities (Client.ws_request q id e).2 = Client._capabilities e.
Proof.
  unfold Client.ws_request.
  by destruct (request q id 10000 (Client.ws e)).
Qed.

(** C7. Each command and query method of the facade, called while the
    state of the transport is not [connected], is rejected at once with
    the error [Not connected to Edge service. Call connect() first.] and
    leaves the facade and its transport as they were: no frame is
    written, no request is registered and no timer is armed. *)
Theorem methods_fail_fast_when_not_connected
    (e : Client.CleverenceEdge) (id : string) (symbologies : list string)
    (opts : option json) :
  _state (this (Client.ws e)) ≠ connected →
  let failed :=
    (Client.Throws "Not connected to Edge service. Call connect() first.",
     e) in
  Client.triggerScan e = failed ∧
  Client.setSymbologies symbologies e = failed ∧
  Client.startRfidInventory opts e = failed ∧
  Client.stopRfidInventory e = failed ∧
  Client.getStatus id e = failed ∧
  Client.getCapabilities id e = failed ∧
  Client.getConfig id e = failed ∧
  Client.getRfidTags id e = failed.
Proof.
  intros Hst failed.
  assert (Hensure : Client.ensureConnected e =
    Some "Not connected to Edge service. Call connect() first.").
  { unfold Client.ensureConnected, Client.isConnected, isConnected.
    by rewrite bool_decide_eq_false_2. }
  unfold Client.triggerScan, Client.setSymbologies,
    Client.startRfidInventory, Client.stopRfidInventory, Client.getStatus,
    Client.getCapabilities, Client.getConfig, Client.getRfidTags.
  by rewrite Hensure.
Qed.

(** C10. [disconnect()] leaves the cached capabilities as they are,
    whatever they are, and so does every other method of the facade; an
    event of a socket or a timer changes the cache only when it is a
    capabilities push frame, or when it resolves the promise of a
    capabilities query that the facade made when a socket opened. *)
Theorem capabilities_change_only_by_fetch_or_push
    (e : Client.CleverenceEdge) (id : string) :
  Client.waiting e →
  Client.capabilities (Client.disconnect id e) = Client.capabilities e ∧
  (∀ c, Client.capabilities (Client.invoke c id e) =
        Client.capabilities e) ∧
  (∀ ctor e', Client.fire_autoConnect ctor id e = Some e' →
              Client.capabilities e' = Client.capabilities e) ∧
  (∀ ev e',
     Client.occurs ev id e = Some e' →
     Client.capabilities e' ≠ Client.capabilities e →
     (∃ i d, ev = SockMessage i (Some (Capabilities d))) ∨
     (∃ p v s, p ∈ Client.fetching e ∧
               promises (rt (Client.ws e)) !! p = Some Pending ∧
               step ev (Client.ws e) = Some s ∧
               promises (rt s) !! p = Some (Resolved v))).
Proof.
  intros Hwait. unfold Client.capabilities.
  assert (Hdis : Client._capabilities (Client.disconnect id e) =
                 Client._capabilities e).
  { unfold Client.disconnect.
    destruct (turn_capabilities (Client.published_before e) id
                (disconnect (Client.ws e)) e)
      as [Hc|[(d & Hd)|(q & v & Hq & Hv)]]; [done| |].
    - by apply no_message_drop in Hd; [|apply no_message_disconnect].
    - specialize (Hwait q Hq). apply disconnect_no_resolve in Hv.
      congruence. }
  split_and!; [done| | |].
  - intros [ctor| | |l|o| | | | |]; simpl; try done.
    + by apply connect_capabilities.
    + unfold Client.triggerScan. case_match; [done|].
      apply ws_command_capabilities.
    + unfold Client.setSymbologies. case_match; [done|].
      apply ws_command_capabilities.
    + unfold Client.startRfidInventory. case_match; [done|].
      apply ws_command_capabilities.
    + unfold Client.stopRfidInventory. case_match; [done|].
      apply ws_command_capabilities.
    + unfold Client.getStatus. case_match; [done|].
      apply ws_request_capabilities.
    + unfold Client.getCapabilities. case_match; [done|].
      apply ws_request_capabilities.
    + unfold Client.getConfig. case_match; [done|].
      apply ws_request_capabilities.
    + unfold Client.getRfidTags. case_match; [done|].
      apply ws_request_capabilities.
  - intros ctor e'. unfold Client.fire_autoConnect.
    case_match; [|done]. intros [= <-].
    by rewrite connect_capabilities.
  - intros ev e'. unfold Client.occurs.
    destruct (Client.from_environment ev) eqn:Henv; [|done].
    destruct (step ev (Client.ws e)) as [s|] eqn:Hstep; [|done].
    intros [= <-] Hne.
    destruct (turn_capabilities (Client.published_before e) id s e)
      as [Hc|[(d & Hd)|(q & v & Hq & Hv)]]; [done| |].
    + left. destruct (step_publishes ev _ _ Hstep Henv) as (l & Hl & Hm).
      unfold Client.published_before in Hd.
      rewrite Hl, drop_app_length in Hd.
      destruct (Hm _ Hd) as [i ->]. by exists i, d.
    + right. exists q, v, s. split_and!; try done. by apply Hwait.
Qed.

End FacadeProperties.

(** ** The specification at sample states *)

Section Samples.

Import Transport.

(** C1, as the specification words it, fails: of two [connect()] calls
    made while connecting, the second is resolved while the socket is
    still connecting; when the socket then fails to open, the first call
    is rejected and the second stays resolved, so the two do not both
    resolve from one open. *)
Lemma second_connect_resolves_before_open :
  let first := connect None fresh_manager in
  let second := connect None first.2 in
  sockets (rt second.2) = [mkSocket CONNECTING first.1 true true] ∧
  _state (this second.2) = connecting ∧
  promises (rt second.2) !! first.1 = Some Pending ∧
  promises (rt second.2) !! second.1 = Some (Resolved Undefined) ∧
  (s ← run [SockError 0; SockClose 0] second.2;
   Some (promises (rt s) !! first.1, promises (rt s) !! second.1)) =
  Some (Some (Rejected "WebSocket connection failed"),
        Some (Resolved Undefined)).
Proof. by vm_compute. Qed.

Lemma connect_is_single_flight_witness :
  (_state (this connecting_manager) = connected ∨
   _state (this connecting_manager) = connecting) ∧
  _state (this fresh_manager) ≠ connected ∧
  _state (this fresh_manager) ≠ connecting ∧
  sockets (rt (connect None connecting_manager).2) =
    sockets (rt connecting_manager) ∧
  length (sockets (rt (connect None (connect None fresh_manager).2).2)) = 1.
Proof.
  assert (Hc : _state (this connecting_manager) = connected ∨
               _state (this connecting_manager) = connecting)
    by (right; by vm_compute).
  assert (Hf1 : _state (this fresh_manager) ≠ connected) by (by vm_compute).
  assert (Hf2 : _state (this fresh_manager) ≠ connecting) by (by vm_compute).
  destruct (connect_is_single_flight connecting_manager None) as [H1 _].
  destruct (connect_is_single_flight fresh_manager None) as [_ H2].
  split_and!; [exact Hc|exact Hf1|exact Hf2| |].
  - by rewrite (H1 Hc).
  - destruct (H2 Hf1 Hf2) as (-> & _). by vm_compute.
Defined.

Lemma reconnect_backoff_witness :
  (0 < reconnectDelay (options (this fresh_manager)))%Z ∧
  reconnect (options (this fresh_manager)) = true ∧
  _state (this fresh_manager) ≠ connected ∧
  _state (this fresh_manager) ≠ connecting ∧
  ∃ s0 s1 sn,
    sock_open 0 (connect None fresh_manager).2 = Some s0 ∧
    sock_close 0 s0 = Some s1 ∧ retries 3 s1 = Some sn ∧
    reconnectTimer (this sn) = Some 8000%Z.
Proof.
  assert (Hr : reconnect (options (this fresh_manager)) = true)
    by (by vm_compute).
  assert (Hf1 : _state (this fresh_manager) ≠ connected) by (by vm_compute).
  assert (Hf2 : _state (this fresh_manager) ≠ connecting) by (by vm_compute).
  assert (Hpos : (0 < reconnectDelay (options (this fresh_manager)))%Z)
    by (by vm_compute).
  split_and!; [exact Hpos|exact Hr|exact Hf1|exact Hf2|].
  destruct (reconnect_backoff fresh_manager 3 Hpos Hr Hf1 Hf2)
    as [(s0 & s1 & sn & H0 & _ & _ & H1 & Hn & _ & _ & Ht & _) _].
  exists s0, s1, sn. split_and!; [exact H0|exact H1|exact Hn|].
  rewrite Ht. by vm_compute.
Defined.

(** C3, as the specification words it, fails: a response that matches
    no pending request is published as a [message] event. *)
Lemma unmatched_response_is_published :
  map_get "late" (pendingRequests (this connected_manager)) = None ∧
  sock_message 0 (Some late_response) connected_manager =
    Some (handleMessage (Some late_response) connected_manager) ∧
  emitted (rt (handleMessage (Some late_response) connected_manager)) =
    emitted (rt connected_manager) ++ [EvMessage late_response] ∧
  emitted (rt (handleMessage (Some late_response) connected_manager)) ≠
    emitted (rt connected_manager).
Proof. by vm_compute. Qed.

Lemma unmatched_response_is_forwarded_witness :
  map_get "late" (pendingRequests (this busy_manager)) = None ∧
  pendingRequests
    (this (handleMessage (Some late_response) busy_manager)) =
  pendingRequests (this busy_manager).
Proof.
  assert (Hn : map_get "late" (pendingRequests (this busy_manager)) = None)
    by (by vm_compute).
  split; [exact Hn|].
  destruct (unmatched_response_is_forwarded "late" true (Some Undefined) ""
              busy_manager Hn) as (H & _).
  exact (f_equal pendingRequests H).
Defined.

(** C4, as the specification words it, fails: with the default options
    the failure to open of a [connect()] made by the caller leaves the
    manager in [reconnecting], with the retry timer armed. *)
Lemma failed_caller_connect_schedules_retry :
  _state (this connecting_manager) = connecting ∧
  (s ← run [SockError 0; SockClose 0] connecting_manager;
   Some (promises (rt s) !! 0, _state (this s), reconnectTimer (this s))) =
  Some (Some (Rejected "WebSocket connection failed"), reconnecting,
        Some 1000%Z) ∧
  ¬ (∃ s, run [SockError 0; SockClose 0] connecting_manager = Some s ∧
          _state (this s) = disconnected ∧ reconnectTimer (this s) = None).
Proof.
  split_and!; [by vm_compute..|]. intros (s & Hs & Hst & _).
  vm_compute in Hs. injection Hs as <-. by vm_compute in Hst.
Qed.

Lemma failed_open_follows_reconnect_option_witness :
  _state (this fresh_manager) ≠ connected ∧
  _state (this fresh_manager) ≠ connecting ∧
  _state (this (connect None fresh_manager).2) = connecting.
Proof.
  assert (Hf1 : _state (this fresh_manager) ≠ connected) by (by vm_compute).
  assert (Hf2 : _state (this fresh_manager) ≠ connecting) by (by vm_compute).
  split_and!; [exact Hf1|exact Hf2|].
  exact (proj1 (failed_open_follows_reconnect_option fresh_manager Hf1 Hf2)).
Defined.



Lemma request_send_failure_restores_pending_witness :
  (send (Query "q1" status) connecting_manager).1 =
    Some "WebSocket is not connected" ∧
  map_get "q1" (pendingRequests (this connecting_manager)) = None ∧
  promises (rt (request status "q1" 10000 connecting_manager).2)
    !! (request status "q1" 10000 connecting_manager).1 =
  Some (Rejected "WebSocket is not connected").
Proof.
  assert (H1 : (send (Query "q1" status) connecting_manager).1 =
               Some "WebSocket is not connected") by (by vm_compute).
  assert (H2 : map_get "q1" (pendingRequests (this connecting_manager)) =
               None) by (by vm_compute).
  split_and!; [exact H1|exact H2|].
  exact (proj1 (proj2 (request_send_failure_restores_pending status "q1"
                         10000 connecting_manager _ H1 H2))).
Defined.

Lemma methods_fail_fast_when_not_connected_witness :
  _state (this (Client.ws fresh_edge)) ≠ connected ∧
  Client.getStatus "q1" fresh_edge =
  (Client.Throws "Not connected to Edge service. Call connect() first.",
   fresh_edge).
Proof.
  assert (H : _state (this (Client.ws fresh_edge)) ≠ connected)
    by (by vm_compute).
  split; [exact H|].
  by destruct (methods_fail_fast_when_not_connected fresh_edge "q1" [] None H)
    as (_ & _ & _ & _ & Hs & _).
Defined.

Lemma informed_edge_waiting : Client.waiting informed_edge.
Proof.
  intros p Hp. exfalso. revert Hp. vm_compute. by intros ?%elem_of_nil.
Qed.

Lemma capabilities_change_only_by_fetch_or_push_witness :
  Client.waiting informed_edge ∧
  Client.capabilities informed_edge = Some (Json "zebra") ∧
  Client.capabilities (Client.disconnect "" informed_edge) =
  Client.capabilities informed_edge.
Proof.
  split_and!; [exact informed_edge_waiting|by vm_compute|].
  exact (proj1 (capabilities_change_only_by_fetch_or_push informed_edge ""
                  informed_edge_waiting)).
Defined.

End Samples.


(** * Further properties of the code *)

(** ** The sockets of the transport *)

Section TransportInvariants.

Import Transport.

Lemma readyStates_insert_same (i : nat) (s : state) (sk sk' : WebSocket) :
  sockets (rt s) !! i = Some sk → readyState sk' = readyState sk →
  readyState <$> <[i := sk']> (sockets (rt s)) = readyStates s.
Proof.
  intros Hsk Hr. unfold readyStates. rewrite list_fmap_insert, Hr.
  apply list_insert_id. by rewrite list_lookup_fmap, Hsk.
Qed.

Lemma readyStates_remove_listener (b : bool) (i : nat) (s : state) :
  readyStates (remove_listener b i s) = readyStates s.
Proof.
  unfold remove_listener.
  destruct (sockets (rt s) !! i) as [sk|] eqn:Hsk; [|done].
  unfold readyStates at 1. simpl.
  apply (readyStates_insert_same i s sk); [done|]. by destruct b.
Qed.

Lemma readyStates_remove_via_ws (b : bool) (i : nat) (s : state) :
  readyStates (remove_via_ws b i s) = readyStates s.
Proof.
  unfold remove_via_ws. repeat case_match; try done.
  apply readyStates_remove_listener.
Qed.

Lemma readyStates_set_readyState (i : nat) (r : ReadyState) (s : state) :
  readyStates (set_readyState i r s) = <[i := r]> (readyStates s).
Proof.
  unfold set_readyState, readyStates.
  destruct (sockets (rt s) !! i) as [sk|] eqn:Hsk; simpl.
  - by rewrite list_fmap_insert.
  - symmetry. apply list_insert_ge. rewrite length_fmap.
    by apply lookup_ge_None.
Qed.

Lemma readyStates_socket_close (i : nat) (s : state) :
  readyStates (socket_close i s) = <[i := CLOSING]> (readyStates s).
Proof.
  unfold socket_close, readyStates.
  destruct (sockets (rt s) !! i) as [sk|] eqn:Hsk; simpl.
  - by rewrite list_fmap_insert.
  - symmetry. apply list_insert_ge. rewrite length_fmap.
    by apply lookup_ge_None.
Qed.

Lemma readyStates_settle (p : nat) (o : promise) (s : state) :
  readyStates (settle p o s) = readyStates s.
Proof. unfold readyStates. by rewrite settle_sockets. Qed.

Lemma readyStates_setState (st : ConnectionState) (s : state) :
  readyStates (setState st s) = readyStates s.
Proof. unfold readyStates. by rewrite setState_rt_sockets. Qed.

Lemma readyStates_emit (ev : WSEvent) (s : state) :
  readyStates (emit ev s) = readyStates s.
Proof. done. Qed.

Lemma readyStates_reject_all (ps : list (string * PendingRequest))
    (s : state) :
  readyStates (reject_all ps s) = readyStates s.
Proof. unfold readyStates. by rewrite reject_all_sockets. Qed.

(** [cleanup] closes the socket the manager holds when it is live, and
    touches no other socket. *)
Lemma readyStates_cleanup (s : state) :
  readyStates (cleanup s) =
  match ws (this s) with
  | Some i =>
      match readyStates s !! i with
      | Some r =>
          if decide (r = OPEN ∨ r = CONNECTING)
          then <[i := CLOSING]> (readyStates s) else readyStates s
      | None => readyStates s
      end
  | None => readyStates s
  end.
Proof.
  unfold cleanup, stopPing.
  set (s1 := match pingTimer (this s) with
             | Some _ => set_pingTimer None s | None => s end).
  set (s2 := match reconnectTimer (this s1) with
             | Some _ => set_reconnectTimer None s1 | None => s1 end).
  assert (Hws2 : ws (this s2) = ws (this s)).
  { unfold s2, s1. by destruct s as [[? ? ? ? [] [] ? ?] ?]. }
  assert (Hrt : sockets (rt s2) = sockets (rt s)).
  { unfold s2, s1. by destruct s as [[? ? ? ? [] [] ? ?] ?]. }
  set (s3 := set_pendingRequests [] _).
  assert (Hws3 : ws (this s3) = ws (this s)).
  { unfold s3. simpl. by rewrite reject_all_this. }
  assert (Hsk3 : sockets (rt s3) = sockets (rt s)).
  { unfold s3. simpl. by rewrite reject_all_sockets. }
  assert (Hrs3 : readyStates s3 = readyStates s).
  { unfold readyStates. by rewrite Hsk3. }
  rewrite Hws3. destruct (ws (this s)) as [i|]; [|done].
  cbn -[socket_close reject_all readyStates]. fold s3.
  change (sockets (rt (reject_all (pendingRequests (this s2)) s2)))
    with (sockets (rt s3)).
  assert (Hl : readyStates s !! i = readyState <$> sockets (rt s3) !! i).
  { unfold readyStates. by rewrite list_lookup_fmap, Hsk3. }
  rewrite Hl.
  destruct (sockets (rt s3) !! i) as [sk|]; simpl; [|done].
  case_decide; [|done].
  rewrite readyStates_socket_close. by rewrite <- Hrs3.
Qed.

(** After [cleanup] no socket that was not live before is live, and the
    socket the manager held is not live. *)
Lemma cleanup_no_live (s : state) :
  (∀ i r, readyStates s !! i = Some r → ws (this s) ≠ Some i → ¬ live r) →
  ∀ i r, readyStates (cleanup s) !! i = Some r → ¬ live r.
Proof.
  intros Ha i r. rewrite readyStates_cleanup.
  destruct (ws (this s)) as [j|] eqn:Hws.
  - destruct (readyStates s !! j) as [rj|] eqn:Hj.
    + case_decide as Hlive.
      * destruct (decide (i = j)) as [->|Hne].
        -- rewrite list_lookup_insert_eq by by eapply lookup_lt_Some.
           intros [= <-] [?|?]; done.
        -- rewrite list_lookup_insert_ne by done.
           intros Hi. apply (Ha i r Hi). congruence.
      * destruct (decide (i = j)) as [->|Hne].
        -- rewrite Hj. intros [= <-] [?|?]; tauto.
        -- intros Hi. apply (Ha i r Hi). congruence.
    + intros Hi. apply (Ha i r Hi). intros [= ->]. congruence.
  - intros Hi. by apply (Ha i r Hi).
Qed.

Lemma consistent_same (s s' : state) :
  same_connection s s' → consistent s → consistent s'.
Proof.
  intros (Hws & Hst & Hping & Hrs) (Ha & Hb & Hc & Hd).
  unfold consistent. by rewrite Hws, Hst, Hping, Hrs.
Qed.

(** A state with no live socket, in which the manager holds none, has no
    keepalive timer and is not connected, is consistent. *)
Lemma consistent_at_rest (s : state) :
  (∀ i r, readyStates s !! i = Some r → ¬ live r) →
  ws (this s) = None → pingTimer (this s) = None →
  _state (this s) ≠ connected → consistent s.
Proof.
  intros Hall Hws Hping Hst. unfold consistent. rewrite Hws, Hping.
  split_and!; try done.
  intros i r Hi _. by apply (Hall i).
Qed.

Lemma consistent_new_manager (o : WSManagerOptions) :
  consistent (new_manager o).
Proof. by apply consistent_at_rest. Qed.

Lemma readyStates_handleClose (s : state) :
  readyStates (handleClose s) = readyStates (cleanup s).
Proof.
  unfold handleClose, scheduleReconnect.
  repeat case_match; rewrite ?readyStates_setState; try done.
  unfold readyStates. simpl. by rewrite setState_rt_sockets.
Qed.

Lemma consistent_handleClose (s : state) :
  (∀ i r, readyStates s !! i = Some r → ws (this s) ≠ Some i → ¬ live r) →
  consistent (handleClose s).
Proof.
  intros Ha. apply consistent_at_rest.
  - rewrite readyStates_handleClose. by apply cleanup_no_live.
  - destruct (intentionalClose (this s)) eqn:Hic.
    + by rewrite handleClose_intended.
    + by rewrite handleClose_unintended.
  - destruct (intentionalClose (this s)) eqn:Hic.
    + by rewrite handleClose_intended.
    + by rewrite handleClose_unintended.
  - destruct (intentionalClose (this s)) eqn:Hic.
    + by rewrite handleClose_intended.
    + rewrite handleClose_unintended by done. simpl. by case_match.
Qed.

Lemma consistent_disconnect (s : state) :
  consistent s → consistent (disconnect s).
Proof.
  intros (Ha & _). apply consistent_at_rest.
  - unfold disconnect. rewrite readyStates_emit, readyStates_setState.
    by apply cleanup_no_live.
  - by rewrite disconnect_this.
  - by rewrite disconnect_this.
  - by rewrite disconnect_this.
Qed.


Lemma same_connection_refl (s s' : state) :
  this s' = this s → sockets (rt s') = sockets (rt s) →
  same_connection s s'.
Proof. intros H1 H2. unfold same_connection, readyStates. by rewrite H1, H2. Qed.

Lemma send_sockets (m : ClientMessage) (s : state) :
  sockets (rt (send m s).2) = sockets (rt s).
Proof. unfold send. by repeat case_match. Qed.

Lemma same_connection_send (m : ClientMessage) (s : state) :
  same_connection s (send m s).2.
Proof. apply same_connection_refl; [apply send_this|apply send_sockets]. Qed.

Lemma same_connection_request (q : query) (id : string) (ms : Z) (s : state) :
  same_connection s (request q id ms s).2.
Proof.
  unfold request, new_promise, setTimeout. cbn -[send].
  set (s1 := set_pendingRequests _ _).
  pose proof (send_this (Query id q) s1) as Hthis.
  pose proof (send_sockets (Query id q) s1) as Hsk.
  destruct (send (Query id q) s1) as [[err|] s2]; simpl in *.
  - unfold same_connection, readyStates, reject.
    rewrite settle_this, settle_sockets. simpl. by rewrite Hthis, Hsk.
  - unfold same_connection, readyStates. by rewrite Hthis, Hsk.
Qed.

Lemma same_connection_handleMessage (frame : option ServerMessage)
    (s : state) :
  same_connection s (handleMessage frame s).
Proof.
  unfold handleMessage, resolve, reject, same_connection, readyStates.
  repeat case_match; rewrite ?settle_this, ?settle_sockets; done.
Qed.

Lemma same_connection_sock_error (i : nat) (s s' : state) :
  sock_error i s = Some s' → same_connection s s'.
Proof.
  intros Herr. pose proof (sock_error_this i s s' Herr) as Hthis.
  unfold same_connection. rewrite Hthis. split_and!; try done.
  revert Herr. unfold sock_error. repeat case_match; try done;
    intros [= <-]; unfold handleError; rewrite readyStates_emit; [|done].
  unfold onError_body, reject.
  by rewrite readyStates_settle, readyStates_remove_via_ws,
    readyStates_remove_listener.
Qed.

Lemma readyStates_connect_noop (v : list promise) (s : state) :
  readyStates (set_promises v s) = readyStates s.
Proof. done. Qed.

Lemma consistent_connect (ctor : option string) (s : state) :
  consistent s → consistent (connect ctor s).2.
Proof.
  intros Hcons.
  destruct (decide (_state (this s) = connected ∨
                    _state (this s) = connecting)) as [Hst|Hst].
  { rewrite connect_when_connected by done.
    apply (consistent_same s); [by apply same_connection_refl|done]. }
  destruct Hcons as (Ha & Hb & Hc & Hd).
  assert (Hws : ws (this s) = None).
  { apply Hb. destruct (_state (this s)); tauto. }
  assert (Hping : pingTimer (this s) = None).
  { destruct (pingTimer (this s)) eqn:Hp; [|done].
    destruct Hst. left. by apply Hd. }
  assert (Hall : ∀ i r, readyStates s !! i = Some r → ¬ live r).
  { intros i r Hi. apply (Ha i r Hi). by rewrite Hws. }
  destruct ctor as [msg|].
  - apply consistent_at_rest.
    + unfold connect, new_promise. cbn -[setState reject readyStates].
      rewrite decide_False by done. cbn -[setState reject readyStates].
      unfold reject. rewrite readyStates_settle, !readyStates_setState.
      exact Hall.
    + unfold connect, new_promise. cbn -[setState reject].
      rewrite decide_False by done. cbn -[setState reject].
      unfold reject. rewrite settle_this, setState_this. simpl.
      by rewrite ?setState_this.
    + unfold connect, new_promise. cbn -[setState reject].
      rewrite decide_False by done. cbn -[setState reject].
      unfold reject. rewrite settle_this, setState_this. simpl.
      by rewrite ?setState_this.
    + unfold connect, new_promise. cbn -[setState reject].
      rewrite decide_False by done. cbn -[setState reject].
      unfold reject. rewrite settle_this, setState_this. simpl.
      by rewrite ?setState_this.
  - rewrite connect_opens_socket by tauto. unfold consistent. simpl.
    rewrite Hping. split_and!; try done; [|by intros [?|?]].
    intros i r. unfold readyStates. simpl. rewrite fmap_app. simpl.
    fold (readyStates s). intros Hi Hne.
    destruct (decide (i < length (readyStates s))) as [Hlt|Hge].
    + rewrite lookup_app_l in Hi by done. by apply (Hall i).
    + rewrite lookup_app_r in Hi by lia.
      destruct (i - length (readyStates s)) as [|k] eqn:Hk;
        simpl in Hi; [|done].
      destruct Hne. f_equal. unfold readyStates in Hk, Hge.
      rewrite length_fmap in Hk, Hge. lia.
Qed.

Lemma readyStates_sock_open (i : nat) (s s' : state) :
  sock_open i s = Some s' → readyStates s' = <[i := OPEN]> (readyStates s).
Proof.
  unfold sock_open. repeat case_match; try done; intros [= <-].
  - unfold onOpen_body, resolve. rewrite readyStates_settle, readyStates_emit.
    unfold readyStates at 1. rewrite startPing_rt. fold (readyStates
      (setState connected (set_reconnectAttempts 0
         (remove_via_ws false i (remove_listener true i
            (set_readyState i OPEN s)))))).
    rewrite readyStates_setState.
    change (readyStates (set_reconnectAttempts 0 ?x)) with (readyStates x).
    by rewrite readyStates_remove_via_ws, readyStates_remove_listener,
      readyStates_set_readyState.
  - apply readyStates_set_readyState.
Qed.

Lemma consistent_sock_open (i : nat) (s s' : state) :
  consistent s → sock_open i s = Some s' → consistent s'.
Proof.
  intros (Ha & Hb & Hc & Hd) Hopen.
  pose proof (readyStates_sock_open i s s' Hopen) as Hrs.
  assert (Hi : readyStates s !! i = Some CONNECTING).
  { revert Hopen. unfold sock_open, readyStates. rewrite list_lookup_fmap.
    destruct (sockets (rt s) !! i) as [sk|]; [|done]. simpl.
    case_decide as Hr; [|done]. by rewrite Hr. }
  assert (Hws : ws (this s) = Some i).
  { destruct (decide (ws (this s) = Some i)) as [|Hne]; [done|].
    destruct (Ha i CONNECTING Hi Hne). by left. }
  assert (Hopen' : readyStates s' !! i = Some OPEN).
  { rewrite Hrs. apply list_lookup_insert_eq. by eapply lookup_lt_Some. }
  assert (Hothers : ∀ j r, readyStates s' !! j = Some r →
                           ws (this s) ≠ Some j → ¬ live r).
  { intros j r Hj Hne. rewrite Hrs in Hj.
    rewrite list_lookup_insert_ne in Hj by congruence. by apply (Ha j). }
  assert (Hthis : this s' = this s ∨
    this s' = {| ws := ws (this s); options := options (this s);
                 _state := connected; reconnectAttempts := 0;
                 reconnectTimer := reconnectTimer (this s);
                 pingTimer := Some (pingInterval (options (this s)));
                 pendingRequests := pendingRequests (this s);
                 intentionalClose := intentionalClose (this s) |}).
  { revert Hopen. unfold sock_open.
    destruct (sockets (rt s) !! i) as [sk|] eqn:Hsk; [|done].
    case_decide as Hr; [|done]. destruct (onOpen sk) eqn:Hl.
    - destruct (sock_open_spec i s sk Hsk Hr Hl) as (s0 & H0 & Hthis & _).
      unfold sock_open in H0. rewrite Hsk, Hl, decide_True in H0 by done.
      rewrite H0. intros [= <-]. by right.
    - intros [= <-]. left. apply set_readyState_this. }
  unfold consistent. destruct Hthis as [->| ->]; simpl.
  - split_and!; try done. intros _. exists i; by split; [|left].
  - rewrite Hws. split_and!; try done.
    all: try (by rewrite <- Hws).
    all: try (by intros [?|?]).
    all: intros _; exists i; by split; [|left].
Qed.

Lemma consistent_sock_close (i : nat) (s s' : state) :
  consistent s → sock_close i s = Some s' → consistent s'.
Proof.
  intros (Ha & _) Hclose. revert Hclose. unfold sock_close.
  repeat case_match; try done. intros [= <-].
  apply consistent_handleClose. intros j r.
  rewrite readyStates_set_readyState, set_readyState_this.
  destruct (decide (j = i)) as [->|Hne].
  - intros Hj _. apply list_lookup_insert_Some in Hj as [[_ [<- _]]|[? _]];
      [|done]. intros [?|?]; done.
  - rewrite list_lookup_insert_ne by done. apply Ha.
Qed.

Lemma consistent_sock_closing (i : nat) (s s' : state) :
  consistent s → sock_closing i s = Some s' → consistent s'.
Proof.
  intros (Ha & Hb & Hc & Hd) [-> (sk & Hsk & Hr)]%sock_closing_spec.
  unfold consistent.
  rewrite set_readyState_this, readyStates_set_readyState.
  split_and!; try done.
  - intros j r Hj Hne. destruct (decide (j = i)) as [->|Hji].
    + apply list_lookup_insert_Some in Hj as [[_ [<- _]]|[? _]]; [|done].
      intros [?|?]; done.
    + rewrite list_lookup_insert_ne in Hj by done. by apply (Ha j).
  - intros Hst. destruct (Hc Hst) as (j & Hws & Hj). exists j.
    split; [done|]. destruct (decide (j = i)) as [->|Hji].
    + right. apply list_lookup_insert_eq.
      unfold readyStates. rewrite length_fmap. by eapply lookup_lt_Some.
    + by rewrite list_lookup_insert_ne.
Qed.

(** Every event of a socket or a timer and every call keeps the manager
    consistent. *)
Lemma consistent_step (ev : event) (s s' : state) :
  consistent s → step ev s = Some s' → consistent s'.
Proof.
  intros Hcons.
  destruct ev as [i|i|i|i frame|ctor|t| |ctor| |m|q id ms|i]; simpl.
  - by apply consistent_sock_open.
  - intros H. apply (consistent_same s); [by apply (same_connection_sock_error i)|done].
  - by apply consistent_sock_close.
  - unfold sock_message. repeat case_match; try done. intros [= <-].
    apply (consistent_same s); [by apply same_connection_handleMessage|done].
  - unfold fire_reconnect. case_match; [|done]. intros [= <-].
    unfold reconnect_callback. apply consistent_connect.
    apply (consistent_same s); [by repeat split|done].
  - unfold fire_timeout. repeat case_match; try done. intros [= <-].
    apply (consistent_same s); [|done]. unfold timeout_callback, reject.
    unfold same_connection, readyStates.
    by rewrite settle_this, settle_sockets.
  - unfold fire_ping, ping_callback.
    repeat case_match; try done; intros [= <-]; try done.
    apply (consistent_same s); [by apply same_connection_send|done].
  - intros [= <-]. by apply consistent_connect.
  - intros [= <-]. by apply consistent_disconnect.
  - intros [= <-]. apply (consistent_same s); [by apply same_connection_send|done].
  - intros [= <-]. apply (consistent_same s); [by apply same_connection_request|done].
  - by apply consistent_sock_closing.
Qed.

Lemma consistent_run (evs : list event) (s s' : state) :
  consistent s → run evs s = Some s' → consistent s'.
Proof.
  revert s. induction evs as [|ev evs IH]; intros s Hcons; simpl.
  - by intros [= <-].
  - destruct (step ev s) as [s1|] eqn:Hstep; [|done].
    apply IH. by apply (consistent_step ev s).
Qed.


Lemma readyStates_lookup (s : state) (i : nat) (r : ReadyState) :
  readyStates s !! i = Some r ↔
  ∃ sk, sockets (rt s) !! i = Some sk ∧ readyState sk = r.
Proof.
  unfold readyStates. rewrite list_lookup_fmap.
  destruct (sockets (rt s) !! i) as [sk|]; simpl.
  - split; [intros [= <-]; by exists sk|by intros (? & [= <-] & <-)].
  - split; [done|by intros (? & ? & _)].
Qed.

(** X1. Whatever the sockets, the timers and the callers do to a new
    manager, at most one of the sockets it has made is connecting or open,
    and that one is the socket the manager holds. *)
Theorem single_live_socket
    (o : WSManagerOptions) (evs : list event) (s : state)
    (i j : nat) (ri rj : ReadyState) :
  run evs (new_manager o) = Some s →
  readyStates s !! i = Some ri → live ri →
  readyStates s !! j = Some rj → live rj →
  i = j ∧ ws (this s) = Some i.
Proof.
  intros Hrun Hi Hli Hj Hlj.
  destruct (consistent_run evs _ s (consistent_new_manager o) Hrun)
    as (Ha & _).
  assert (Hwi : ws (this s) = Some i).
  { destruct (decide (ws (this s) = Some i)) as [|Hne]; [done|].
    by destruct (Ha i ri Hi Hne). }
  assert (Hwj : ws (this s) = Some j).
  { destruct (decide (ws (this s) = Some j)) as [|Hne]; [done|].
    by destruct (Ha j rj Hj Hne). }
  split; [congruence|done].
Qed.

(** X2. In every state a new manager can reach: while the state is
    [connected], the manager holds a socket that is open or, once the peer
    has started the closing handshake, closing; [send] does not throw and
    writes the frame, once, to that socket when it is open, and throws and
    writes nothing when it is closing. While the state is [disconnected]
    or [reconnecting], [send] throws and writes nothing. *)
Theorem send_follows_connection_state
    (o : WSManagerOptions) (evs : list event) (s : state)
    (m : ClientMessage) :
  run evs (new_manager o) = Some s →
  (_state (this s) = connected →
   ∃ i r, ws (this s) = Some i ∧ readyStates s !! i = Some r ∧
          (r = OPEN ∨ r = CLOSING) ∧
          send m s =
            if decide (r = OPEN)
            then (None, set_sent (sent (rt s) ++ [(i, m)]) s)
            else (Some "WebSocket is not connected", s)) ∧
  (_state (this s) = disconnected ∨ _state (this s) = reconnecting →
   send m s = (Some "WebSocket is not connected", s)).
Proof.
  intros Hrun.
  destruct (consistent_run evs _ s (consistent_new_manager o) Hrun)
    as (_ & Hb & Hc & _).
  split.
  - intros Hst. destruct (Hc Hst) as (i & Hws & Hi).
    assert (∃ r, readyStates s !! i = Some r ∧ (r = OPEN ∨ r = CLOSING))
      as (r & Hr & Hor).
    { destruct Hi as [Hi|Hi]; [exists OPEN|exists CLOSING]; tauto. }
    exists i, r. split_and!; try done.
    apply readyStates_lookup in Hr as (sk & Hsk & Hr).
    unfold send. rewrite Hws, Hsk, Hr. by destruct Hor as [->| ->].
  - intros Hst. unfold send. by rewrite (Hb Hst).
Qed.

(** X3. In every state a new manager can reach, the keepalive timer is
    armed exactly while the state is [connected]. Each of its ticks writes
    one [ping] frame to the socket the manager holds and changes nothing
    else when that socket is open, and does nothing at all when the socket
    is closing, which it is once the peer has started the closing
    handshake. *)
Theorem keepalive_runs_while_connected
    (o : WSManagerOptions) (evs : list event) (s : state) :
  run evs (new_manager o) = Some s →
  (pingTimer (this s) ≠ None ↔ _state (this s) = connected) ∧
  (_state (this s) = connected →
   ∃ i r, ws (this s) = Some i ∧ readyStates s !! i = Some r ∧
          (r = OPEN ∨ r = CLOSING) ∧
          fire_ping s =
            Some (if decide (r = OPEN)
                  then set_sent (sent (rt s) ++ [(i, Ping)]) s else s)) ∧
  (_state (this s) ≠ connected → fire_ping s = None).
Proof.
  intros Hrun.
  destruct (consistent_run evs _ s (consistent_new_manager o) Hrun)
    as (_ & _ & Hc & Hd).
  split_and!; [done| |].
  - intros Hst. destruct (Hc Hst) as (i & Hws & Hi).
    assert (∃ r, readyStates s !! i = Some r ∧ (r = OPEN ∨ r = CLOSING))
      as (r & Hr & Hor).
    { destruct Hi as [Hi|Hi]; [exists OPEN|exists CLOSING]; tauto. }
    exists i, r. split_and!; try done.
    apply readyStates_lookup in Hr as (sk & Hsk & Hr).
    unfold fire_ping, ping_callback, send.
    destruct (pingTimer (this s)) eqn:Hp; [|by apply Hd in Hst].
    rewrite Hws, Hsk, Hr. by destruct Hor as [->| ->].
  - intros Hst. unfold fire_ping.
    destruct (pingTimer (this s)) eqn:Hp; [|done].
    destruct Hst. by apply Hd.
Qed.

End TransportInvariants.

(** ** Requests, timers and reconnection *)

Section TransportBehaviour.

Import Transport.

Lemma map_get_delete_ne {V : Type} (k k' : string) (m : list (string * V)) :
  k' ≠ k → map_get k' (map_delete k m) = map_get k' m.
Proof.
  intros Hne. unfold map_delete.
  induction m as [|[k0 w] m IH]; simpl; [done|].
  destruct (decide (k0 = k)) as [->|Hk].
  - rewrite filter_cons_False by (simpl; by intros H).
    by rewrite decide_False.
  - rewrite filter_cons_True by done. simpl. by rewrite IH.
Qed.

Lemma map_get_set_eq {V : Type} (k : string) (v : V) (m : list (string * V)) :
  map_get k (map_set k v m) = Some v.
Proof.
  induction m as [|[k0 w] m IH]; simpl.
  - by rewrite decide_True.
  - destruct (decide (k0 = k)) as [->|Hk]; simpl.
    + by rewrite decide_True.
    + by rewrite decide_False.
Qed.

Lemma map_get_set_ne {V : Type} (k k' : string) (v : V)
    (m : list (string * V)) :
  k' ≠ k → map_get k' (map_set k v m) = map_get k' m.
Proof.
  intros Hne. induction m as [|[k0 w] m IH]; simpl.
  - by rewrite decide_False.
  - destruct (decide (k0 = k)) as [->|Hk]; simpl.
    + by rewrite !decide_False.
    + by rewrite IH.
Qed.

Lemma clearTimeout_timeouts (t t' : nat) (c : Timeout) (s : state) :
  (t', c) ∈ timeouts (rt (clearTimeout t s)) ↔
  t' ≠ t ∧ (t', c) ∈ timeouts (rt s).
Proof. unfold clearTimeout. simpl. by rewrite list_elem_of_filter. Qed.

(** X4. A response frame that matches a pending request settles the
    promise of that request and of no other: resolved with the result when
    [success] holds, rejected with the error of the server otherwise; the
    entry is removed and its timer cancelled, the other entries and timers
    stay, and the frame is not published. When [success] holds and the
    frame has no [data], the entry and the timer are gone and the promise
    is left pending. *)
Theorem response_settles_its_request
    (s : state) (id : string) (success : bool) (result : option value)
    (err : string) (pending : PendingRequest) :
  map_get id (pendingRequests (this s)) = Some pending →
  let s' := handleMessage (Some (Response id success result err)) s in
  map_get id (pendingRequests (this s')) = None ∧
  (∀ id', id' ≠ id → map_get id' (pendingRequests (this s')) =
                     map_get id' (pendingRequests (this s))) ∧
  (∀ t c, (t, c) ∈ timeouts (rt s') ↔
          t ≠ pr_timeout pending ∧ (t, c) ∈ timeouts (rt s)) ∧
  emitted (rt s') = emitted (rt s) ∧
  (∀ q, q ≠ pr_promise pending →
        promises (rt s') !! q = promises (rt s) !! q) ∧
  (promises (rt s) !! pr_promise pending = Some Pending →
   promises (rt s') !! pr_promise pending =
   Some (if success
         then match result with Some v => Resolved v | None => Pending end
         else Rejected err)).
Proof.
  intros Hget s'. subst s'. unfold handleMessage. rewrite Hget.
  set (s1 := set_pendingRequests _ (clearTimeout _ s)).
  assert (H1 : map_get id (pendingRequests (this s1)) = None)
    by apply map_get_delete.
  assert (H2 : ∀ id', id' ≠ id → map_get id' (pendingRequests (this s1)) =
                                 map_get id' (pendingRequests (this s))).
  { intros id' Hne. by apply map_get_delete_ne. }
  assert (H3 : ∀ t c, (t, c) ∈ timeouts (rt s1) ↔
                      t ≠ pr_timeout pending ∧ (t, c) ∈ timeouts (rt s)).
  { intros t c. apply clearTimeout_timeouts. }
  destruct success; [destruct result as [v|]|]; unfold resolve, reject;
    rewrite ?settle_this, ?settle_timeouts, ?settle_emitted;
    (split_and!; [done|done|done|done| |]).
  - intros q Hq. rewrite settle_promises. by rewrite decide_False by tauto.
  - intros Hp. rewrite settle_promises. by rewrite decide_True.
  - done.
  - done.
  - intros q Hq. rewrite settle_promises. by rewrite decide_False by tauto.
  - intros Hp. rewrite settle_promises. by rewrite decide_True.
Qed.

(** X5. A request whose frame is written and whose identifier is fresh,
    followed by the response that carries its identifier, resolves the
    promise of the request with the result of the response; the table of
    pending requests and the armed timers are as before the request, one
    query frame has been written and nothing has been published. *)
Theorem request_response_round_trip
    (s : state) (q : query) (id : string) (timeoutMs : Z) (v : value)
    (err : string) :
  (send (Query id q) s).1 = None →
  map_get id (pendingRequests (this s)) = None →
  let p := (request q id timeoutMs s).1 in
  let s1 := (request q id timeoutMs s).2 in
  let s2 := handleMessage (Some (Response id true (Some v) err)) s1 in
  promises (rt s1) !! p = Some Pending ∧
  map_get id (pendingRequests (this s1)) =
    Some (mkPending p (timer_count (rt s))) ∧
  promises (rt s2) !! p = Some (Resolved v) ∧
  pendingRequests (this s2) = pendingRequests (this s) ∧
  (∀ t c, (t, c) ∈ timeouts (rt s2) ↔
          t ≠ timer_count (rt s) ∧ (t, c) ∈ timeouts (rt s)) ∧
  (∃ i, ws (this s) = Some i ∧
        sent (rt s2) = sent (rt s) ++ [(i, Query id q)]) ∧
  emitted (rt s2) = emitted (rt s).
Proof.
  intros Hsend Hfresh p s1 s2. subst p s1 s2.
  unfold request, new_promise, setTimeout. cbn -[send handleMessage].
  set (s0 := set_pendingRequests _ _).
  assert (Hs0 : (send (Query id q) s0).1 = None).
  { rewrite <- Hsend. by apply send_depends_on_socket. }
  assert (Hsent : ∃ i, ws (this s) = Some i ∧
            (send (Query id q) s0).2 =
            set_sent (sent (rt s0) ++ [(i, Query id q)]) s0).
  { revert Hs0. unfold send.
    change (ws (this s0)) with (ws (this s)).
    destruct (ws (this s)) as [i|]; [|done].
    destruct (sockets (rt s0) !! i); [|done].
    case_decide; [|done]. intros _. by exists i. }
  destruct Hsent as (i & Hws & Hs1).
  destruct (send (Query id q) s0) as [[e|] s1]; simpl in *; [done|].
  subst s1. set (s1 := set_sent _ s0).
  assert (Hget : map_get id (pendingRequests (this s1)) =
                 Some (mkPending (length (promises (rt s)))
                         (timer_count (rt s)))).
  { unfold s1, s0. simpl. apply map_get_set_eq. }
  assert (Hp : promises (rt s1) !! length (promises (rt s)) = Some Pending).
  { unfold s1, s0. simpl. apply lookup_snoc_eq. }
  unfold handleMessage. rewrite Hget. simpl pr_promise. simpl pr_timeout.
  unfold resolve. rewrite settle_this, settle_promises, settle_timeouts,
    settle_sent, settle_emitted.
  split_and!; try done.
  - by rewrite decide_True.
  - unfold s1, s0. simpl. by apply map_delete_set_fresh.
  - intros t c. unfold s1, s0. simpl.
    rewrite list_elem_of_filter, elem_of_app, list_elem_of_singleton.
    simpl. split; [|tauto]. intros [Hne [H|[= -> _]]]; done.
  - by exists i.
Qed.

Lemma list_find_handle (l : list (nat * Timeout)) (t : nat) (c : Timeout) :
  NoDup l.*1 → (t, c) ∈ l →
  ∃ k, list_find (λ x, x.1 = t) l = Some (k, (t, c)).
Proof.
  induction l as [|[t0 c0] l IH]; simpl; intros Hnd Hin.
  - by apply elem_of_nil in Hin.
  - apply NoDup_cons in Hnd as [Hnotin Hnd]. simpl.
    destruct (decide (t0 = t)) as [->|Hne].
    + apply elem_of_cons in Hin as [[= <-]|Hin]; [by exists 0|].
      destruct Hnotin. apply list_elem_of_fmap. by exists (t, c).
    + apply elem_of_cons in Hin as [[= <- _]|Hin]; [done|].
      destruct (IH Hnd Hin) as [k ->]. by exists (S k).
Qed.

(** X6. The expiry of the timer of a request rejects the promise of that
    request with [Request timeout: <query>] and settles no other promise;
    it removes the entry of the request and no other, disarms that timer
    and no other, publishes and writes nothing, and leaves the connection
    as it is. *)
Theorem timeout_rejects_only_its_request
    (s : state) (t : nat) (c : Timeout) :
  NoDup (timeouts (rt s)).*1 → (t, c) ∈ timeouts (rt s) →
  ∃ s', fire_timeout t s = Some s' ∧
    (promises (rt s) !! to_promise c = Some Pending →
     promises (rt s') !! to_promise c =
     Some (Rejected ("Request timeout: " ++ query_name (to_query c))%string)) ∧
    (∀ q, q ≠ to_promise c →
          promises (rt s') !! q = promises (rt s) !! q) ∧
    map_get (to_id c) (pendingRequests (this s')) = None ∧
    (∀ id', id' ≠ to_id c →
            map_get id' (pendingRequests (this s')) =
            map_get id' (pendingRequests (this s))) ∧
    (∀ t' c', (t', c') ∈ timeouts (rt s') ↔
              t' ≠ t ∧ (t', c') ∈ timeouts (rt s)) ∧
    emitted (rt s') = emitted (rt s) ∧ sent (rt s') = sent (rt s) ∧
    same_connection s s'.
Proof.
  intros Hnd Hin. destruct (list_find_handle _ t c Hnd Hin) as [k Hfind].
  unfold fire_timeout. rewrite Hfind. eexists. split; [done|].
  unfold timeout_callback, reject.
  rewrite settle_this, settle_timeouts, settle_emitted, settle_sent.
  split_and!; try done.
  - intros Hp. rewrite settle_promises. by rewrite decide_True.
  - intros q Hq. rewrite settle_promises. by rewrite decide_False by tauto.
  - apply map_get_delete.
  - intros id' Hne. by apply map_get_delete_ne.
  - intros t' c'. apply clearTimeout_timeouts.
  - unfold same_connection, readyStates.
    by rewrite settle_this, settle_sockets.
Qed.

Lemma handleClose_rt (s : state) :
  promises (rt (handleClose s)) = promises (rt (cleanup s)) ∧
  timeouts (rt (handleClose s)) = timeouts (rt (cleanup s)) ∧
  sent (rt (handleClose s)) = sent (rt (cleanup s)).
Proof.
  unfold handleClose, scheduleReconnect.
  repeat case_match; simpl;
    by destruct (setState_rt disconnected (cleanup s)) as (_ & -> & -> & ->)
    || by destruct (setState_rt disconnected (emit EvClose (cleanup s)))
         as (_ & -> & -> & ->)
    || by destruct (setState_rt reconnecting (emit EvClose (cleanup s)))
         as (_ & -> & -> & ->)
    || done.
Qed.

Lemma handleClose_unintended_emitted (s : state) :
  intentionalClose (this s) = false →
  emitted (rt (handleClose s)) =
  emitted (rt s) ++ EvClose ::
  (let target := if reconnect (options (this s))
                 then reconnecting else disconnected in
   if decide (_state (this s) = target) then [] else [EvStatechange target]).
Proof.
  intros Hic. unfold handleClose.
  pose proof (cleanup_this s) as Hc. rewrite Hic in Hc.
  pose proof (cleanup_emitted s) as He.
  rewrite Hc. simpl. rewrite Hc. simpl.
  destruct (reconnect (options (this s))).
  - unfold scheduleReconnect. simpl. rewrite Hc. simpl.
    rewrite setState_emitted. simpl. rewrite Hc, He. simpl.
    by rewrite <- app_assoc.
  - rewrite setState_emitted. simpl. rewrite Hc, He. simpl.
    by rewrite <- app_assoc.
Qed.

(** X7. When a socket closes and [disconnect()] has not been called, the
    promise of every pending request is rejected with [WebSocket
    disconnected], the table is emptied and the timers of the requests
    are cancelled, the keepalive timer is stopped and the socket let go;
    [close] is published, and then the change of state to [reconnecting]
    or, with auto-reconnect disabled, to [disconnected]. *)
Theorem connection_loss_rejects_pending
    (s : state) (i : nat) (sk : WebSocket) :
  sockets (rt s) !! i = Some sk → readyState sk ≠ CLOSED →
  intentionalClose (this s) = false →
  ∃ s', sock_close i s = Some s' ∧
    (∀ id pending,
       (id, pending) ∈ pendingRequests (this s) →
       promises (rt s) !! pr_promise pending = Some Pending →
       promises (rt s') !! pr_promise pending =
       Some (Rejected "WebSocket disconnected")) ∧
    (∀ id pending c,
       (id, pending) ∈ pendingRequests (this s) →
       (pr_timeout pending, c) ∉ timeouts (rt s')) ∧
    pendingRequests (this s') = [] ∧
    pingTimer (this s') = None ∧ ws (this s') = None ∧
    emitted (rt s') =
    emitted (rt s) ++ EvClose ::
    (let target := if reconnect (options (this s))
                   then reconnecting else disconnected in
     if decide (_state (this s) = target) then []
     else [EvStatechange target]).
Proof.
  intros Hsk Hrs Hic. unfold sock_close. rewrite Hsk.
  rewrite decide_False by done. eexists. split; [done|].
  set (s1 := set_readyState i CLOSED s).
  assert (Hthis1 : this s1 = this s) by apply set_readyState_this.
  assert (Hpm1 : promises (rt s1) = promises (rt s))
    by apply set_readyState_promises.
  assert (Hrt : rt (reject_all (pendingRequests (this s)) s1) =
                rt (reject_all (pendingRequests (this s))
                      (mkState (this s) (rt s1)))).
  { by apply reject_all_rt. }
  destruct (handleClose_rt s1) as (Hp & Ht & _).
  destruct (cleanup_rt s1) as (Hp' & Ht' & _).
  rewrite Hthis1 in Hp', Ht'.
  rewrite handleClose_unintended by by rewrite Hthis1.
  rewrite handleClose_unintended_emitted by by rewrite Hthis1.
  assert (Hem1 : emitted (rt s1) = emitted (rt s))
    by apply set_readyState_emitted.
  rewrite Hthis1, Hem1. simpl.
  split_and!; try done.
  - intros id pending Hin Hpend. rewrite Hp, Hp'.
    apply (reject_all_rejects _ _ id); [done|]. by rewrite Hpm1.
  - intros id pending c Hin Hc. rewrite Ht, Ht' in Hc.
    apply reject_all_timeouts in Hc as [_ Hc]. by apply (Hc id pending).
Qed.

(** X8. A retry that opens ends the backoff: the state is [connected],
    the counter of reconnects is zero, no reconnect timer is armed and the
    keepalive timer is; when that socket is lost in turn, the first retry
    is scheduled after the base delay again (or the ceiling, if lower). *)
Theorem successful_retry_resets_backoff (s : state) (d : Z) :
  reconnect (options (this s)) = true →
  reconnectTimer (this s) = Some d →
  _state (this s) ≠ connected → _state (this s) ≠ connecting →
  let i := length (sockets (rt s)) in
  let o := options (this s) in
  ∃ s1 s2,
    run [ReconnectTimer None; SockOpen i] s = Some s1 ∧
    _state (this s1) = connected ∧ reconnectAttempts (this s1) = 0 ∧
    reconnectTimer (this s1) = None ∧
    pingTimer (this s1) = Some (pingInterval o) ∧
    sock_close i s1 = Some s2 ∧
    _state (this s2) = reconnecting ∧
    reconnectTimer (this s2) =
    Some (Z.min (reconnectDelay o) (maxReconnectDelay o)).
Proof.
  intros Hrec Htimer Hst1 Hst2 i o. cbn [run step].
  unfold fire_reconnect. rewrite Htimer. unfold reconnect_callback.
  set (s0 := set_reconnectAttempts _ (set_reconnectTimer None s)).
  destruct (connect_fresh_spec s0) as (_ & Hthis1 & Hsk1 & _); [done..|].
  set (sc := (connect None s0).2) in *.
  assert (Hi : sockets (rt sc) !! i =
               Some (mkSocket CONNECTING (length (promises (rt s0)))
                       true true)).
  { rewrite Hsk1. apply lookup_snoc_eq. }
  destruct (sock_open_spec i sc _ Hi) as (s1 & Hopen & Hthis & _ & _);
    [done..|].
  pose proof (readyStates_sock_open i sc s1 Hopen) as Hrs.
  assert (Hopen1 : readyStates s1 !! i = Some OPEN).
  { rewrite Hrs. apply list_lookup_insert_eq.
    unfold readyStates. rewrite length_fmap. by eapply lookup_lt_Some. }
  apply readyStates_lookup in Hopen1 as (sk1 & Hsk & Hr).
  destruct (sock_close_unintended i s1 sk1 Hsk) as (s2 & Hclose & Hthis2);
    [by rewrite Hr|by rewrite Hthis, Hthis1|].
  exists s1, s2. rewrite Hopen. split; [done|].
  rewrite Hthis2, Hthis. simpl. rewrite Hthis1. simpl. rewrite Hrec.
  split_and!; try done.
  unfold backoff. simpl. by rewrite Z.mul_1_r.
Qed.

(** X9. With a positive base delay and a ceiling that is not negative,
    the delay before a retry is never negative, never above the ceiling
    and never shorter than the delay before the retry that came before
    it, and it is the ceiling from some retry on. *)
Theorem backoff_grows_to_the_ceiling (o : WSManagerOptions) :
  (0 < reconnectDelay o)%Z → (0 ≤ maxReconnectDelay o)%Z →
  (∀ n, (0 ≤ backoff o n ≤ maxReconnectDelay o)%Z ∧
        (backoff o n ≤ backoff o (S n))%Z) ∧
  (∀ n : nat, (Z.to_nat (maxReconnectDelay o) ≤ n)%nat →
              backoff o n = maxReconnectDelay o).
Proof.
  intros Hbase Hmax. unfold backoff. split.
  - intros n.
    assert (H2 : (0 < 2 ^ Z.of_nat n)%Z) by (apply Z.pow_pos_nonneg; lia).
    assert (Hs : (2 ^ Z.of_nat (S n) = 2 * 2 ^ Z.of_nat n)%Z).
    { rewrite Nat2Z.inj_succ. apply Z.pow_succ_r. lia. }
    rewrite Hs. nia.
  - intros n Hn.
    assert (Hlin : (Z.of_nat n < 2 ^ Z.of_nat n)%Z).
    { apply Z.pow_gt_lin_r; lia. }
    apply Z.min_r. nia.
Qed.

(** Setting the state publishes [statechange] when the state
    changes and only then: setting the same state a second time changes
    nothing and publishes nothing. *)
Lemma setState_publishes_changes_only (st : ConnectionState) (s : state) :
  setState st (setState st s) = setState st s ∧
  _state (this (setState st s)) = st ∧
  emitted (rt (setState st s)) =
  emitted (rt s) ++
  (if decide (_state (this s) = st) then [] else [EvStatechange st]).
Proof.
  split_and!.
  - destruct (decide (_state (this s) = st)) as [Heq|Hne].
    + assert (H : setState st s = s).
      { unfold setState. by rewrite decide_True. }
      by rewrite !H.
    + unfold setState at 1. rewrite decide_True; [done|].
      by rewrite setState_this.
  - by rewrite setState_this.
  - apply setState_emitted.
Qed.


(** X10. The close of a socket is not told apart by the socket it comes
    from. When the manager holds socket [j] and an earlier socket [i],
    closing since a [disconnect()] that a [connect()] has followed,
    reports its close, the connection over [j] is ended as if [j] had
    closed: [j] is closed by the manager, which lets it go, the pending
    requests are dropped, [close] is published and a reconnect is
    scheduled (or, with auto-reconnect disabled, the state is
    [disconnected]). *)
Theorem close_of_an_earlier_socket_ends_the_connection
    (s : state) (i j : nat) (ski skj : WebSocket) :
  ws (this s) = Some j → i ≠ j →
  sockets (rt s) !! i = Some ski → readyState ski ≠ CLOSED →
  sockets (rt s) !! j = Some skj → live (readyState skj) →
  intentionalClose (this s) = false →
  ∃ s', sock_close i s = Some s' ∧
    readyStates s' !! j = Some CLOSING ∧
    ws (this s') = None ∧ pingTimer (this s') = None ∧
    pendingRequests (this s') = [] ∧
    _state (this s') =
      (if reconnect (options (this s)) then reconnecting else disconnected) ∧
    reconnectTimer (this s') =
      (if reconnect (options (this s))
       then Some (backoff (options (this s)) (reconnectAttempts (this s)))
       else None) ∧
    EvClose ∈ drop (length (emitted (rt s))) (emitted (rt s')).
Proof.
  intros Hws Hij Hski Hrsi Hskj Hlive Hic.
  destruct (sock_close_unintended i s ski Hski Hrsi Hic) as (s' & Hclose & Hthis).
  exists s'. split; [done|].
  assert (Hs' : s' = handleClose (set_readyState i CLOSED s)).
  { unfold sock_close in Hclose. rewrite Hski in Hclose.
    rewrite decide_False in Hclose by done. by injection Hclose as <-. }
  rewrite Hthis. cbn. split_and!; try done.
  - rewrite Hs', readyStates_handleClose.
    assert (Hj : sockets (rt (set_readyState i CLOSED s)) !! j = Some skj).
    { unfold set_readyState. rewrite Hski. cbn.
      by rewrite list_lookup_insert_ne. }
    destruct (cleanup_closes_socket (set_readyState i CLOSED s) j skj)
      as (sk' & Hsk' & Hr').
    + by rewrite set_readyState_this.
    + done.
    + destruct Hlive; tauto.
    + apply readyStates_lookup. by exists sk'.
  - rewrite Hs', handleClose_unintended_emitted
      by by rewrite set_readyState_this.
    rewrite set_readyState_emitted, drop_app_length. by left.
Qed.

End TransportBehaviour.

(** ** Subscribing and unsubscribing *)

Section EmitterBehaviour.

Import Events.

Context {payload : Type}.
Variable acts : nat → payload → EventEmitter → list action.
Variable throws : nat → payload → bool.

Lemma set_add_idem (h : handler) (hs : list handler) :
  set_add h (set_add h hs) = set_add h hs.
Proof.
  unfold set_add. destruct (decide (h ∈ hs)) as [Hin|Hin].
  - by rewrite decide_True.
  - rewrite decide_True; [done|].
    apply elem_of_app. right. by apply list_elem_of_singleton.
Qed.

(** X11. Subscribing a handler that is subscribed already changes
    nothing: the emitter after the second [on] is the emitter after the
    first, and the number of listeners has gone up by one for a new
    handler and not at all for a known one. *)
Theorem on_is_idempotent (ev : string) (h : handler) (e : EventEmitter) :
  on ev h (on ev h e) = on ev h e ∧
  listenerCount ev (on ev h e) =
  (if decide (h ∈ registered ev e)
   then listenerCount ev e else S (listenerCount ev e)) ∧
  (∀ ev', ev' ≠ ev → registered ev' (on ev h e) = registered ev' e).
Proof.
  split_and!.
  - unfold on at 1. rewrite registered_on, decide_True by done.
    rewrite set_add_idem. unfold on. simpl. by rewrite insert_insert_eq.
  - assert (Hon : registered ev (on ev h e) = set_add h (registered ev e)).
    { by rewrite registered_on, decide_True. }
    unfold listenerCount. rewrite Hon.
    unfold set_add. case_decide; [done|]. rewrite length_app. simpl. lia.
  - intros ev' Hne. by rewrite registered_on, decide_False.
Qed.

Lemma length_set_delete (h : handler) (hs : list handler) :
  NoDup hs → h ∈ hs → S (length (set_delete h hs)) = length hs.
Proof.
  unfold set_delete. induction hs as [|x hs IH]; intros Hnd Hin.
  - by apply elem_of_nil in Hin.
  - apply NoDup_cons in Hnd as [Hx Hnd].
    destruct (decide (x = h)) as [->|Hne].
    + rewrite filter_cons_False by (by intros H).
      rewrite filter_all; [done|]. intros y Hy ->. done.
    + rewrite filter_cons_True by done. simpl.
      apply elem_of_cons in Hin as [->|Hin]; [done|].
      by rewrite IH.
Qed.

(** X12. [off] removes the handler it is given and no other: the other
    handlers of the event keep their order and the other events their
    handlers; the number of listeners goes down by one when the handler
    was subscribed and stays when it was not; and subscribing a new
    handler and unsubscribing it again gives back the handlers there
    were. *)
Theorem off_removes_one_handler (ev : string) (h : handler) (e : EventEmitter) :
  wf e →
  registered ev (off ev h e) = filter (λ x, x ≠ h) (registered ev e) ∧
  (∀ ev', ev' ≠ ev → registered ev' (off ev h e) = registered ev' e) ∧
  listenerCount ev e =
  (if decide (h ∈ registered ev e)
   then S (listenerCount ev (off ev h e))
   else listenerCount ev (off ev h e)) ∧
  (h ∉ registered ev e →
   registered ev (off ev h (on ev h e)) = registered ev e).
Proof.
  intros Hwf. destruct (wf_registered e ev Hwf) as [Hnd _].
  assert (Hoff : registered ev (off ev h e) =
                 set_delete h (registered ev e)).
  { by rewrite registered_off, decide_True. }
  split_and!.
  - done.
  - intros ev' Hne. by rewrite registered_off, decide_False.
  - unfold listenerCount. rewrite Hoff.
    case_decide as Hin.
    + by rewrite length_set_delete.
    + unfold set_delete. rewrite filter_all; [done|]. by intros y Hy ->.
  - intros Hin. rewrite registered_off, decide_True by done.
    rewrite registered_on, decide_True by done.
    unfold set_add, set_delete. rewrite decide_False by done.
    rewrite filter_app, filter_cons_False, filter_nil, app_nil_r
      by (by intros H).
    apply filter_all. by intros y Hy ->.
Qed.

(** Handlers that call nothing leave the other events alone. *)
Lemma forEach_silent (fuel : nat) (ev : string) (d : payload) (w : walk)
    (e' : EventEmitter) (effs : list effect) :
  walk_ok ev w →
  (∀ h e0, h ∈ todo w → acts (callee h) d e0 = []) →
  forEach acts throws fuel ev d w = Some (e', effs) →
  ∀ ev', ev' ≠ ev → registered ev' e' = registered ev' (emitter w).
Proof.
  revert w e' effs.
  induction fuel as [|fuel IH]; intros [e [|h rest] b] e' effs Hok Hs;
    rewrite ?forEach_nil, ?forEach_out_of_fuel, ?forEach_cons;
    try done; try (by intros [= <- _]).
  pose proof Hok as (Hwf & Hnd & Hc & Hsub). simpl in Hwf, Hnd, Hc, Hsub.
  pose proof (call_ok acts throws ev h d _ (pop_ok ev e h rest b Hok))
    as Hok1.
  assert (Hcall : ∀ ev', ev' ≠ ev →
    registered ev'
      (emitter (call acts throws ev h d (mkWalk e rest b)).1) =
    registered ev' e).
  { intros ev' Hne. unfold call. simpl. rewrite Hs by by left. simpl.
    destruct h as [f|c ev0 f]; simpl; [done|].
    destruct (Hc c ev0 f) as [-> _]; [by left|].
    by rewrite registered_off, decide_False. }
  assert (Htodo : ∀ x,
    x ∈ todo (call acts throws ev h d (mkWalk e rest b)).1 → x ∈ rest).
  { intros x. unfold call. simpl. rewrite Hs by by left. simpl.
    destruct h as [f|c ev0 f]; simpl; [done|].
    case_decide; [|done]. by intros [? _]%elem_of_set_delete. }
  destruct (forEach acts throws fuel ev d
              (call acts throws ev h d (mkWalk e rest b)).1)
    as [[e2 effs2]|] eqn:Hf; [|done].
  intros [= <- _] ev' Hne. simpl.
  rewrite (IH _ e2 effs2 Hok1) by
    (done || (intros x e0 Hx; apply Hs; right; by apply Htodo)).
  by apply Hcall.
Qed.

(** X13. When the handlers of an event leave the handlers of that event
    alone while they are called, the publication returns and the handlers
    of the event are then the ones subscribed with [on], in their order:
    every closure made by [once] has been removed, and nothing else. When
    the handlers call nothing, the handlers of the other events are as
    before. *)
Theorem emit_drops_exactly_the_once_handlers
    (ev : string) (d : payload) (e : EventEmitter) (fuel : nat) :
  wf e → (∀ h, h ∈ registered ev e → quiet acts ev d h) →
  (length (registered ev e) ≤ fuel)%nat →
  ∃ e' effs,
    emit acts throws fuel ev d e = Some (e', effs) ∧
    registered ev e' =
      filter (λ h, is_once h = false) (registered ev e) ∧
    wf e' ∧
    ((∀ h e0, h ∈ registered ev e → acts (callee h) d e0 = []) →
     ∀ ev', ev' ≠ ev → registered ev' e' = registered ev' e).
Proof.
  intros Hwf Hq Hlen.
  destruct (emit_quiet acts throws fuel ev d e Hwf Hq Hlen)
    as (e' & Hemit & Hreg & Hwf').
  exists e', (flat_map (effects_of throws ev d) (registered ev e)).
  split_and!; try done.
  intros Hs ev' Hne. rewrite emit_forEach in Hemit.
  by rewrite (forEach_silent fuel ev d _ e' _ (emit_walk_ok ev e Hwf) Hs Hemit).
Qed.

(** X14. [removeAllListeners] with the name of an event leaves that event
    without listeners, so that a publication of it calls nothing, and
    leaves the other events alone; without a name, and also with the empty
    name, it leaves every event without listeners. *)
Theorem removeAllListeners_clears (ev : string) (d : payload)
    (e : EventEmitter) :
  (ev ≠ "" →
   let e' := removeAllListeners (Some ev) e in
   listenerCount ev e' = 0 ∧
   (∀ fuel, emit acts throws fuel ev d e' = Some (e', [])) ∧
   ∀ ev', ev' ≠ ev → registered ev' e' = registered ev' e) ∧
  (∀ ev', listenerCount ev' (removeAllListeners None e) = 0 ∧
          listenerCount ev' (removeAllListeners (Some "") e) = 0) ∧
  (wf e → ∀ o, wf (removeAllListeners o e)).
Proof.
  split_and!.
  - intros Hne e'. subst e'. unfold removeAllListeners.
    rewrite decide_False by done.
    unfold listenerCount, emit, registered. simpl.
    rewrite lookup_delete_eq. split_and!; try done.
    intros ev' Hev'. by rewrite lookup_delete_ne.
  - intros ev'. unfold removeAllListeners. rewrite decide_True by done.
    unfold listenerCount, registered. simpl. by rewrite lookup_empty.
  - intros Hwf o. by apply wf_removeAllListeners.
Qed.

(** X15. Each call of [once] subscribes a closure of its own. Whatever
    the handlers do while they are called, a function given to [once]
    twice is called twice by the next publication that returns, once by
    each closure; and [off] given the function does not unsubscribe the
    closure, which the next publication still calls. When the handlers
    leave the handlers of the event alone, these publications return, and
    the two closures are called after the handlers there were. *)
Theorem once_closures_are_handlers_of_their_own
    (ev : string) (f : nat) (d : payload) (e : EventEmitter) :
  wf e →
  let c := closures e in
  let h1 := OnceHandler c ev f in
  let h2 := OnceHandler (S c) ev f in
  (∀ fuel e' effs,
     emit acts throws fuel ev d (once ev f (once ev f e)) = Some (e', effs) →
     filter (λ x, x.1 = h1) (invocations effs) = [(h1, d)] ∧
     filter (λ x, x.1 = h2) (invocations effs) = [(h2, d)]) ∧
  (∀ fuel e' effs,
     emit acts throws fuel ev d (off ev (User f) (once ev f e)) =
       Some (e', effs) →
     filter (λ x, x.1 = h1) (invocations effs) = [(h1, d)]) ∧
  ((∀ h, h ∈ registered ev e → quiet acts ev d h) →
   quiet acts ev d (User f) →
   ∀ fuel, (length (registered ev e) + 2 ≤ fuel)%nat →
   ∃ e0 effs0 e2 effs2 e3 effs3,
     emit acts throws fuel ev d e = Some (e0, effs0) ∧
     emit acts throws fuel ev d (once ev f (once ev f e)) =
       Some (e2, effs2) ∧
     invocations effs2 = invocations effs0 ++ [(h1, d); (h2, d)] ∧
     emit acts throws fuel ev d (off ev (User f) (once ev f e)) =
       Some (e3, effs3) ∧
     (h1, d) ∈ invocations effs3).
Proof.
  intros Hwf c h1 h2. pose proof (wf_once ev f e Hwf) as Hwf1.
  pose proof (wf_once ev f _ Hwf1) as Hwf2.
  pose proof (wf_off ev (User f) _ Hwf1) as Hwf3.
  assert (Hreg1 : registered ev (once ev f e) = registered ev e ++ [h1])
    by by apply once_registered.
  assert (Hreg2 : registered ev (once ev f (once ev f e)) =
                  registered ev e ++ [h1; h2]).
  { rewrite once_registered, Hreg1 by done. by rewrite <- app_assoc. }
  assert (Hreg3 : registered ev (off ev (User f) (once ev f e)) =
                  set_delete (User f) (registered ev e) ++ [h1]).
  { rewrite registered_off, decide_True, Hreg1 by done.
    unfold set_delete. by rewrite filter_app. }
  split_and!.
  - intros fuel e' effs Hemit. split.
    + apply (emit_once acts throws fuel ev d _ e' effs c ev f Hwf2);
        [|done]. rewrite Hreg2. apply elem_of_app. right. by left.
    + apply (emit_once acts throws fuel ev d _ e' effs (S c) ev f Hwf2);
        [|done]. rewrite Hreg2. apply elem_of_app. right. right. by left.
  - intros fuel e' effs Hemit.
    apply (emit_once acts throws fuel ev d _ e' effs c ev f Hwf3); [|done].
    rewrite Hreg3. apply elem_of_app. right. by left.
  - intros Hq Hf fuel Hlen.
    assert (Hq' : ∀ h, h ∈ registered ev e ++ [h1; h2] →
                       quiet acts ev d h).
    { intros h [Hin|Hin]%elem_of_app; [by apply Hq|].
      apply elem_of_cons in Hin as [->|Hin]; [done|].
      by apply list_elem_of_singleton in Hin as ->. }
    destruct (emit_quiet acts throws fuel ev d e Hwf Hq)
      as (e0 & Hemit0 & _); [lia|].
    destruct (emit_quiet acts throws fuel ev d _ Hwf2) as (e2 & Hemit2 & _).
    { by rewrite Hreg2. }
    { rewrite Hreg2, length_app. simpl. lia. }
    destruct (emit_quiet acts throws fuel ev d _ Hwf3) as (e3 & Hemit3 & _).
    { rewrite Hreg3. intros h [[Hin _]%elem_of_set_delete|Hin]%elem_of_app;
        [by apply Hq|]. by apply list_elem_of_singleton in Hin as ->. }
    { rewrite Hreg3, length_app. simpl.
      pose proof (length_filter (λ x, x ≠ User f) (registered ev e)).
      unfold set_delete. lia. }
    eexists e0, _, e2, _, e3, _.
    split_and!; [exact Hemit0|exact Hemit2| |exact Hemit3|].
    + rewrite !invocations_effects, Hreg2. by rewrite fmap_app.
    + rewrite invocations_effects, Hreg3.
      apply list_elem_of_fmap. exists h1. split; [done|].
      apply elem_of_app. right. by left.
Qed.

End EmitterBehaviour.

(** ** The facade over its transport *)

Section FacadeBehaviour.

Import Transport.

Lemma subscriber_consistent (id : string) (ev : WSEvent)
    (e : Client.CleverenceEdge) :
  consistent (Client.ws e) → consistent (Client.ws (Client.subscriber id ev e)).
Proof.
  intros Hcons. destruct ev as [m| | |err|st]; simpl; try done.
  - destruct m; simpl; try done.
    by destruct (handleEvent_capabilities ev e) as (_ & -> & _).
  - unfold Client.getCapabilities, Client.ws_request.
    destruct (Client.ensureConnected _); [done|]. simpl.
    pose proof (same_connection_request capabilities id 10000 (Client.ws e))
      as Hsame.
    destruct (request capabilities id 10000 (Client.ws e)) as [p s].
    simpl in *. by apply (consistent_same (Client.ws e)).
  - by case_decide.
Qed.

Lemma turn_consistent (before : nat) (id : string) (s : state)
    (e : Client.CleverenceEdge) :
  consistent s → consistent (Client.ws (Client.turn before id s e)).
Proof.
  intros Hcons. unfold Client.turn. rewrite continuations_ws.
  assert (H : ∀ news e0, consistent (Client.ws e0) →
    consistent (Client.ws (foldl (λ e ev, Client.subscriber id ev e) e0 news))).
  { induction news as [|ev news IH]; intros e0 H0; simpl; [done|].
    apply IH. by apply subscriber_consistent. }
  by apply H.
Qed.

Lemma ws_command_consistent (c : CommandBody) (e : Client.CleverenceEdge) :
  consistent (Client.ws e) → consistent (Client.ws (Client.ws_command c e).2).
Proof.
  intros Hcons. unfold Client.ws_command, command.
  pose proof (same_connection_send (Command c) (Client.ws e)) as Hsame.
  destruct (send (Command c) (Client.ws e)) as [[err|] s]; simpl in *;
    by apply (consistent_same (Client.ws e)).
Qed.

Lemma ws_request_consistent (q : query) (id : string)
    (e : Client.CleverenceEdge) :
  consistent (Client.ws e) →
  consistent (Client.ws (Client.ws_request q id e).2).
Proof.
  intros Hcons. unfold Client.ws_request.
  pose proof (same_connection_request q id 10000 (Client.ws e)) as Hsame.
  destruct (request q id 10000 (Client.ws e)) as [p s]. simpl in *.
  by apply (consistent_same (Client.ws e)).
Qed.

Lemma connect_consistent (ctor : option string) (id : string)
    (e : Client.CleverenceEdge) :
  consistent (Client.ws e) →
  consistent (Client.ws (Client.connect ctor id e).2).
Proof.
  intros Hcons. unfold Client.connect.
  pose proof (consistent_connect ctor (Client.ws e) Hcons) as H.
  destruct (connect ctor (Client.ws e)) as [p s]. simpl in *.
  by apply turn_consistent.
Qed.

Lemma perform_consistent (a : Client.action) (e e' : Client.CleverenceEdge) :
  consistent (Client.ws e) → Client.perform a e = Some e' →
  consistent (Client.ws e').
Proof.
  intros Hcons. destruct a as [c id|ev id|ctor id]; simpl.
  - intros [= <-]. destruct c; simpl.
    + by apply connect_consistent.
    + by apply turn_consistent, consistent_disconnect.
    + unfold Client.triggerScan. case_match; [done|].
      by apply ws_command_consistent.
    + unfold Client.setSymbologies. case_match; [done|].
      by apply ws_command_consistent.
    + unfold Client.startRfidInventory. case_match; [done|].
      by apply ws_command_consistent.
    + unfold Client.stopRfidInventory. case_match; [done|].
      by apply ws_command_consistent.
    + unfold Client.getStatus. case_match; [done|].
      by apply ws_request_consistent.
    + unfold Client.getCapabilities. case_match; [done|].
      by apply ws_request_consistent.
    + unfold Client.getConfig. case_match; [done|].
      by apply ws_request_consistent.
    + unfold Client.getRfidTags. case_match; [done|].
      by apply ws_request_consistent.
  - unfold Client.occurs. case_match; [|done].
    destruct (step ev (Client.ws e)) as [s|] eqn:Hstep; [|done].
    intros [= <-]. apply turn_consistent.
    by apply (consistent_step ev (Client.ws e) s).
  - unfold Client.fire_autoConnect. case_match; [|done]. intros [= <-].
    by apply connect_consistent.
Qed.

Lemma perform_waiting (a : Client.action) (e e' : Client.CleverenceEdge) :
  Client.waiting e → Client.perform a e = Some e' → Client.waiting e'.
Proof.
  intros Hwait. destruct a as [c id|ev id|ctor id]; simpl.
  - intros [= <-]. by apply invoke_waiting.
  - apply occurs_waiting.
  - unfold Client.fire_autoConnect. case_match; [|done]. intros [= <-].
    unfold Client.connect. destruct (connect ctor _). apply turn_waiting.
Qed.

(** Whatever happens to a new facade, its transport stays consistent and
    the capability fetches it waits for are pending. *)
Lemma run_invariants (acts : list Client.action) (e e' : Client.CleverenceEdge) :
  consistent (Client.ws e) → Client.waiting e →
  Client.run acts e = Some e' →
  consistent (Client.ws e') ∧ Client.waiting e'.
Proof.
  revert e. induction acts as [|a acts IH]; intros e Hcons Hwait; simpl.
  - by intros [= <-].
  - destruct (Client.perform a e) as [e1|] eqn:Hperf; [|done].
    apply IH; [by apply (perform_consistent a e)|by apply (perform_waiting a e)].
Qed.

Lemma new_edge_consistent (o : Client.EdgeOptions) :
  consistent (Client.ws (Client.new_edge o)).
Proof. apply consistent_new_manager. Qed.

(** [request] on an open socket. *)
Lemma request_when_open (q : query) (id : string) (ms : Z) (s : state)
    (i : nat) :
  ws (this s) = Some i → readyStates s !! i = Some OPEN →
  request q id ms s =
  (length (promises (rt s)),
   set_sent (sent (rt s) ++ [(i, Query id q)])
     (set_pendingRequests
        (map_set id (mkPending (length (promises (rt s)))
                       (timer_count (rt s)))
           (pendingRequests (this s)))
        (set_timeouts
           (timeouts (rt s) ++
            [(timer_count (rt s),
              mkTimeout id q (length (promises (rt s))) ms)])
           (S (timer_count (rt s)))
           (set_promises (promises (rt s) ++ [Pending]) s)))).
Proof.
  intros Hws Hi. apply readyStates_lookup in Hi as (sk & Hsk & Hr).
  unfold request, new_promise, setTimeout, send. simpl.
  by rewrite Hws, Hsk, decide_True.
Qed.

(** [request] on a socket that is closing: [send] throws, and [request]
    takes back what it had registered. *)
Lemma request_when_closing (q : query) (id : string) (ms : Z) (s : state)
    (i : nat) :
  ws (this s) = Some i → readyStates s !! i = Some CLOSING →
  let s' := (request q id ms s).2 in
  (request q id ms s).1 = length (promises (rt s)) ∧
  sent (rt s') = sent (rt s) ∧
  promises (rt s') !! length (promises (rt s)) =
    Some (Rejected "WebSocket is not connected") ∧
  map_get id (pendingRequests (this s')) = None ∧
  (∀ c, (timer_count (rt s), c) ∉ timeouts (rt s')).
Proof.
  intros Hws Hi. apply readyStates_lookup in Hi as (sk & Hsk & Hr).
  unfold request, new_promise, setTimeout, send. simpl.
  rewrite Hws, Hsk, Hr. simpl. unfold reject. split_and!.
  - done.
  - by rewrite settle_sent.
  - rewrite settle_promises. simpl.
    rewrite decide_True; [done|]. split; [done|]. apply lookup_snoc_eq.
  - rewrite settle_this. simpl. apply map_get_delete.
  - intros c. rewrite settle_timeouts. simpl.
    rewrite list_elem_of_filter. simpl. tauto.
Qed.

(** X16. Whatever happens to a new facade, while it is connected its
    transport holds a socket that is open or, once the peer has started
    the closing handshake, closing. On an open socket each command is
    written, once, and returns; and each query is written, once, with the
    identifier generated for it, and returns a pending promise that is
    registered in the table of pending requests with a timer of 10000 ms.
    On a closing socket nothing is written: each command throws the error
    of [send], and each query returns a promise already rejected with that
    error, with no entry and no timer left behind. *)
Theorem methods_reach_the_socket_while_connected
    (o : Client.EdgeOptions) (acts : list Client.action)
    (e : Client.CleverenceEdge) (id : string) (l : list string)
    (opts : option json) :
  Client.run acts (Client.new_edge o) = Some e →
  Client.isConnected e = true →
  ∃ i r, ws (this (Client.ws e)) = Some i ∧
    readyStates (Client.ws e) !! i = Some r ∧ (r = OPEN ∨ r = CLOSING) ∧
    let written c :=
      if decide (r = OPEN)
      then (Client.Returns,
            Client.set_ws
              (set_sent (sent (rt (Client.ws e)) ++ [(i, Command c)])
                 (Client.ws e)) e)
      else (Client.Throws "WebSocket is not connected", e) in
    let asked q :=
      (Client.Awaits (length (promises (rt (Client.ws e)))),
       Client.set_ws (request q id 10000 (Client.ws e)).2 e) in
    Client.triggerScan e = written trigger_scan ∧
    Client.setSymbologies l e = written (set_symbologies l) ∧
    Client.startRfidInventory opts e = written (start_rfid_inventory opts) ∧
    Client.stopRfidInventory e = written stop_rfid_inventory ∧
    Client.getStatus id e = asked status ∧
    Client.getCapabilities id e = asked capabilities ∧
    Client.getConfig id e = asked config ∧
    Client.getRfidTags id e = asked rfid_tags ∧
    ∀ q, let s' := (request q id 10000 (Client.ws e)).2 in
         let p := length (promises (rt (Client.ws e))) in
         let t := timer_count (rt (Client.ws e)) in
         if decide (r = OPEN) then
           sent (rt s') = sent (rt (Client.ws e)) ++ [(i, Query id q)] ∧
           promises (rt s') !! p = Some Pending ∧
           map_get id (pendingRequests (this s')) = Some (mkPending p t) ∧
           (t, mkTimeout id q p 10000) ∈ timeouts (rt s')
         else
           sent (rt s') = sent (rt (Client.ws e)) ∧
           promises (rt s') !! p =
             Some (Rejected "WebSocket is not connected") ∧
           map_get id (pendingRequests (this s')) = None ∧
           ∀ c, (t, c) ∉ timeouts (rt s').
Proof.
  intros Hrun Hconn.
  destruct (run_invariants acts _ e (new_edge_consistent o)
              (new_edge_waiting o) Hrun) as [(_ & _ & Hc & _) _].
  assert (Hst : _state (this (Client.ws e)) = connected).
  { unfold Client.isConnected, isConnected in Hconn.
    by apply bool_decide_eq_true in Hconn. }
  destruct (Hc Hst) as (i & Hws & Hi).
  assert (Hensure : Client.ensureConnected e = None).
  { unfold Client.ensureConnected. by rewrite Hconn. }
  unfold Client.triggerScan, Client.setSymbologies,
    Client.startRfidInventory, Client.stopRfidInventory, Client.getStatus,
    Client.getCapabilities, Client.getConfig, Client.getRfidTags.
  rewrite Hensure.
  destruct Hi as [Hi|Hi].
  - exists i, OPEN. do 2 (split; [done|]). split; [by left|].
    rewrite decide_True by done.
    assert (Hcmd : ∀ c, Client.ws_command c e =
      (Client.Returns,
       Client.set_ws (set_sent (sent (rt (Client.ws e)) ++ [(i, Command c)])
                        (Client.ws e)) e)).
    { intros c. unfold Client.ws_command, command, send.
      apply readyStates_lookup in Hi as (sk & Hsk & Hr).
      by rewrite Hws, Hsk, decide_True. }
    assert (Hreq : ∀ q, Client.ws_request q id e =
      (Client.Awaits (length (promises (rt (Client.ws e)))),
       Client.set_ws (request q id 10000 (Client.ws e)).2 e)).
    { intros q. unfold Client.ws_request.
      by rewrite (request_when_open q id 10000 _ i). }
    cbv zeta. split_and!; try done.
    intros q. rewrite (request_when_open q id 10000 _ i) by done. simpl.
    split_and!; [done|apply lookup_snoc_eq|apply map_get_set_eq|].
    apply elem_of_app. right. by apply list_elem_of_singleton.
  - exists i, CLOSING. do 2 (split; [done|]). split; [by right|].
    rewrite decide_False by done.
    assert (Hcmd : ∀ c, Client.ws_command c e =
      (Client.Throws "WebSocket is not connected", e)).
    { intros c. unfold Client.ws_command, command, send.
      apply readyStates_lookup in Hi as (sk & Hsk & Hr).
      rewrite Hws, Hsk, Hr. simpl. by destruct e. }
    assert (Hreq : ∀ q, Client.ws_request q id e =
      (Client.Awaits (length (promises (rt (Client.ws e)))),
       Client.set_ws (request q id 10000 (Client.ws e)).2 e)).
    { intros q. unfold Client.ws_request.
      destruct (request_when_closing q id 10000 _ i Hws Hi) as (Hp & _).
      destruct (request q id 10000 (Client.ws e)) as [p s']. simpl in Hp.
      by rewrite Hp. }
    cbv zeta. split_and!; try done.
    intros q.
    by destruct (request_when_closing q id 10000 _ i Hws Hi)
      as (_ & ? & ? & ? & ?).
Qed.

(** What [sock_open] with the [onOpen] listener attached leaves in the
    tables. *)
Lemma sock_open_tables (i : nat) (s : state) (sk : WebSocket) :
  sockets (rt s) !! i = Some sk → readyState sk = CONNECTING →
  onOpen sk = true →
  ∃ s', sock_open i s = Some s' ∧
    emitted (rt s') =
      emitted (rt s) ++
      (if decide (_state (this s) = connected) then []
       else [EvStatechange connected]) ++ [EvOpen] ∧
    sent (rt s') = sent (rt s) ∧
    timeouts (rt s') = timeouts (rt s) ∧
    timer_count (rt s') = timer_count (rt s) ∧
    length (promises (rt s')) = length (promises (rt s)).
Proof.
  intros Hsk Hrs Hopen. unfold sock_open. rewrite Hsk, Hopen.
  rewrite decide_True by done. eexists. split; [done|].
  unfold onOpen_body, resolve.
  set (s0 := remove_via_ws false i
               (remove_listener true i (set_readyState i OPEN s))).
  assert (Hthis0 : this s0 = this s).
  { unfold s0. by rewrite remove_via_ws_this, remove_listener_this,
      set_readyState_this. }
  assert (Hrt0 : emitted (rt s0) = emitted (rt s) ∧
                 sent (rt s0) = sent (rt s) ∧
                 timeouts (rt s0) = timeouts (rt s) ∧
                 timer_count (rt s0) = timer_count (rt s) ∧
                 length (promises (rt s0)) = length (promises (rt s))).
  { unfold s0, remove_via_ws, remove_listener, set_readyState.
    repeat case_match; simpl; done. }
  destruct Hrt0 as (He & Hs & Ht & Hc & Hp).
  rewrite settle_emitted, settle_sent, settle_timeouts, settle_timer_count,
    settle_length.
  cbn -[startPing setState]. rewrite startPing_rt.
  unfold setState. cbn. rewrite Hthis0.
  case_decide; cbn; rewrite ?He, ?Hs, ?Ht, ?Hc, ?Hp;
    by rewrite <- ?app_assoc.
Qed.

Lemma continuations_pending (ps : list nat) (e : Client.CleverenceEdge) :
  (∀ p, p ∈ ps → promises (rt (Client.ws e)) !! p = Some Pending) →
  Client.continuations ps e = Client.set_fetching ps e.
Proof.
  induction ps as [|p ps IH]; intros Hall; simpl; [done|].
  rewrite (Hall p) by by left.
  rewrite IH by (intros q Hq; apply Hall; by right). done.
Qed.

(** X17. When the socket of the facade opens, the facade is connected and
    publishes [connect], once; it sends one [capabilities] query on that
    socket, with the identifier generated for it, and waits for the
    answer: the query is pending in the table of the transport. The
    cached capabilities are left as they were. *)
Theorem open_announces_and_asks_for_capabilities
    (e : Client.CleverenceEdge) (i : nat) (sk : WebSocket) (id : string) :
  sockets (rt (Client.ws e)) !! i = Some sk →
  readyState sk = CONNECTING → onOpen sk = true →
  ws (this (Client.ws e)) = Some i →
  Client.waiting e → sk_promise sk ∉ Client.fetching e →
  let p := length (promises (rt (Client.ws e))) in
  ∃ e', Client.occurs (SockOpen i) id e = Some e' ∧
    Client.isConnected e' = true ∧
    Client.published e' = Client.published e ++ [Client.EvConnect] ∧
    sent (rt (Client.ws e')) =
      sent (rt (Client.ws e)) ++ [(i, Query id capabilities)] ∧
    Client.fetching e' = Client.fetching e ++ [p] ∧
    promises (rt (Client.ws e')) !! p = Some Pending ∧
    map_get id (pendingRequests (this (Client.ws e'))) =
      Some (mkPending p (timer_count (rt (Client.ws e)))) ∧
    Client._capabilities e' = Client._capabilities e.
Proof.
  intros Hsk Hrs Hopen Hws Hwait Hfresh p.
  destruct (sock_open_tables i _ sk Hsk Hrs Hopen)
    as (s' & Hstep & Hem & Hsent & Hto & Htc & Hlen).
  destruct (sock_open_spec i _ sk Hsk Hrs Hopen)
    as (s'' & Hstep' & Hthis & _ & Hprom).
  rewrite Hstep in Hstep'. injection Hstep' as <-.
  pose proof (readyStates_sock_open i _ s' Hstep) as Hready.
  assert (Hi : readyStates s' !! i = Some OPEN).
  { rewrite Hready. apply list_lookup_insert_eq.
    unfold readyStates. rewrite length_fmap. by apply lookup_lt_Some in Hsk. }
  assert (Hws' : ws (this s') = Some i) by by rewrite Hthis.
  assert (Hconn : isConnected s' = true).
  { unfold isConnected. rewrite Hthis. by apply bool_decide_eq_true. }
  unfold Client.occurs. simpl. rewrite Hstep. eexists. split; [done|].
  unfold Client.turn, Client.published_before.
  rewrite Hem, drop_app_length.
  assert (Hsub : ∀ e0, Client.ws e0 = s' →
    foldl (λ e ev, Client.subscriber id ev e) e0
      ((if decide (_state (this (Client.ws e)) = connected) then []
        else [EvStatechange connected]) ++ [EvOpen]) =
    Client.set_fetching (Client.fetching e0 ++ [length (promises (rt s'))])
      (Client.set_ws (request capabilities id 10000 s').2
         (Client.emit Client.EvConnect e0))).
  { intros e0 He0.
    assert (Hopen0 : Client.subscriber id EvOpen e0 =
      Client.set_fetching (Client.fetching e0 ++ [length (promises (rt s'))])
        (Client.set_ws (request capabilities id 10000 s').2
           (Client.emit Client.EvConnect e0))).
    { simpl. unfold Client.getCapabilities, Client.ensureConnected,
        Client.isConnected, Client.ws_request. simpl.
      rewrite He0, Hconn.
      by rewrite (request_when_open capabilities id 10000 s' i). }
    case_decide; cbn [foldl app]; [done|].
    by change (Client.subscriber id (EvStatechange connected) e0) with e0. }
  rewrite Hsub by done. clear Hsub.
  rewrite (request_when_open capabilities id 10000 s' i) by done.
  cbn -[Client.continuations]. rewrite Hlen. fold p.
  rewrite continuations_pending.
  - cbn. rewrite Hsent, Htc, Hthis. cbn.
    split_and!; try done.
    + unfold p. rewrite <- Hlen. apply lookup_snoc_eq.
    + apply map_get_set_eq.
  - cbn. intros q [Hq|Hq%list_elem_of_singleton]%elem_of_app.
    + pose proof (Hwait q Hq) as Hpend.
      rewrite lookup_app_l by (rewrite Hlen; by apply lookup_lt_Some in Hpend).
      rewrite Hprom, decide_False; [done|].
      intros [-> _]. done.
    + subst q. unfold p. rewrite <- Hlen. apply lookup_snoc_eq.
Qed.


(** The continuations when one promise is settled and the others the
    facade waits for are pending. *)
Lemma continuations_settled (p : nat) (o : promise) (ps : list nat)
    (e : Client.CleverenceEdge) :
  NoDup ps → o ≠ Pending →
  promises (rt (Client.ws e)) !! p = Some o →
  (∀ q, q ∈ ps → q ≠ p →
        promises (rt (Client.ws e)) !! q = Some Pending) →
  Client.continuations ps e =
  Client.set_fetching (filter (λ q, q ≠ p) ps)
    (if decide (p ∈ ps) then
       match o with
       | Resolved v =>
           Client.emit (Client.EvCapabilities v)
             (Client.set__capabilities (Some v) e)
       | _ => e
       end
     else e).
Proof.
  intros Hnd Ho. revert e.
  induction Hnd as [|q ps Hq Hnd IH]; intros e Hp Hall; simpl.
  { done. }
  destruct (decide (q = p)) as [->|Hne].
  - rewrite Hp. rewrite filter_cons_False by naive_solver.
    rewrite (decide_True (P := p ∈ p :: ps)) by by left.
    assert (Hrest : ∀ e0, Client.ws e0 = Client.ws e →
      Client.continuations ps e0 =
      Client.set_fetching (filter (λ q, q ≠ p) ps) e0).
    { intros e0 He0. rewrite IH.
      - by rewrite decide_False.
      - by rewrite He0.
      - intros q' Hq' Hne'. rewrite He0. apply Hall; [by right|done]. }
    destruct o as [|v|err]; [done| |]; by rewrite Hrest.
  - rewrite (Hall q) by (by left || done).
    rewrite filter_cons_True by done.
    rewrite IH by (done || (intros q' Hq' ?; apply Hall; [by right|done])).
    destruct (decide (p ∈ ps)) as [Hin|Hnin].
    + rewrite (decide_True (P := p ∈ q :: ps)) by by right. done.
    + rewrite (decide_False (P := p ∈ q :: ps)); [done|].
      intros [->|?]%elem_of_cons; done.
Qed.

Lemma handleMessage_matched (id : string) (ok : bool) (r : option value)
    (err : string) (pending : PendingRequest) (s : state) :
  map_get id (pendingRequests (this s)) = Some pending →
  emitted (rt (handleMessage (Some (Response id ok r err)) s)) =
    emitted (rt s) ∧
  ∀ q, promises (rt (handleMessage (Some (Response id ok r err)) s)) !! q =
       match ok, r with
       | true, None => promises (rt s) !! q
       | _, _ =>
           if decide (q = pr_promise pending ∧
                      promises (rt s) !! pr_promise pending = Some Pending)
           then Some (if ok then match r with
                                 | Some v => Resolved v
                                 | None => Pending
                                 end
                      else Rejected err)
           else promises (rt s) !! q
       end.
Proof.
  intros Hget. unfold handleMessage. rewrite Hget.
  unfold resolve, reject.
  destruct ok; [destruct r as [v|]|]; simpl;
    rewrite ?settle_emitted; (split; [done|]); intros q;
    rewrite ?settle_promises; done.
Qed.

(** X18. The answer to the capability query that the facade sent when the
    socket opened fills the cache and is published as [capabilities],
    once, and the facade no longer waits for it; an answer that reports a
    failure leaves the cache as it was and publishes nothing. *)
Theorem answer_to_the_fetch_fills_the_cache
    (e : Client.CleverenceEdge) (i : nat) (sk : WebSocket)
    (id id' : string) (p t : nat) (v : value) (r : option value)
    (err : string) :
  sockets (rt (Client.ws e)) !! i = Some sk → readyState sk = OPEN →
  Client.waiting e → NoDup (Client.fetching e) → p ∈ Client.fetching e →
  map_get id (pendingRequests (this (Client.ws e))) = Some (mkPending p t) →
  (∃ e', Client.occurs (SockMessage i (Some (Response id true (Some v) err)))
           id' e = Some e' ∧
     Client._capabilities e' = Some v ∧
     Client.published e' = Client.published e ++ [Client.EvCapabilities v] ∧
     Client.fetching e' = filter (λ q, q ≠ p) (Client.fetching e) ∧
     promises (rt (Client.ws e')) !! p = Some (Resolved v)) ∧
  (∃ e', Client.occurs (SockMessage i (Some (Response id false r err)))
           id' e = Some e' ∧
     Client._capabilities e' = Client._capabilities e ∧
     Client.published e' = Client.published e ∧
     Client.fetching e' = filter (λ q, q ≠ p) (Client.fetching e) ∧
     promises (rt (Client.ws e')) !! p = Some (Rejected err)).
Proof.
  intros Hsk Hrs Hwait Hnd Hin Hget.
  pose proof (Hwait p Hin) as Hpend.
  assert (Hturn : ∀ ok r0 o,
    o ≠ Pending →
    (∀ q, promises (rt (handleMessage (Some (Response id ok r0 err))
                          (Client.ws e))) !! q =
          if decide (q = p) then Some o
          else promises (rt (Client.ws e)) !! q) →
    Client.occurs (SockMessage i (Some (Response id ok r0 err))) id' e =
    Some (Client.set_fetching (filter (λ q, q ≠ p) (Client.fetching e))
            (let e0 := Client.set_ws
                         (handleMessage (Some (Response id ok r0 err))
                            (Client.ws e)) e in
             match o with
             | Resolved v =>
                 Client.emit (Client.EvCapabilities v)
                   (Client.set__capabilities (Some v) e0)
             | _ => e0
             end))).
  { intros ok r0 o Ho Hprom.
    unfold Client.occurs, Client.turn, Client.published_before. simpl.
    unfold sock_message. rewrite Hsk, decide_True by done.
    destruct (handleMessage_matched id ok r0 err _ _ Hget) as [Hem _].
    rewrite Hem, drop_all. cbn [foldl]. f_equal.
    rewrite (continuations_settled p o); first by rewrite decide_True.
    - done.
    - done.
    - cbn. by rewrite Hprom, decide_True.
    - intros q Hq Hne. cbn. rewrite Hprom, decide_False by done.
      by apply Hwait. }
  split.
  - eexists. split.
    + apply (Hturn true (Some v) (Resolved v)); [done|].
      intros q.
      destruct (handleMessage_matched id true (Some v) err _ _ Hget)
        as [_ ->]. simpl. rewrite Hpend.
      destruct (decide (q = p)) as [->|Hne].
      * by rewrite decide_True.
      * by rewrite decide_False by tauto.
    + cbn. split_and!; try done.
      destruct (handleMessage_matched id true (Some v) err _ _ Hget)
        as [_ ->]. simpl. by rewrite decide_True.
  - eexists. split.
    + apply (Hturn false r (Rejected err)); [done|].
      intros q.
      destruct (handleMessage_matched id false r err _ _ Hget) as [_ ->].
      simpl. rewrite Hpend.
      destruct (decide (q = p)) as [->|Hne].
      * by rewrite decide_True.
      * by rewrite decide_False by tauto.
    + cbn. split_and!; try done.
      destruct (handleMessage_matched id false r err _ _ Hget) as [_ ->].
      simpl. by rewrite decide_True.
Qed.


(** X19. A frame that is not the answer to a pending request reaches the
    subscribers of the facade by its type: a [scan] or [rfid] event is
    published under that name, with the text of its timestamp turned into
    a date and its other fields as they came; pushed capabilities replace
    the cache and are published; an error frame is published as [error].
    A hardware event of another type, a pong, a late answer, a frame of
    an unknown type and a frame that does not parse publish nothing. The
    transport and the pending promises are left as they were. *)
Theorem frames_reach_the_subscribers
    (e : Client.CleverenceEdge) (i : nat) (sk : WebSocket)
    (frame : option ServerMessage) (id : string) :
  sockets (rt (Client.ws e)) !! i = Some sk → readyState sk = OPEN →
  Client.waiting e →
  (∀ rid ok r err, frame = Some (Response rid ok r err) →
     map_get rid (pendingRequests (this (Client.ws e))) = None) →
  let parsed ev :=
    {| ev_type := ev_type ev;
       ev_timestamp := match ev_timestamp ev with
                       | Text t => Instant t
                       | Instant t => Instant t
                       end;
       ev_fields := ev_fields ev |} in
  ∃ e', Client.occurs (SockMessage i frame) id e = Some e' ∧
    Client.published e' =
      Client.published e ++
      match frame with
      | Some (Event ev) =>
          if decide (ev_type ev = "scan") then [Client.EvScan (parsed ev)]
          else if decide (ev_type ev = "rfid")
               then [Client.EvRfid (parsed ev)]
               else []
      | Some (Capabilities d) => [Client.EvCapabilities (Json d)]
      | Some (ErrorFrame m) => [Client.EvError m]
      | _ => []
      end ∧
    Client._capabilities e' =
      match frame with
      | Some (Capabilities d) => Some (Json d)
      | _ => Client._capabilities e
      end ∧
    Client.fetching e' = Client.fetching e ∧
    this (Client.ws e') = this (Client.ws e) ∧
    promises (rt (Client.ws e')) = promises (rt (Client.ws e)) ∧
    sent (rt (Client.ws e')) = sent (rt (Client.ws e)).
Proof.
  intros Hsk Hrs Hwait Hlate parsed.
  unfold Client.occurs, Client.turn, Client.published_before. simpl.
  unfold sock_message. rewrite Hsk, decide_True by done.
  eexists. split; [done|].
  assert (Hquiet : ∀ s e0,
    promises (rt s) = promises (rt (Client.ws e)) →
    Client.ws e0 = s → Client.fetching e0 = Client.fetching e →
    Client.continuations (Client.fetching e0) e0 = e0).
  { intros s e0 Hp Hws Hf. rewrite continuations_pending.
    - rewrite Hf, <- Hf. by destruct e0.
    - intros q Hq. rewrite Hws, Hp. apply Hwait. by rewrite <- Hf. }
  destruct frame as [[ev|d|rid ok r err|m| |raw]|]; simpl.
  - rewrite drop_app_length. cbn [foldl Client.subscriber
      Client.handleServerMessage].
    destruct (handleEvent_capabilities ev
                (Client.set_ws (emit (EvMessage (Event ev)) (Client.ws e)) e))
      as (Hc & Hw & Hf).
    rewrite (Hquiet (emit (EvMessage (Event ev)) (Client.ws e)))
      by (done || by rewrite Hw || by rewrite Hf).
    rewrite Hc, Hw, Hf. split_and!; try done.
    unfold Client.handleEvent, parsed.
    destruct (ev_timestamp ev); repeat case_decide; simpl;
      by rewrite ?app_nil_r.
  - rewrite drop_app_length. cbn [foldl Client.subscriber
      Client.handleServerMessage].
    by rewrite (Hquiet (emit (EvMessage (Capabilities d)) (Client.ws e))).
  - rewrite (Hlate rid ok r err) by done. simpl.
    rewrite drop_app_length. cbn [foldl Client.subscriber
      Client.handleServerMessage].
    rewrite (Hquiet (emit (EvMessage (Response rid ok r err)) (Client.ws e)))
      by done.
    simpl. by rewrite app_nil_r.
  - rewrite drop_app_length. cbn [foldl Client.subscriber
      Client.handleServerMessage].
    by rewrite (Hquiet (emit (EvMessage (ErrorFrame m)) (Client.ws e))).
  - rewrite drop_all. cbn [foldl].
    rewrite (Hquiet (Client.ws e)) by done.
    simpl. by rewrite app_nil_r.
  - rewrite drop_app_length. cbn [foldl Client.subscriber
      Client.handleServerMessage].
    rewrite (Hquiet (emit (EvMessage (Other raw)) (Client.ws e))) by done.
    simpl. by rewrite app_nil_r.
  - rewrite drop_all. cbn [foldl].
    rewrite (Hquiet (set_console
      (console (rt (Client.ws e)) ++ ["Failed to parse WebSocket message:"])
      (Client.ws e))) by done.
    simpl. by rewrite app_nil_r.
Qed.


(** The continuations when no promise the facade waits for is resolved. *)
Lemma continuations_unresolved (ps : list nat) (e : Client.CleverenceEdge) :
  (∀ p v, p ∈ ps → promises (rt (Client.ws e)) !! p ≠ Some (Resolved v)) →
  Client.published (Client.continuations ps e) = Client.published e ∧
  Client._capabilities (Client.continuations ps e) = Client._capabilities e.
Proof.
  induction ps as [|p ps IH]; intros Hall; simpl; [done|].
  assert (Hrest : ∀ q v, q ∈ ps →
            promises (rt (Client.ws e)) !! q ≠ Some (Resolved v))
    by (intros q v Hq; apply Hall; by right).
  destruct (promises (rt (Client.ws e)) !! p) as [[|v|err]|] eqn:Hp;
    simpl; try by apply IH.
  by destruct (Hall p v (list_elem_of_here _ _)).
Qed.

Lemma sock_close_no_resolve (i : nat) (s s' : state) (q : nat) (v : value) :
  sock_close i s = Some s' →
  promises (rt s') !! q = Some (Resolved v) →
  promises (rt s) !! q = Some (Resolved v).
Proof.
  unfold sock_close. repeat case_match; try done. intros [= <-].
  destruct (handleClose_rt (set_readyState i CLOSED s)) as (-> & _).
  destruct (cleanup_rt (set_readyState i CLOSED s)) as (-> & _).
  intros Hq%reject_all_no_resolve.
  by rewrite set_readyState_promises in Hq.
Qed.

Lemma disconnect_emitted (s : state) :
  emitted (rt (disconnect s)) =
  emitted (rt s) ++
  (if decide (_state (this s) = disconnected) then []
   else [EvStatechange disconnected]) ++ [EvClose].
Proof.
  unfold disconnect, emit. cbn -[setState cleanup].
  rewrite setState_emitted, cleanup_emitted, cleanup_this. cbn.
  by rewrite <- app_assoc.
Qed.

Lemma sock_error_tables (i : nat) (s s' : state) :
  sock_error i s = Some s' →
  emitted (rt s') = emitted (rt s) ++ [EvError "WebSocket error"] ∧
  sent (rt s') = sent (rt s) ∧
  ∀ q v, promises (rt s') !! q = Some (Resolved v) →
         promises (rt s) !! q = Some (Resolved v).
Proof.
  unfold sock_error. repeat case_match; try done; intros [= <-];
    unfold handleError, onError_body, reject; cbn.
  - rewrite settle_emitted, settle_sent, remove_via_ws_emitted,
      remove_listener_emitted.
    split_and!; try done.
    + unfold remove_via_ws, remove_listener. by repeat case_match.
    + intros q v. rewrite settle_promises.
      rewrite remove_via_ws_promises, remove_listener_promises.
      destruct (decide (q = _ ∧ _)); [by intros [=]|done].
  - done.
Qed.

(** [disconnect()] leaves a consistent manager idle. *)
Lemma idle_disconnect (s : state) : consistent s → idle (disconnect s).
Proof.
  intros (Ha & _). unfold idle. rewrite disconnect_this. simpl.
  split_and!; try done.
  unfold disconnect. rewrite readyStates_emit, readyStates_setState.
  by apply cleanup_no_live.
Qed.

(** An event of a socket or a timer leaves an idle manager idle; it
    resolves no promise, and it publishes nothing but the [error] of a
    socket error. *)
Lemma idle_step (ev : event) (s s' : state) :
  idle s → Client.from_environment ev = true → step ev s = Some s' →
  idle s' ∧
  (∃ l, emitted (rt s') = emitted (rt s) ++ l ∧
        ∀ x, x ∈ l → x = EvError "WebSocket error") ∧
  (∀ q v, promises (rt s') !! q = Some (Resolved v) →
          promises (rt s) !! q = Some (Resolved v)).
Proof.
  intros (Hic & Hst & Hws & Hrt & Hpt & Hpr & Hlive) Henv.
  assert (Hnot : ∀ i sk, sockets (rt s) !! i = Some sk →
                         readyState sk ≠ OPEN ∧ readyState sk ≠ CONNECTING).
  { intros i sk Hsk.
    assert (Hi : readyStates s !! i = Some (readyState sk))
      by (apply readyStates_lookup; by exists sk).
    split; intros Hr; apply (Hlive i _ Hi); [by right|by left]. }
  destruct ev as [i|i|i|i frame|ctor|t| |ctor| |m|q id ms|i]; simpl in *;
    try done.
  - unfold sock_open.
    destruct (sockets (rt s) !! i) as [sk|] eqn:Hsk; [|done].
    case_decide as Hr; [|done]. by destruct (Hnot i sk Hsk) as [_ ?].
  - intros Herr. pose proof (sock_error_this i s s' Herr) as Hthis.
    destruct (same_connection_sock_error i s s' Herr) as (_ & _ & _ & Hrs).
    destruct (sock_error_tables i s s' Herr) as (Hem & _ & Hres).
    split_and!.
    + unfold idle. by rewrite Hthis, Hrs.
    + exists [EvError "WebSocket error"]. split; [done|].
      by intros x ->%list_elem_of_singleton.
    + done.
  - intros Hclose.
    assert (Hs' : s' = handleClose (set_readyState i CLOSED s)).
    { unfold sock_close in Hclose. repeat case_match; try done.
      by injection Hclose as <-. }
    set (s1 := set_readyState i CLOSED s) in *.
    assert (Hthis1 : this s1 = this s) by apply set_readyState_this.
    assert (Hic1 : intentionalClose (this s1) = true) by by rewrite Hthis1.
    pose proof (handleClose_intended s1 Hic1) as Hthis'.
    rewrite <- Hs' in Hthis'.
    split_and!.
    + unfold idle. rewrite Hthis'. simpl. split_and!; try done.
      rewrite Hs', readyStates_handleClose.
      apply cleanup_no_live. intros k rk. unfold s1.
      rewrite readyStates_set_readyState. intros Hk _.
      destruct (decide (k = i)) as [->|Hne].
      * apply list_lookup_insert_Some in Hk as [[_ [<- _]]|[? _]]; [|done].
        intros [?|?]; done.
      * rewrite list_lookup_insert_ne in Hk by done. by apply (Hlive k).
    + exists []. rewrite app_nil_r. split; [|by intros x ?%elem_of_nil].
      rewrite Hs'. unfold handleClose.
      pose proof (cleanup_this s1) as Hc. rewrite Hic1 in Hc.
      assert (Hst1 : _state (this s1) = disconnected) by by rewrite Hthis1.
      rewrite Hst1 in Hc. rewrite Hc. cbn -[setState cleanup].
      rewrite setState_emitted, Hc, cleanup_emitted. cbn.
      unfold s1. by rewrite set_readyState_emitted, app_nil_r.
    + intros q v. by apply (sock_close_no_resolve i).
  - unfold sock_message.
    destruct (sockets (rt s) !! i) as [sk|] eqn:Hsk; [|done].
    case_decide as Hr; [|done]. by destruct (Hnot i sk Hsk) as [? _].
  - unfold fire_reconnect. by rewrite Hrt.
  - unfold fire_timeout. repeat case_match; try done. intros [= <-].
    unfold timeout_callback, reject. split_and!.
    + unfold idle. rewrite settle_this. simpl. rewrite Hpr.
      split_and!; try done. by rewrite readyStates_settle.
    + exists []. rewrite app_nil_r, settle_emitted.
      split; [done|by intros x ?%elem_of_nil].
    + intros q v. rewrite settle_promises.
      destruct (decide (q = _ ∧ _)); [by intros [=]|done].
  - unfold fire_ping. by rewrite Hpt.
  - intros [_ (sk & Hsk & Hr)]%sock_closing_spec.
    by destruct (Hnot i sk Hsk).
Qed.

(** The subscribers of the facade on socket errors. *)
Lemma subscribers_of_errors (id : string) (l : list WSEvent)
    (e : Client.CleverenceEdge) :
  (∀ x, x ∈ l → x = EvError "WebSocket error") →
  let e' := foldl (λ e ev, Client.subscriber id ev e) e l in
  Client.ws e' = Client.ws e ∧ Client.fetching e' = Client.fetching e ∧
  Client._capabilities e' = Client._capabilities e ∧
  Client.published e' =
    Client.published e ++
    replicate (length l) (Client.EvError "WebSocket error").
Proof.
  revert e. induction l as [|x l IH]; intros e Hl; simpl.
  - by rewrite app_nil_r.
  - rewrite (Hl x) by by left. simpl.
    destruct (IH (Client.emit (Client.EvError "WebSocket error") e))
      as (-> & -> & -> & ->); [intros y Hy; apply Hl; by right|].
    simpl. by rewrite <- app_assoc.
Qed.

Lemma idle_occurs (ev : event) (id : string) (e e' : Client.CleverenceEdge) :
  idle (Client.ws e) → Client.waiting e →
  Client.occurs ev id e = Some e' →
  idle (Client.ws e') ∧ Client._capabilities e' = Client._capabilities e ∧
  ∃ n, Client.published e' =
       Client.published e ++ replicate n (Client.EvError "WebSocket error").
Proof.
  intros Hidle Hwait. unfold Client.occurs.
  destruct (Client.from_environment ev) eqn:Henv; [|done].
  destruct (step ev (Client.ws e)) as [s'|] eqn:Hstep; [|done].
  intros [= <-].
  destruct (idle_step ev _ s' Hidle Henv Hstep)
    as (Hidle' & (l & Hem & Hl) & Hres).
  unfold Client.turn, Client.published_before.
  rewrite Hem, drop_app_length.
  destruct (subscribers_of_errors id l (Client.set_ws s' e) Hl)
    as (Hws1 & Hf1 & Hc1 & Hp1).
  set (e1 := foldl _ _ l) in *.
  assert (Hun : ∀ p v, p ∈ Client.fetching e1 →
            promises (rt (Client.ws e1)) !! p ≠ Some (Resolved v)).
  { intros p v Hp Hv. rewrite Hws1 in Hv. simpl in Hv. apply Hres in Hv.
    rewrite Hf1 in Hp. simpl in Hp. by rewrite (Hwait p Hp) in Hv. }
  destruct (continuations_unresolved _ e1 Hun) as [Hpub Hcaps].
  rewrite continuations_ws, Hws1, Hpub, Hcaps, Hc1, Hp1. simpl.
  split_and!; [done|done|by exists (length l)].
Qed.

(** A method other than [connect] and [disconnect] called on a facade
    that is not connected leaves it as it is. *)
Lemma passive_call_when_not_connected (c : Client.call) (id : string)
    (e : Client.CleverenceEdge) :
  Client.isConnected e = false →
  Client.passive (Client.Calls c id) = true → Client.invoke c id e = e.
Proof.
  intros Hconn Hp.
  assert (Hens : Client.ensureConnected e =
                 Some "Not connected to Edge service. Call connect() first.").
  { unfold Client.ensureConnected. by rewrite Hconn. }
  destruct c; simpl in *; try done;
    unfold Client.triggerScan, Client.setSymbologies,
      Client.startRfidInventory, Client.stopRfidInventory,
      Client.getStatus, Client.getCapabilities, Client.getConfig,
      Client.getRfidTags; by rewrite Hens.
Qed.

Lemma idle_run (acts : list Client.action) (e e' : Client.CleverenceEdge) :
  idle (Client.ws e) → Client.waiting e →
  forallb Client.passive acts = true → Client.run acts e = Some e' →
  idle (Client.ws e') ∧ Client._capabilities e' = Client._capabilities e ∧
  ∃ n, Client.published e' =
       Client.published e ++ replicate n (Client.EvError "WebSocket error").
Proof.
  revert e. induction acts as [|a acts IH]; intros e Hidle Hwait; simpl.
  - intros _ [= <-]. split_and!; [done|done|].
    exists 0. by rewrite app_nil_r.
  - intros [Ha Hacts]%andb_prop.
    destruct (Client.perform a e) as [e1|] eqn:Hperf; [|done]. intros Hrun.
    assert (H1 : idle (Client.ws e1) ∧ Client.waiting e1 ∧
                 Client._capabilities e1 = Client._capabilities e ∧
                 ∃ n, Client.published e1 =
                      Client.published e ++
                      replicate n (Client.EvError "WebSocket error")).
    { destruct a as [c id|ev id|ctor id]; simpl in Hperf; [| |done].
      - injection Hperf as <-.
        rewrite passive_call_when_not_connected; [|..|done].
        + split_and!; [done|done|done|]. exists 0. by rewrite app_nil_r.
        + unfold Client.isConnected, isConnected.
          apply bool_decide_eq_false. destruct Hidle as (_ & -> & _). done.
      - destruct (idle_occurs ev id e e1 Hidle Hwait Hperf) as (? & ? & ?).
        split_and!; try done. by apply (occurs_waiting ev id e). }
    destruct H1 as (Hidle1 & Hwait1 & Hcaps1 & n1 & Hpub1).
    destruct (IH e1 Hidle1 Hwait1 Hacts Hrun) as (Hidle' & Hcaps' & n2 & Hpub').
    split_and!; [done|congruence|]. exists (n1 + n2).
    by rewrite Hpub', Hpub1, replicate_add, app_assoc.
Qed.

(** X20. [disconnect()] publishes [disconnect], once, and never
    [reconnecting]; the facade is then disconnected and keeps its cached
    capabilities. After it, until [connect()] or [disconnect()] is called
    or the timer of the constructor calls [connect()]: whatever the
    sockets and the timers do, the [close] and the errors of the socket
    that was closed included, and whatever other method is called, the
    facade stays disconnected, keeps its cached capabilities, and
    publishes nothing but the [error] of each socket error. The two
    hypotheses hold of every facade between two callbacks. *)
Theorem disconnect_is_announced_once
    (e : Client.CleverenceEdge) (id : string) :
  Client.waiting e → consistent (Client.ws e) →
  let e' := Client.disconnect id e in
  Client.published e' = Client.published e ++ [Client.EvDisconnect] ∧
  Client.connectionState e' = disconnected ∧
  Client._capabilities e' = Client._capabilities e ∧
  ∀ acts e'',
    forallb Client.passive acts = true → Client.run acts e' = Some e'' →
    Client.connectionState e'' = disconnected ∧
    Client._capabilities e'' = Client._capabilities e' ∧
    ∃ n, Client.published e'' =
         Client.published e' ++
         replicate n (Client.EvError "WebSocket error").
Proof.
  intros Hwait Hcons e'.
  assert (He' : e' =
    Client.continuations (Client.fetching e)
      (Client.emit Client.EvDisconnect
         (Client.set_ws (disconnect (Client.ws e)) e))).
  { unfold e', Client.disconnect, Client.turn, Client.published_before.
    rewrite disconnect_emitted, drop_app_length.
    case_decide; cbn [foldl app]; [done|].
    by change (Client.subscriber id (EvStatechange disconnected) ?x) with x. }
  assert (Hun : ∀ p v, p ∈ Client.fetching e →
    promises (rt (disconnect (Client.ws e))) !! p ≠ Some (Resolved v)).
  { intros p v Hp Hres%disconnect_no_resolve. by rewrite (Hwait p Hp) in Hres. }
  destruct (continuations_unresolved (Client.fetching e)
              (Client.emit Client.EvDisconnect
                 (Client.set_ws (disconnect (Client.ws e)) e)) Hun)
    as [Hpub Hcaps].
  assert (Hws : Client.ws e' = disconnect (Client.ws e))
    by by rewrite He', continuations_ws.
  split_and!.
  - by rewrite He', Hpub.
  - unfold Client.connectionState. by rewrite Hws, disconnect_this.
  - by rewrite He', Hcaps.
  - intros acts e'' Hacts Hrun.
    assert (Hidle : idle (Client.ws e'))
      by (rewrite Hws; by apply idle_disconnect).
    assert (Hwait' : Client.waiting e')
      by (unfold e', Client.disconnect; apply turn_waiting).
    destruct (idle_run acts e' e'' Hidle Hwait' Hacts Hrun)
      as ((_ & Hst & _) & Hcaps'' & Hpub'').
    by split_and!.
Qed.

(** X21. When the connection is lost without [disconnect()] having been
    called, the facade publishes [disconnect] and then, as its transport
    always reconnects, [reconnecting] (unless that was its state
    already); its state is [reconnecting], and the cached capabilities
    are kept. *)
Theorem connection_loss_is_announced
    (e : Client.CleverenceEdge) (i : nat) (sk : WebSocket) (id : string) :
  sockets (rt (Client.ws e)) !! i = Some sk → readyState sk ≠ CLOSED →
  intentionalClose (this (Client.ws e)) = false →
  reconnect (options (this (Client.ws e))) = true →
  Client.waiting e →
  ∃ e', Client.occurs (SockClose i) id e = Some e' ∧
    Client.published e' =
      Client.published e ++ Client.EvDisconnect ::
      (if decide (Client.connectionState e = reconnecting) then []
       else [Client.EvReconnecting]) ∧
    Client.connectionState e' = reconnecting ∧
    Client.isConnected e' = false ∧
    Client._capabilities e' = Client._capabilities e.
Proof.
  intros Hsk Hrs Hic Hrec Hwait.
  destruct (sock_close_unintended i _ sk Hsk Hrs Hic) as (s' & Hclose & Hthis).
  unfold Client.occurs. simpl. rewrite Hclose. eexists. split; [done|].
  assert (Hs' : s' = handleClose (set_readyState i CLOSED (Client.ws e))).
  { unfold sock_close in Hclose. rewrite Hsk in Hclose.
    rewrite decide_False in Hclose by done. by injection Hclose as <-. }
  assert (Hem : emitted (rt s') =
    emitted (rt (Client.ws e)) ++ EvClose ::
    (if decide (_state (this (Client.ws e)) = reconnecting) then []
     else [EvStatechange reconnecting])).
  { rewrite Hs', handleClose_unintended_emitted
      by by rewrite set_readyState_this.
    by rewrite set_readyState_emitted, set_readyState_this, Hrec. }
  rewrite Hrec in Hthis.
  assert (Hun : ∀ e0, Client.ws e0 = s' →
    Client.fetching e0 = Client.fetching e →
    ∀ p v, p ∈ Client.fetching e0 →
      promises (rt (Client.ws e0)) !! p ≠ Some (Resolved v)).
  { intros e0 Hw Hf p v Hp Hres. rewrite Hw in Hres.
    apply (sock_close_no_resolve i _ _ _ _ Hclose) in Hres.
    rewrite Hf in Hp. by rewrite (Hwait p Hp) in Hres. }
  unfold Client.turn, Client.published_before, Client.connectionState,
    Client.isConnected, isConnected.
  rewrite Hem, drop_app_length.
  case_decide; cbn [foldl Client.subscriber].
  - destruct (continuations_unresolved
                (Client.fetching
                   (Client.emit Client.EvDisconnect (Client.set_ws s' e)))
                (Client.emit Client.EvDisconnect (Client.set_ws s' e))
                (Hun (Client.emit Client.EvDisconnect (Client.set_ws s' e))
                   eq_refl eq_refl)) as [-> ->].
    rewrite continuations_ws. cbn. by rewrite Hthis.
  - rewrite decide_True by done.
    destruct (continuations_unresolved
                (Client.fetching
                   (Client.emit Client.EvReconnecting
                      (Client.emit Client.EvDisconnect (Client.set_ws s' e))))
                (Client.emit Client.EvReconnecting
                   (Client.emit Client.EvDisconnect (Client.set_ws s' e)))
                (Hun (Client.emit Client.EvReconnecting
                        (Client.emit Client.EvDisconnect
                           (Client.set_ws s' e)))
                   eq_refl eq_refl)) as [-> ->].
    rewrite continuations_ws. cbn. rewrite Hthis. cbn.
    by rewrite <- app_assoc.
Qed.


Lemma occurs_message (i : nat) (frame : option ServerMessage) (id : string)
    (e e' : Client.CleverenceEdge) :
  Client.occurs (SockMessage i frame) id e = Some e' →
  e' = Client.turn (Client.published_before e) id
         (handleMessage frame (Client.ws e)) e.
Proof.
  unfold Client.occurs. simpl. unfold sock_message.
  destruct (sockets (rt (Client.ws e)) !! i) as [sk|]; [|done].
  case_decide; [|done]. by intros [= <-].
Qed.

Lemma occurs_message_open (i : nat) (frame : option ServerMessage)
    (id : string) (e e' : Client.CleverenceEdge) :
  Client.occurs (SockMessage i frame) id e = Some e' →
  readyStates (Client.ws e) !! i = Some OPEN.
Proof.
  unfold Client.occurs. simpl. unfold sock_message, readyStates.
  rewrite list_lookup_fmap.
  destruct (sockets (rt (Client.ws e)) !! i) as [sk|]; [|done]. simpl.
  case_decide as Hr; [|done]. by rewrite Hr.
Qed.

Lemma request_returns_new_promise (q : query) (id : string) (ms : Z)
    (s : state) :
  (request q id ms s).1 = length (promises (rt s)).
Proof.
  unfold request, new_promise, setTimeout. cbn -[send].
  by destruct (send _ _) as [[?|] ?].
Qed.

(** X22. Whatever happens to a new facade, a [getCapabilities()] that its
    user calls while it is connected returns the promise of a new request,
    pending when the socket is open and rejected at once when the socket
    is closing, and leaves the cached capabilities and the events
    published as they are. It is answered to the caller only: the answer,
    which a socket delivers only while it is open, resolves the promise
    returned, and neither replaces the cached capabilities nor is
    published as [capabilities]. *)
Theorem getCapabilities_by_the_caller_leaves_the_cache
    (o : Client.EdgeOptions) (acts : list Client.action)
    (e : Client.CleverenceEdge) (id id' : string) :
  Client.run acts (Client.new_edge o) = Some e →
  Client.isConnected e = true →
  let p := length (promises (rt (Client.ws e))) in
  (Client.getCapabilities id e).1 = Client.Awaits p ∧
  (∃ j r, ws (this (Client.ws e)) = Some j ∧
          readyStates (Client.ws e) !! j = Some r ∧
          promises (rt (Client.ws (Client.getCapabilities id e).2)) !! p =
            Some (if decide (r = OPEN) then Pending
                  else Rejected "WebSocket is not connected")) ∧
  Client._capabilities (Client.getCapabilities id e).2 =
    Client._capabilities e ∧
  Client.published (Client.getCapabilities id e).2 = Client.published e ∧
  ∀ i v err e2,
    Client.occurs (SockMessage i (Some (Response id true (Some v) err))) id'
      (Client.getCapabilities id e).2 = Some e2 →
    promises (rt (Client.ws e2)) !! p = Some (Resolved v) ∧
    Client._capabilities e2 = Client._capabilities e ∧
    Client.published e2 = Client.published e ∧
    Client.fetching e2 = Client.fetching e.
Proof.
  intros Hrun Hconn p.
  destruct (run_invariants acts _ e (new_edge_consistent o)
              (new_edge_waiting o) Hrun) as [(Ha & _ & Hc & _) Hwait].
  assert (Hst : _state (this (Client.ws e)) = connected).
  { unfold Client.isConnected, isConnected in Hconn.
    by apply bool_decide_eq_true in Hconn. }
  destruct (Hc Hst) as (j & Hws & Hor).
  assert (Hget0 : Client.getCapabilities id e =
    (Client.Awaits p,
     Client.set_ws (request capabilities id 10000 (Client.ws e)).2 e)).
  { unfold Client.getCapabilities, Client.ensureConnected,
      Client.ws_request. rewrite Hconn.
    pose proof (request_returns_new_promise capabilities id 10000
                  (Client.ws e)) as Hp.
    destruct (request capabilities id 10000 (Client.ws e)) as [p' s'].
    simpl in Hp. by rewrite Hp. }
  rewrite Hget0. split; [done|]. cbn [snd].
  split.
  { destruct Hor as [Hj|Hj]; [exists j, OPEN|exists j, CLOSING];
      (split; [done|]); (split; [done|]); cbn [Client.ws Client.set_ws].
    - rewrite (request_when_open capabilities id 10000 _ j) by done.
      cbn. apply lookup_snoc_eq.
    - by destruct (request_when_closing capabilities id 10000 _ j Hws Hj)
        as (_ & _ & ? & _). }
  do 2 (split; [done|]).
  intros i v err e2 Hocc.
  assert (Hj : readyStates (Client.ws e) !! j = Some OPEN).
  { apply occurs_message_open in Hocc. cbn [Client.ws Client.set_ws] in Hocc.
    destruct (same_connection_request capabilities id 10000 (Client.ws e))
      as (_ & _ & _ & Hrs).
    rewrite Hrs in Hocc.
    destruct (decide (ws (this (Client.ws e)) = Some i)) as [Heq|Hne].
    - rewrite Hws in Heq. by injection Heq as ->.
    - destruct (Ha i OPEN Hocc Hne). by right. }
  revert Hocc.
  rewrite (request_when_open capabilities id 10000 _ j) by done.
  cbn [snd]. fold p.
  set (s1 := set_sent _ _).
  intros ->%occurs_message.
  assert (Hget : map_get id (pendingRequests (this s1)) =
                 Some (mkPending p (timer_count (rt (Client.ws e)))))
    by apply map_get_set_eq.
  destruct (handleMessage_matched id true (Some v) err _ s1 Hget)
    as [Hem Hprom].
  assert (Hp : promises (rt s1) !! p = Some Pending) by apply lookup_snoc_eq.
  unfold Client.turn, Client.published_before.
  cbn [Client.ws Client.set_ws]. rewrite Hem, drop_all. cbn [foldl].
  rewrite continuations_pending.
  - cbn. split_and!; try done.
    rewrite Hprom. cbn [pr_promise]. by rewrite decide_True.
  - cbn. intros q Hq. rewrite Hprom. cbn [pr_promise].
    pose proof (Hwait q Hq) as Hpend.
    assert (q < p) by by apply lookup_lt_Some in Hpend.
    rewrite decide_False by lia.
    unfold s1. cbn. by rewrite lookup_app_l.
Qed.



(** X23. An error of a socket is published by the facade as [error], with
    the message [WebSocket error], and changes nothing else: the state of
    the connection, the socket held, the timers and the pending requests
    stay as they are, nothing is sent, and the cached capabilities are
    kept. It is the close of the socket that ends a connection. *)
Theorem socket_error_is_published_and_ends_nothing
    (e : Client.CleverenceEdge) (i : nat) (sk : WebSocket) (id : string) :
  sockets (rt (Client.ws e)) !! i = Some sk → readyState sk ≠ CLOSED →
  Client.waiting e →
  ∃ e', Client.occurs (SockError i) id e = Some e' ∧
    Client.published e' =
      Client.published e ++ [Client.EvError "WebSocket error"] ∧
    this (Client.ws e') = this (Client.ws e) ∧
    readyStates (Client.ws e') = readyStates (Client.ws e) ∧
    sent (rt (Client.ws e')) = sent (rt (Client.ws e)) ∧
    Client._capabilities e' = Client._capabilities e.
Proof.
  intros Hsk Hrs Hwait.
  destruct (sock_error_spec i _ sk Hsk Hrs) as (s' & Herr & Hthis & _).
  destruct (sock_error_tables i _ s' Herr) as (Hem & Hsent & Hres).
  destruct (same_connection_sock_error i _ s' Herr) as (_ & _ & _ & Hready).
  unfold Client.occurs. simpl. rewrite Herr. eexists. split; [done|].
  unfold Client.turn, Client.published_before.
  rewrite Hem, drop_app_length. cbn [foldl Client.subscriber].
  set (e1 := Client.emit _ _).
  assert (Hun : ∀ p v, p ∈ Client.fetching e1 →
    promises (rt (Client.ws e1)) !! p ≠ Some (Resolved v)).
  { intros p v Hp Hr%Hres. by rewrite (Hwait p Hp) in Hr. }
  destruct (continuations_unresolved (Client.fetching e1) e1 Hun) as [-> ->].
  by rewrite continuations_ws.
Qed.

(** *** The options of the transport *)

Lemma options_setState (st : ConnectionState) (s : state) :
  options (this (setState st s)) = options (this s).
Proof. by rewrite setState_this. Qed.

Lemma options_connect (ctor : option string) (s : state) :
  options (this (connect ctor s).2) = options (this s).
Proof.
  unfold connect, new_promise, resolve, reject. cbn -[setState].
  case_decide; cbn -[setState]; [by rewrite settle_this|].
  destruct ctor; cbn -[setState];
    by rewrite ?settle_this, ?options_setState.
Qed.

Lemma options_handleClose (s : state) :
  options (this (handleClose s)) = options (this s).
Proof.
  unfold handleClose, scheduleReconnect.
  repeat case_match; cbn -[setState cleanup];
    rewrite ?options_setState; cbn -[cleanup];
    by rewrite cleanup_this.
Qed.

Lemma options_step (ev : event) (s s' : state) :
  step ev s = Some s' → options (this s') = options (this s).
Proof.
  destruct ev as [i|i|i|i frame|ctor|t| |ctor| |m|q id ms|i]; simpl.
  - unfold sock_open.
    destruct (sockets (rt s) !! i) as [sk|] eqn:Hsk; [|done].
    case_decide as Hrs; [|done].
    destruct (onOpen sk) eqn:Hopen.
    + destruct (sock_open_spec i s sk Hsk Hrs Hopen) as (s0 & H0 & Hthis & _).
      unfold sock_open in H0. rewrite Hsk, Hopen, decide_True in H0 by done.
      rewrite H0. intros [= <-]. by rewrite Hthis.
    + intros [= <-]. by rewrite set_readyState_this.
  - by intros ->%sock_error_this.
  - unfold sock_close. repeat case_match; try done. intros [= <-].
    by rewrite options_handleClose, set_readyState_this.
  - unfold sock_message. repeat case_match; try done. intros [= <-].
    by destruct (same_connection_handleMessage frame s) as (_ & _ & _);
      unfold handleMessage, resolve, reject;
      repeat case_match; rewrite ?settle_this.
  - unfold fire_reconnect, reconnect_callback. case_match; [|done].
    intros [= <-]. by rewrite options_connect.
  - unfold fire_timeout, timeout_callback, reject.
    repeat case_match; try done. intros [= <-]. by rewrite settle_this.
  - unfold fire_ping, ping_callback.
    repeat case_match; try done; intros [= <-]; by rewrite ?send_this.
  - intros [= <-]. apply options_connect.
  - intros [= <-]. by rewrite disconnect_this.
  - intros [= <-]. by rewrite send_this.
  - intros [= <-]. unfold request, new_promise, setTimeout. cbn -[send].
    set (s1 := set_pendingRequests _ _).
    pose proof (send_this (Query id q) s1) as Hsend.
    destruct (send (Query id q) s1) as [[err|] s2]; simpl in *.
    + unfold reject. rewrite settle_this. simpl. by rewrite Hsend.
    + by rewrite Hsend.
  - by intros ->%sock_closing_this.
Qed.

Lemma options_subscriber (id : string) (ev : WSEvent)
    (e : Client.CleverenceEdge) :
  options (this (Client.ws (Client.subscriber id ev e))) =
    options (this (Client.ws e)) ∧
  Client.options (Client.subscriber id ev e) = Client.options e.
Proof.
  destruct ev as [m| | |err|st]; simpl; try done.
  - destruct m; simpl; try done.
    unfold Client.handleEvent. by repeat case_decide.
  - unfold Client.getCapabilities, Client.ws_request.
    destruct (Client.ensureConnected _); [done|]. simpl.
    pose proof (options_step (CallRequest capabilities id 10000)
                  (Client.ws e) _ eq_refl) as Hopt.
    by destruct (request capabilities id 10000 (Client.ws e)) as [p s].
  - by case_decide.
Qed.

Lemma continuations_options (ps : list nat) (e : Client.CleverenceEdge) :
  Client.options (Client.continuations ps e) = Client.options e.
Proof.
  revert e. induction ps as [|p ps IH]; intros e; simpl; [done|].
  repeat case_match; simpl; by rewrite ?IH.
Qed.

Lemma options_turn (before : nat) (id : string) (s : state)
    (e : Client.CleverenceEdge) :
  options (this (Client.ws (Client.turn before id s e))) = options (this s) ∧
  Client.options (Client.turn before id s e) = Client.options e.
Proof.
  unfold Client.turn. rewrite continuations_ws, continuations_options.
  assert (H : ∀ news e0,
    options (this (Client.ws
      (foldl (λ e ev, Client.subscriber id ev e) e0 news))) =
      options (this (Client.ws e0)) ∧
    Client.options (foldl (λ e ev, Client.subscriber id ev e) e0 news) =
      Client.options e0).
  { induction news as [|ev news IH]; intros e0; simpl; [done|].
    destruct (IH (Client.subscriber id ev e0)) as [-> ->].
    apply options_subscriber. }
  apply (H _ (Client.set_ws s e)).
Qed.

Lemma options_perform (a : Client.action) (e e' : Client.CleverenceEdge) :
  Client.perform a e = Some e' →
  options (this (Client.ws e')) = options (this (Client.ws e)) ∧
  Client.options e' = Client.options e.
Proof.
  assert (Hcmd : ∀ c,
    options (this (Client.ws (Client.ws_command c e).2)) =
      options (this (Client.ws e)) ∧
    Client.options (Client.ws_command c e).2 = Client.options e).
  { intros c. unfold Client.ws_command, command.
    pose proof (send_this (Command c) (Client.ws e)) as Hsend.
    destruct (send (Command c) (Client.ws e)) as [[err|] s]; simpl in *;
      by rewrite Hsend. }
  assert (Hreq : ∀ q id,
    options (this (Client.ws (Client.ws_request q id e).2)) =
      options (this (Client.ws e)) ∧
    Client.options (Client.ws_request q id e).2 = Client.options e).
  { intros q id. unfold Client.ws_request.
    pose proof (options_step (CallRequest q id 10000)
                  (Client.ws e) _ eq_refl) as Hopt.
    by destruct (request q id 10000 (Client.ws e)) as [p s]. }
  assert (Hconn : ∀ ctor id e0,
    options (this (Client.ws (Client.connect ctor id e0).2)) =
      options (this (Client.ws e0)) ∧
    Client.options (Client.connect ctor id e0).2 = Client.options e0).
  { intros ctor id e0. unfold Client.connect.
    pose proof (options_connect ctor (Client.ws e0)) as Hopt.
    destruct (connect ctor (Client.ws e0)) as [p s]. simpl in *.
    destruct (options_turn (Client.published_before e0) id s e0) as [-> ->].
    by rewrite Hopt. }
  destruct a as [c id|ev id|ctor id]; simpl.
  - intros [= <-]. destruct c; simpl;
      unfold Client.triggerScan, Client.setSymbologies,
        Client.startRfidInventory, Client.stopRfidInventory,
        Client.getStatus, Client.getCapabilities, Client.getConfig,
        Client.getRfidTags;
      try (case_match; [done|]); try apply Hcmd; try apply Hreq.
    + apply Hconn.
    + unfold Client.disconnect.
      destruct (options_turn (Client.published_before e) id
                  (disconnect (Client.ws e)) e) as [-> ->].
      by rewrite disconnect_this.
  - unfold Client.occurs. case_match; [|done].
    destruct (step ev (Client.ws e)) as [s|] eqn:Hstep; [|done].
    intros [= <-].
    destruct (options_turn (Client.published_before e) id s e) as [-> ->].
    by rewrite (options_step ev (Client.ws e) s).
  - unfold Client.fire_autoConnect. case_match; [|done]. intros [= <-].
    apply (Hconn ctor id (Client.set_autoConnectTimer false e)).
Qed.

(** X24. Whatever happens to a facade, it keeps the options it was built
    with, and so does its transport: the delays and the ping interval of
    the options of the facade, and auto-reconnect enabled, which the
    options of the facade cannot disable. *)
Theorem facade_always_reconnects
    (o : Client.EdgeOptions) (acts : list Client.action)
    (e : Client.CleverenceEdge) :
  Client.run acts (Client.new_edge o) = Some e →
  Client.options e = o ∧
  options (this (Client.ws e)) =
    {| reconnect := true;
       reconnectDelay := Client.reconnectDelay o;
       maxReconnectDelay := Client.maxReconnectDelay o;
       pingInterval := Client.pingInterval o |} ∧
  ∀ n, backoff (options (this (Client.ws e))) n =
       Z.min (Client.reconnectDelay o * 2 ^ Z.of_nat n)
             (Client.maxReconnectDelay o).
Proof.
  assert (H : ∀ e0 e1, Client.run acts e0 = Some e1 →
    options (this (Client.ws e1)) = options (this (Client.ws e0)) ∧
    Client.options e1 = Client.options e0).
  { induction acts as [|a acts IH]; intros e0 e1; simpl.
    - by intros [= <-].
    - destruct (Client.perform a e0) as [e0'|] eqn:Hperf; [|done].
      intros Hrun. destruct (IH _ _ Hrun) as [-> ->].
      by apply (options_perform a). }
  intros Hrun. destruct (H _ _ Hrun) as [Hopt Ho].
  split_and!; [done|done|]. intros n. by rewrite Hopt.
Qed.

End FacadeBehaviour.

(** ** The composables *)

Section BindingsBehaviour.

Import Transport Bindings.

Lemma slice0_nonneg {A : Type} (m : Z) (l : list A) :
  (0 ≤ m)%Z → slice0 m l = take (Z.to_nat m) l.
Proof.
  intros Hm. unfold slice0. rewrite decide_False by lia.
  destruct (decide (m ≤ Z.of_nat (length l))%Z).
  - by rewrite Z.min_l by lia.
  - rewrite Z.min_r by lia. rewrite Nat2Z.id.
    by rewrite !take_ge by lia.
Qed.

(** X25. Starting from a cleared history, after any sequence of scans the
    history holds the newest [maxHistory] of them, newest first (none when
    [maxHistory] is zero or negative), [lastScan] is the latest scan, and
    [onScan], when given, has been called with every scan in order. *)
Theorem scan_history_keeps_the_newest_first
    {ScanEvent : Type} (maxHistory : Z) (onScan : bool)
    (st0 : Barcode ScanEvent) (scans : list ScanEvent) :
  let st := foldl (λ st ev, handleScan maxHistory onScan ev st)
              (clearHistory st0) scans in
  scanHistory st = take (Z.to_nat maxHistory) (reverse scans) ∧
  lastScan st = last scans ∧
  onScan_calls st = onScan_calls st0 ++ (if onScan then scans else []) ∧
  (0 ≤ maxHistory → Z.of_nat (length (scanHistory st)) ≤ maxHistory)%Z.
Proof.
  induction scans as [|ev scans IH] using rev_ind; cbn zeta.
  { simpl. rewrite reverse_nil, take_nil.
    destruct onScan; rewrite app_nil_r; repeat split; simpl; lia. }
  rewrite foldl_app. cbn [foldl]. cbn zeta in IH.
  destruct IH as (Hh & Hl & Hc & _).
  set (st := foldl _ _ scans) in *.
  assert (Hhist : scanHistory (handleScan maxHistory onScan ev st) =
                  take (Z.to_nat maxHistory) (reverse (scans ++ [ev]))).
  { cbn [handleScan scanHistory]. rewrite Hh, reverse_snoc.
    destruct (decide (maxHistory < 0)%Z) as [Hneg|Hpos].
    - unfold slice0. rewrite decide_True by done.
      replace (Z.to_nat maxHistory) with 0 by lia. simpl.
      by replace (Z.to_nat _) with 0 by lia.
    - rewrite slice0_nonneg by lia.
      destruct (Z.to_nat maxHistory) as [|k]; [done|]. simpl.
      by rewrite take_take, Nat.min_l by lia. }
  split_and!.
  - done.
  - cbn [handleScan lastScan]. by rewrite last_snoc.
  - cbn [handleScan onScan_calls]. rewrite Hc.
    destruct onScan; by rewrite ?app_assoc.
  - intros Hm. rewrite Hhist, length_take. lia.
Qed.


Lemma map_set_keys {V : Type} (k : string) (v : V) (m : list (string * V)) :
  (map_set k v m).*1 = if decide (k ∈ m.*1) then m.*1 else m.*1 ++ [k].
Proof.
  induction m as [|[k0 w] m IH]; simpl; [done|].
  destruct (decide (k0 = k)) as [->|Hne]; simpl;
    change (list_fmap _ _ fst ?l) with (l.*1).
  - by rewrite decide_True by by left.
  - rewrite IH. destruct (decide (k ∈ m.*1)) as [Hin|Hnin].
    + by rewrite decide_True by by right.
    + rewrite decide_False; [done|].
      intros [?|?]%elem_of_cons; by subst.
Qed.

(** X26. Starting from cleared tags, after any sequence of reads the map
    has one tag for each EPC read, in the order the EPCs were first seen.
    The tag of an EPC counts the reads of that EPC, carries the signal
    strength and the antenna of the latest of them, the instant of the
    first as [firstSeen] and the instant of the latest as [lastSeen].
    [lastRead] is the latest read of all. *)
Theorem tags_aggregate_the_reads_by_epc
    (onRead : bool) (st0 : Rfid) (reads : list (Z * RfidEvent)) :
  let st := handleReads onRead reads (clearTags st0) in
  (∀ e, map_get e (tags st) = tag_of e reads) ∧
  (tags st).*1 = reverse (remove_dups (reverse ((λ x, epc x.2) <$> reads))) ∧
  NoDup (tags st).*1 ∧
  lastRead st = snd <$> last reads ∧
  onRead_calls st =
    onRead_calls st0 ++ (if onRead then snd <$> reads else []).
Proof.
  unfold handleReads.
  induction reads as [|[now ev] reads IH] using rev_ind; cbn zeta.
  { simpl. split_and!; try done; [apply NoDup_nil_2|].
    destruct onRead; by rewrite app_nil_r. }
  rewrite foldl_app. cbn [foldl fst snd]. cbn zeta in IH.
  destruct IH as (Hget & Hkeys & Hnd & Hl & Hc).
  set (st := foldl _ _ reads) in *.
  assert (Hnew : ∃ v,
    tags (handleRfid onRead now ev st) = map_set (epc ev) v (tags st) ∧
    tag_of (epc ev) (reads ++ [(now, ev)]) = Some v).
  { unfold handleRfid. cbn [tags]. rewrite Hget. unfold tag_of.
    rewrite filter_app, filter_cons_True, filter_nil by done.
    destruct (filter (λ x, epc x.2 = epc ev) reads) as [|first rest];
      simpl.
    - by eexists.
    - eexists. split; [done|]. rewrite List.last_last. simpl.
      do 2 f_equal. rewrite length_app. simpl. lia. }
  destruct Hnew as (v & Htags & Htag).
  assert (Hkeys' : (tags (handleRfid onRead now ev st)).*1 =
    reverse (remove_dups (reverse ((λ x, epc x.2) <$> reads ++ [(now, ev)])))).
  { rewrite fmap_app, reverse_app.
    change (reverse ((λ x, epc x.2) <$> [(now, ev)])) with [epc ev].
    cbn [app remove_dups]. rewrite Htags, map_set_keys.
    assert (Hiff : epc ev ∈ (tags st).*1 ↔
                   epc ev ∈ reverse ((λ x, epc x.2) <$> reads)).
    { by rewrite Hkeys, elem_of_reverse, elem_of_remove_dups. }
    destruct (decide (epc ev ∈ (tags st).*1)) as [Hin|Hnin];
      case_decide as Hd; try tauto; try done.
    by rewrite reverse_cons, Hkeys. }
  split_and!.
  - intros e. rewrite Htags.
    destruct (decide (e = epc ev)) as [->|Hne].
    + by rewrite map_get_set_eq.
    + rewrite map_get_set_ne by done. rewrite Hget. unfold tag_of.
      by rewrite filter_app, filter_cons_False, filter_nil, app_nil_r by done.
  - done.
  - rewrite Hkeys', reverse_Permutation. apply NoDup_remove_dups.
  - cbn [handleRfid lastRead]. by rewrite last_snoc.
  - cbn [handleRfid onRead_calls]. rewrite Hc, fmap_app.
    destruct onRead; by rewrite ?app_assoc.
Qed.

End BindingsBehaviour.

(** ** Samples of the further properties *)

Section FurtherSamples.

Import Transport.

Lemma first_connection :
  run [CallConnect None; SockOpen 0] (new_manager DEFAULT_WS_OPTIONS) =
  Some connected_manager.
Proof. by vm_compute. Qed.

Lemma peer_starts_closing :
  run [CallConnect None; SockOpen 0; SockClosing 0]
    (new_manager DEFAULT_WS_OPTIONS) = Some closing_manager.
Proof. by vm_compute. Qed.

Lemma closing_session_runs :
  Client.run closing_session (Client.new_edge (Client.options fresh_edge)) =
  Some closing_edge.
Proof. by vm_compute. Qed.

Lemma first_session_opens :
  Client.run first_session (Client.new_edge (Client.options fresh_edge)) =
  Some open_edge.
Proof. by vm_compute. Qed.

Lemma connecting_edge_waiting : Client.waiting connecting_edge.
Proof.
  intros p Hp. exfalso. revert Hp. vm_compute. by intros ?%elem_of_nil.
Qed.

Lemma open_edge_waiting : Client.waiting open_edge.
Proof.
  intros p Hp. assert (p = 1) as ->.
  { revert Hp. vm_compute. by intros ->%list_elem_of_singleton. }
  by vm_compute.
Qed.

Lemma single_live_socket_witness :
  run [CallConnect None; SockOpen 0] (new_manager DEFAULT_WS_OPTIONS) =
    Some connected_manager ∧
  readyStates connected_manager !! 0 = Some OPEN ∧ live OPEN ∧
  0 = 0 ∧ ws (this connected_manager) = Some 0.
Proof.
  assert (Hi : readyStates connected_manager !! 0 = Some OPEN)
    by (by vm_compute).
  assert (Hl : live OPEN) by (by right).
  split_and!; [exact first_connection|exact Hi|exact Hl|..];
    apply (single_live_socket _ _ _ 0 0 OPEN OPEN first_connection
             Hi Hl Hi Hl).
Defined.

Lemma send_follows_connection_state_witness :
  run [CallConnect None; SockOpen 0; SockClosing 0]
    (new_manager DEFAULT_WS_OPTIONS) = Some closing_manager ∧
  _state (this closing_manager) = connected ∧
  ∃ i r, ws (this closing_manager) = Some i ∧
         readyStates closing_manager !! i = Some r ∧
         (r = OPEN ∨ r = CLOSING) ∧
         send Ping closing_manager =
           if decide (r = OPEN)
           then (None, set_sent (sent (rt closing_manager) ++ [(i, Ping)])
                         closing_manager)
           else (Some "WebSocket is not connected", closing_manager).
Proof.
  assert (Hst : _state (this closing_manager) = connected)
    by (by vm_compute).
  split_and!; [exact peer_starts_closing|exact Hst|].
  exact (proj1 (send_follows_connection_state _ _ _ Ping peer_starts_closing)
           Hst).
Defined.

Lemma keepalive_runs_while_connected_witness :
  run [CallConnect None; SockOpen 0; SockClosing 0]
    (new_manager DEFAULT_WS_OPTIONS) = Some closing_manager ∧
  _state (this closing_manager) = connected ∧
  ∃ i r, ws (this closing_manager) = Some i ∧
         readyStates closing_manager !! i = Some r ∧
         (r = OPEN ∨ r = CLOSING) ∧
         fire_ping closing_manager =
           Some (if decide (r = OPEN)
                 then set_sent (sent (rt closing_manager) ++ [(i, Ping)])
                        closing_manager
                 else closing_manager).
Proof.
  assert (Hst : _state (this closing_manager) = connected)
    by (by vm_compute).
  split_and!; [exact peer_starts_closing|exact Hst|].
  exact (proj1 (proj2 (keepalive_runs_while_connected _ _ _
                         peer_starts_closing)) Hst).
Defined.

Lemma response_settles_its_request_witness :
  map_get "b" (pendingRequests (this busy_manager)) = Some (mkPending 2 1) ∧
  map_get "b"
    (pendingRequests
       (this (handleMessage (Some (Response "b" true (Some Undefined) ""))
                busy_manager))) = None.
Proof.
  assert (Hget : map_get "b" (pendingRequests (this busy_manager)) =
                 Some (mkPending 2 1)) by (by vm_compute).
  split; [exact Hget|].
  exact (proj1 (response_settles_its_request busy_manager "b" true
                  (Some Undefined) "" (mkPending 2 1) Hget)).
Defined.

Lemma request_response_round_trip_witness :
  (send (Query "a" status) connected_manager).1 = None ∧
  map_get "a" (pendingRequests (this connected_manager)) = None ∧
  promises (rt (request status "a" 10000 connected_manager).2)
    !! (request status "a" 10000 connected_manager).1 = Some Pending.
Proof.
  assert (H1 : (send (Query "a" status) connected_manager).1 = None)
    by (by vm_compute).
  assert (H2 : map_get "a" (pendingRequests (this connected_manager)) = None)
    by (by vm_compute).
  split_and!; [exact H1|exact H2|].
  exact (proj1 (request_response_round_trip connected_manager status "a"
                  10000 (Json "ok") "" H1 H2)).
Defined.

Lemma timeout_rejects_only_its_request_witness :
  NoDup (timeouts (rt busy_manager)).*1 ∧
  (1, mkTimeout "b" config 2 10000) ∈ timeouts (rt busy_manager) ∧
  ∃ s', fire_timeout 1 busy_manager = Some s' ∧
        map_get "b" (pendingRequests (this s')) = None.
Proof.
  assert (Hnd : NoDup (timeouts (rt busy_manager)).*1).
  { apply (bool_decide_unpack _). by vm_compute. }
  assert (Hin : (1, mkTimeout "b" config 2 10000) ∈
                timeouts (rt busy_manager)).
  { vm_compute. right. left. }
  split_and!; [exact Hnd|exact Hin|].
  destruct (timeout_rejects_only_its_request busy_manager 1 _ Hnd Hin)
    as (s' & Hfire & _ & _ & Hgone & _).
  exists s'. split; [exact Hfire|exact Hgone].
Defined.

Lemma connection_loss_rejects_pending_witness :
  sockets (rt busy_manager) !! 0 = Some (mkSocket OPEN 0 false false) ∧
  readyState (mkSocket OPEN 0 false false) ≠ CLOSED ∧
  intentionalClose (this busy_manager) = false ∧
  ∃ s', sock_close 0 busy_manager = Some s' ∧
        pendingRequests (this s') = [] ∧ ws (this s') = None.
Proof.
  assert (Hsk : sockets (rt busy_manager) !! 0 =
                Some (mkSocket OPEN 0 false false)) by (by vm_compute).
  assert (Hrs : readyState (mkSocket OPEN 0 false false) ≠ CLOSED)
    by (by vm_compute).
  assert (Hic : intentionalClose (this busy_manager) = false)
    by (by vm_compute).
  split_and!; [exact Hsk|exact Hrs|exact Hic|].
  destruct (connection_loss_rejects_pending busy_manager 0 _ Hsk Hrs Hic)
    as (s' & Hclose & _ & _ & Hnone & _ & Hws & _).
  exists s'. split_and!; [exact Hclose|exact Hnone|exact Hws].
Defined.

Lemma successful_retry_resets_backoff_witness :
  reconnect (options (this lost_manager)) = true ∧
  reconnectTimer (this lost_manager) = Some 1000%Z ∧
  _state (this lost_manager) ≠ connected ∧
  _state (this lost_manager) ≠ connecting ∧
  ∃ s1, run [ReconnectTimer None;
             SockOpen (length (sockets (rt lost_manager)))] lost_manager =
        Some s1 ∧
        _state (this s1) = connected ∧ reconnectAttempts (this s1) = 0.
Proof.
  assert (H1 : reconnect (options (this lost_manager)) = true)
    by (by vm_compute).
  assert (H2 : reconnectTimer (this lost_manager) = Some 1000%Z)
    by (by vm_compute).
  assert (H3 : _state (this lost_manager) ≠ connected) by (by vm_compute).
  assert (H4 : _state (this lost_manager) ≠ connecting) by (by vm_compute).
  split_and!; [exact H1|exact H2|exact H3|exact H4|].
  destruct (successful_retry_resets_backoff lost_manager 1000 H1 H2 H3 H4)
    as (s1 & _ & Hrun & Hst & Hn & _).
  exists s1. split_and!; [exact Hrun|exact Hst|exact Hn].
Defined.

Lemma backoff_grows_to_the_ceiling_witness :
  (0 < reconnectDelay DEFAULT_WS_OPTIONS)%Z ∧
  (0 ≤ maxReconnectDelay DEFAULT_WS_OPTIONS)%Z ∧
  (backoff DEFAULT_WS_OPTIONS 3 ≤ backoff DEFAULT_WS_OPTIONS 4)%Z.
Proof.
  assert (H1 : (0 < reconnectDelay DEFAULT_WS_OPTIONS)%Z) by (by vm_compute).
  assert (H2 : (0 ≤ maxReconnectDelay DEFAULT_WS_OPTIONS)%Z)
    by (by vm_compute).
  split_and!; [exact H1|exact H2|].
  exact (proj2 (proj1 (backoff_grows_to_the_ceiling DEFAULT_WS_OPTIONS H1 H2)
                  3)).
Defined.

Lemma close_of_an_earlier_socket_ends_the_connection_witness :
  ws (this redialled_manager) = Some 1 ∧ 0 ≠ 1 ∧
  sockets (rt redialled_manager) !! 0 =
    Some (mkSocket CLOSING 0 false false) ∧
  readyState (mkSocket CLOSING 0 false false) ≠ CLOSED ∧
  sockets (rt redialled_manager) !! 1 =
    Some (mkSocket CONNECTING 1 true true) ∧
  live (readyState (mkSocket CONNECTING 1 true true)) ∧
  intentionalClose (this redialled_manager) = false ∧
  ∃ s', sock_close 0 redialled_manager = Some s' ∧
        readyStates s' !! 1 = Some CLOSING ∧ ws (this s') = None.
Proof.
  assert (Hws : ws (this redialled_manager) = Some 1) by (by vm_compute).
  assert (Hne : 0 ≠ 1) by lia.
  assert (H0 : sockets (rt redialled_manager) !! 0 =
               Some (mkSocket CLOSING 0 false false)) by (by vm_compute).
  assert (Hr0 : readyState (mkSocket CLOSING 0 false false) ≠ CLOSED)
    by (by vm_compute).
  assert (H1 : sockets (rt redialled_manager) !! 1 =
               Some (mkSocket CONNECTING 1 true true)) by (by vm_compute).
  assert (Hl : live (readyState (mkSocket CONNECTING 1 true true)))
    by (by left).
  assert (Hic : intentionalClose (this redialled_manager) = false)
    by (by vm_compute).
  split_and!; [exact Hws|exact Hne|exact H0|exact Hr0|exact H1|exact Hl|
               exact Hic|].
  destruct (close_of_an_earlier_socket_ends_the_connection redialled_manager
              0 1 _ _ Hws Hne H0 Hr0 H1 Hl Hic)
    as (s' & Hclose & Hj & Hnone & _).
  exists s'. split_and!; [exact Hclose|exact Hj|exact Hnone].
Defined.

Lemma off_removes_one_handler_witness :
  Events.wf sample_emitter ∧
  Events.registered "message"
    (Events.off "message" (Events.User 1) sample_emitter) =
  filter (λ x, x ≠ Events.User 1) (Events.registered "message" sample_emitter).
Proof.
  split; [exact sample_emitter_wf|].
  exact (proj1 (off_removes_one_handler "message" (Events.User 1)
                  sample_emitter sample_emitter_wf)).
Defined.

Lemma emit_drops_exactly_the_once_handlers_witness :
  Events.wf sample_emitter ∧
  (∀ h, h ∈ Events.registered "message" sample_emitter →
        Events.quiet sample_acts "message" "hello" h) ∧
  (length (Events.registered "message" sample_emitter) ≤ 3)%nat ∧
  ∃ e' effs,
    Events.emit sample_acts sample_throws 3 "message" "hello" sample_emitter
      = Some (e', effs) ∧
    Events.registered "message" e' =
      filter (λ h, Events.is_once h = false)
        (Events.registered "message" sample_emitter).
Proof.
  assert (Hq : ∀ h, h ∈ Events.registered "message" sample_emitter →
                    Events.quiet sample_acts "message" "hello" h).
  { intros h _. apply sample_acts_quiet. }
  assert (Hlen : (length (Events.registered "message" sample_emitter) ≤ 3)%nat)
    by (by vm_compute).
  split_and!; [exact sample_emitter_wf|exact Hq|exact Hlen|].
  destruct (emit_drops_exactly_the_once_handlers sample_acts sample_throws
              "message" "hello" sample_emitter 3 sample_emitter_wf Hq Hlen)
    as (e' & effs & Hemit & Hreg & _).
  exists e', effs. split; [exact Hemit|exact Hreg].
Defined.

Lemma removeAllListeners_clears_witness :
  "message" ≠ "" ∧
  Events.listenerCount "message"
    (Events.removeAllListeners (Some "message") sample_emitter) = 0.
Proof.
  assert (Hne : "message" ≠ "") by (by vm_compute).
  split; [exact Hne|].
  exact (proj1 (proj1 (removeAllListeners_clears sample_acts sample_throws
                         "message" "hello" sample_emitter) Hne)).
Defined.

Lemma once_closures_are_handlers_of_their_own_witness :
  Events.wf sample_emitter ∧
  ∃ e' effs,
    Events.emit meddling_acts sample_throws 4 "message" "hello"
      (Events.off "message" (Events.User 2)
         (Events.once "message" 2 sample_emitter)) = Some (e', effs) ∧
    filter (λ x, x.1 = Events.OnceHandler (Events.closures sample_emitter)
                         "message" 2)
      (Events.invocations effs) =
    [(Events.OnceHandler (Events.closures sample_emitter) "message" 2,
      "hello")].
Proof.
  assert (Hrun : ∃ e' effs,
    Events.emit meddling_acts sample_throws 4 "message" "hello"
      (Events.off "message" (Events.User 2)
         (Events.once "message" 2 sample_emitter)) = Some (e', effs))
    by (vm_compute; by eexists _, _).
  split; [exact sample_emitter_wf|].
  destruct Hrun as (e' & effs & Hemit). exists e', effs.
  split; [exact Hemit|].
  exact (proj1 (proj2 (once_closures_are_handlers_of_their_own meddling_acts
                  sample_throws "message" 2 "hello" sample_emitter
                  sample_emitter_wf)) 4 e' effs Hemit).
Defined.

Lemma methods_reach_the_socket_while_connected_witness :
  Client.run closing_session (Client.new_edge (Client.options fresh_edge)) =
    Some closing_edge ∧
  Client.isConnected closing_edge = true ∧
  ∃ i r, ws (this (Client.ws closing_edge)) = Some i ∧
         readyStates (Client.ws closing_edge) !! i = Some r ∧
         (r = OPEN ∨ r = CLOSING) ∧
         Client.triggerScan closing_edge =
           if decide (r = OPEN)
           then (Client.Returns,
                 Client.set_ws
                   (set_sent (sent (rt (Client.ws closing_edge)) ++
                              [(i, Command trigger_scan)])
                      (Client.ws closing_edge)) closing_edge)
           else (Client.Throws "WebSocket is not connected", closing_edge).
Proof.
  assert (Hconn : Client.isConnected closing_edge = true) by (by vm_compute).
  split_and!; [exact closing_session_runs|exact Hconn|].
  destruct (methods_reach_the_socket_while_connected _ _ _ "q1" [] None
              closing_session_runs Hconn)
    as (i & r & Hws & Hr & Hor & Htrigger & _).
  exists i, r. split_and!; [exact Hws|exact Hr|exact Hor|exact Htrigger].
Defined.

Lemma open_announces_and_asks_for_capabilities_witness :
  sockets (rt (Client.ws connecting_edge)) !! 0 =
    Some (mkSocket CONNECTING 0 true true) ∧
  ws (this (Client.ws connecting_edge)) = Some 0 ∧
  Client.waiting connecting_edge ∧
  (0 ∉ Client.fetching connecting_edge) ∧
  ∃ e', Client.occurs (SockOpen 0) "q0" connecting_edge = Some e' ∧
        Client.isConnected e' = true ∧
        Client.published e' =
          Client.published connecting_edge ++ [Client.EvConnect].
Proof.
  assert (Hsk : sockets (rt (Client.ws connecting_edge)) !! 0 =
                Some (mkSocket CONNECTING 0 true true)) by (by vm_compute).
  assert (Hws : ws (this (Client.ws connecting_edge)) = Some 0)
    by (by vm_compute).
  assert (Hfresh : 0 ∉ Client.fetching connecting_edge).
  { vm_compute. by intros ?%elem_of_nil. }
  split_and!; [exact Hsk|exact Hws|exact connecting_edge_waiting|
               exact Hfresh|].
  destruct (open_announces_and_asks_for_capabilities connecting_edge 0
              (mkSocket CONNECTING 0 true true) "q0" Hsk eq_refl eq_refl Hws
              connecting_edge_waiting Hfresh)
    as (e' & Hocc & Hconn & Hpub & _).
  exists e'. split_and!; [exact Hocc|exact Hconn|exact Hpub].
Defined.

Lemma answer_to_the_fetch_fills_the_cache_witness :
  sockets (rt (Client.ws open_edge)) !! 0 =
    Some (mkSocket OPEN 0 false false) ∧
  Client.waiting open_edge ∧ NoDup (Client.fetching open_edge) ∧
  1 ∈ Client.fetching open_edge ∧
  map_get "q0" (pendingRequests (this (Client.ws open_edge))) =
    Some (mkPending 1 0) ∧
  ∃ e', Client.occurs
          (SockMessage 0
             (Some (Response "q0" true (Some (Json "zebra")) ""))) ""
          open_edge = Some e' ∧
        Client._capabilities e' = Some (Json "zebra").
Proof.
  assert (Hsk : sockets (rt (Client.ws open_edge)) !! 0 =
                Some (mkSocket OPEN 0 false false)) by (by vm_compute).
  assert (Hnd : NoDup (Client.fetching open_edge)).
  { apply (bool_decide_unpack _). by vm_compute. }
  assert (Hin : 1 ∈ Client.fetching open_edge) by (vm_compute; left).
  assert (Hget : map_get "q0" (pendingRequests (this (Client.ws open_edge))) =
                 Some (mkPending 1 0)) by (by vm_compute).
  split_and!; [exact Hsk|exact open_edge_waiting|exact Hnd|exact Hin|
               exact Hget|].
  destruct (answer_to_the_fetch_fills_the_cache open_edge 0
              (mkSocket OPEN 0 false false) "q0" "" 1 0 (Json "zebra") None
              "" Hsk eq_refl open_edge_waiting Hnd Hin Hget)
    as [(e' & Hocc & Hcaps & _) _].
  exists e'. split; [exact Hocc|exact Hcaps].
Defined.

Lemma frames_reach_the_subscribers_witness :
  sockets (rt (Client.ws open_edge)) !! 0 =
    Some (mkSocket OPEN 0 false false) ∧
  Client.waiting open_edge ∧
  ∃ e', Client.occurs (SockMessage 0 (Some (Event sample_scan))) ""
          open_edge = Some e' ∧
        Client._capabilities e' = Client._capabilities open_edge ∧
        Client.fetching e' = Client.fetching open_edge.
Proof.
  assert (Hsk : sockets (rt (Client.ws open_edge)) !! 0 =
                Some (mkSocket OPEN 0 false false)) by (by vm_compute).
  assert (Hlate : ∀ rid ok r err,
    Some (Event sample_scan) = Some (Response rid ok r err) →
    map_get rid (pendingRequests (this (Client.ws open_edge))) = None)
    by (intros rid ok r err H; discriminate H).
  split_and!; [exact Hsk|exact open_edge_waiting|].
  destruct (frames_reach_the_subscribers open_edge 0
              (mkSocket OPEN 0 false false) (Some (Event sample_scan)) ""
              Hsk eq_refl open_edge_waiting Hlate)
    as (e' & Hocc & _ & Hcaps & Hf & _).
  exists e'. split_and!; [exact Hocc|exact Hcaps|exact Hf].
Defined.

Lemma informed_edge_consistent : consistent (Client.ws informed_edge).
Proof.
  assert (Hrun : Client.run
            (first_session ++
             [Client.Occurs
                (SockMessage 0
                   (Some (Response "q0" true (Some (Json "zebra")) ""))) ""])
            (Client.new_edge (Client.options fresh_edge)) =
          Some informed_edge) by (by vm_compute).
  exact (proj1 (run_invariants _ _ _ (new_edge_consistent _)
                  (new_edge_waiting _) Hrun)).
Qed.

Lemma disconnect_is_announced_once_witness :
  Client.waiting informed_edge ∧ consistent (Client.ws informed_edge) ∧
  Client.published (Client.disconnect "" informed_edge) =
    Client.published informed_edge ++ [Client.EvDisconnect] ∧
  forallb Client.passive facade_aftermath = true ∧
  ∃ e'', Client.run facade_aftermath (Client.disconnect "" informed_edge) =
           Some e'' ∧
         Client.connectionState e'' = disconnected.
Proof.
  assert (Hp : forallb Client.passive facade_aftermath = true)
    by (by vm_compute).
  assert (Hrun : ∃ e'', Client.run facade_aftermath
                          (Client.disconnect "" informed_edge) = Some e'')
    by (vm_compute; by eexists).
  destruct (disconnect_is_announced_once informed_edge ""
              informed_edge_waiting informed_edge_consistent)
    as (Hpub & _ & _ & Hafter).
  split_and!; [exact informed_edge_waiting|exact informed_edge_consistent|
               exact Hpub|exact Hp|].
  destruct Hrun as (e'' & Hrun). exists e''. split; [exact Hrun|].
  exact (proj1 (Hafter facade_aftermath e'' Hp Hrun)).
Defined.

Lemma connection_loss_is_announced_witness :
  sockets (rt (Client.ws open_edge)) !! 0 =
    Some (mkSocket OPEN 0 false false) ∧
  readyState (mkSocket OPEN 0 false false) ≠ CLOSED ∧
  intentionalClose (this (Client.ws open_edge)) = false ∧
  reconnect (options (this (Client.ws open_edge))) = true ∧
  Client.waiting open_edge ∧
  ∃ e', Client.occurs (SockClose 0) "" open_edge = Some e' ∧
        Client.connectionState e' = reconnecting.
Proof.
  assert (Hsk : sockets (rt (Client.ws open_edge)) !! 0 =
                Some (mkSocket OPEN 0 false false)) by (by vm_compute).
  assert (Hrs : readyState (mkSocket OPEN 0 false false) ≠ CLOSED)
    by (by vm_compute).
  assert (Hic : intentionalClose (this (Client.ws open_edge)) = false)
    by (by vm_compute).
  assert (Hrec : reconnect (options (this (Client.ws open_edge))) = true)
    by (by vm_compute).
  split_and!; [exact Hsk|exact Hrs|exact Hic|exact Hrec|
               exact open_edge_waiting|].
  destruct (connection_loss_is_announced open_edge 0 _ "" Hsk Hrs Hic Hrec
              open_edge_waiting) as (e' & Hocc & _ & Hst & _).
  exists e'. split; [exact Hocc|exact Hst].
Defined.

Lemma getCapabilities_by_the_caller_leaves_the_cache_witness :
  Client.run first_session (Client.new_edge (Client.options fresh_edge)) =
    Some open_edge ∧
  Client.isConnected open_edge = true ∧
  (Client.getCapabilities "q1" open_edge).1 =
  Client.Awaits (length (promises (rt (Client.ws open_edge)))).
Proof.
  assert (Hconn : Client.isConnected open_edge = true) by (by vm_compute).
  split_and!; [exact first_session_opens|exact Hconn|].
  exact (proj1 (getCapabilities_by_the_caller_leaves_the_cache _ _ _ "q1" ""
                  first_session_opens Hconn)).
Defined.

Lemma socket_error_is_published_and_ends_nothing_witness :
  sockets (rt (Client.ws open_edge)) !! 0 =
    Some (mkSocket OPEN 0 false false) ∧
  readyState (mkSocket OPEN 0 false false) ≠ CLOSED ∧
  Client.waiting open_edge ∧
  ∃ e', Client.occurs (SockError 0) "" open_edge = Some e' ∧
        Client.published e' =
          Client.published open_edge ++ [Client.EvError "WebSocket error"].
Proof.
  assert (Hsk : sockets (rt (Client.ws open_edge)) !! 0 =
                Some (mkSocket OPEN 0 false false)) by (by vm_compute).
  assert (Hrs : readyState (mkSocket OPEN 0 false false) ≠ CLOSED)
    by (by vm_compute).
  split_and!; [exact Hsk|exact Hrs|exact open_edge_waiting|].
  destruct (socket_error_is_published_and_ends_nothing open_edge 0 _ ""
              Hsk Hrs open_edge_waiting) as (e' & Hocc & Hpub & _).
  exists e'. split; [exact Hocc|exact Hpub].
Defined.

Lemma facade_always_reconnects_witness :
  Client.run first_session (Client.new_edge (Client.options fresh_edge)) =
    Some open_edge ∧
  Client.options open_edge = Client.options fresh_edge.
Proof.
  split; [exact first_session_opens|].
  exact (proj1 (facade_always_reconnects _ _ _ first_session_opens)).
Defined.

Lemma scan_history_keeps_the_newest_first_witness :
  Bindings.scanHistory
    (foldl (λ st ev, Bindings.handleScan 2 true ev st)
       (Bindings.clearHistory (Bindings.mkBarcode None [] []))
       ["a"; "b"; "c"]) =
  take (Z.to_nat 2) (reverse ["a"; "b"; "c"]).
Proof.
  exact (proj1 (scan_history_keeps_the_newest_first 2 true
                  (Bindings.mkBarcode None [] []) ["a"; "b"; "c"])).
Defined.

Lemma tags_aggregate_the_reads_by_epc_witness :
  map_get "E1"
    (Bindings.tags
       (Bindings.handleReads true sample_reads
          (Bindings.clearTags (Bindings.mkRfid None [] [])))) =
  Bindings.tag_of "E1" sample_reads.
Proof.
  exact (proj1 (tags_aggregate_the_reads_by_epc true
                  (Bindings.mkRfid None [] []) sample_reads) "E1").
Defined.


End FurtherSamples.
